(** * go-music-player: the WebSocket synchronisation hub (websocket_sync.go)

    A shallow embedding of the hub of websocket_sync.go: Go channels of byte
    slices, the heap of [*Client] objects, the registry [Hub.Clients], one
    iteration of [Hub.Run] for each of the three channels it selects on, and
    the goroutines around it ([ServeWebSocket], [readPump], [writePump]).

    Go strings and byte slices are sequences of bytes; both are [string]
    here (a [string] is a list of 8-bit [ascii] characters). *)

From stdpp Require Import gmap strings list fin_maps.
From Stdlib Require Import ZArith Ascii.
From Stdlib Require DecimalString DecimalZ DecimalPos DecimalFacts.

Set Warnings "-register-all,-abstract-large-number".

Local Open Scope string_scope.

(** Let [simpl] and [cbn] unfold the append of strings. *)
#[local] Arguments String.append !_ _ / : simpl nomatch.

(** Let [lia] reason about division and remainder by a constant. *)
Ltac Zify.zify_post_hook ::= Z.to_euclidean_division_equations.

(* ===================================================================== *)
(** * Part I: definitions                                                  *)
(* ===================================================================== *)

(** ** Go channels: [chan []byte]

    A channel made by [make(chan []byte, n)] is a FIFO buffer of at most [n]
    pending messages and a closed flag.  The three operations the program
    uses are modelled with Go's semantics:
    - a send inside [select { case ch <- v: ... default: ... }] proceeds when
      the buffer has room, takes the [default] branch when it has none, and
      panics on a closed channel;
    - [close(ch)] panics on a channel that is already closed;
    - a receive yields the oldest pending message; on an empty channel it
      reports [ok = false] when the channel is closed and blocks otherwise. *)
Module Chan.

Record chan := mk { buf : list string; cap : nat; closed : bool }.

(** [make(chan []byte, n)] *)
Definition make (n : nat) : chan := mk [] n false.

Definition full (ch : chan) : bool := (cap ch <=? List.length (buf ch))%nat.

Inductive select_send :=
| Sent (ch : chan)      (* case ch <- message: taken *)
| Default               (* default: taken, nothing was sent *)
| SendPanic.            (* send on closed channel *)

Definition try_send (message : string) (ch : chan) : select_send :=
  if closed ch then SendPanic
  else if full ch then Default
  else Sent (mk (buf ch ++ [message]) (cap ch) false).

(** [close(ch)]; [None] is the panic "close of closed channel". *)
Definition close (ch : chan) : option chan :=
  if closed ch then None else Some (mk (buf ch) (cap ch) true).

Inductive recv_result :=
| Received (message : string) (ch : chan)   (* message, ok = true *)
| Drained                                   (* ok = false: closed and empty *)
| Blocked.                                  (* empty and open: the receiver waits *)

Definition recv (ch : chan) : recv_result :=
  match buf ch with
  | message :: rest => Received message (mk rest (cap ch) (closed ch))
  | [] => if closed ch then Drained else Blocked
  end.

End Chan.

(** ** Clients, the hub and the program state *)

(** A [*Client]: the address of a client object.  The map [Hub.Clients] is
    keyed by these addresses, so two connections of one user are two keys. *)
Abbreviation ClientPtr := positive.

(** [type Client struct { ID; Socket; Send; UserID }].  The socket belongs to
    the transport and is left out; [Send] is never reassigned and never
    shared between two clients, so the channel is stored in the object. *)
Record Client := mkClient { ID : string; Send : Chan.chan; UserID : string }.

Definition with_Send (c : Client) (ch : Chan.chan) : Client :=
  mkClient (ID c) ch (UserID c).

(** [type Hub struct { Clients map[*Client]bool; Broadcast; Register;
    Unregister }].  The three channels are unbuffered: a value sent on one of
    them is handed to [Run] directly, which is the [HubEvent] below. *)
Record Hub := mkHub { Clients : gmap positive bool }.

(** [NewHub] *)
Definition NewHub : Hub := mkHub ∅.

(** The heap of client objects and the hub. *)
Record State := mkState { heap : gmap positive Client; hub : Hub }.

Definition init : State := mkState ∅ NewHub.

(** What one [select] of [Hub.Run] receives. *)
Inductive HubEvent :=
| RecvRegister (client : ClientPtr)     (* client := <-h.Register *)
| RecvUnregister (client : ClientPtr)   (* client := <-h.Unregister *)
| RecvBroadcast (message : string).     (* message := <-h.Broadcast *)

(** ** [Hub.Run]: one iteration of the loop

    The result is [None] when the iteration panics (a send on a closed
    channel, a close of a closed channel, a client object that does not
    exist). *)

(** [h.Clients[client] = true] *)
Definition Run_Register (client : ClientPtr) (st : State) : option State :=
  Some (mkState (heap st) (mkHub (<[client := true]> (Clients (hub st))))).

(** [if _, ok := h.Clients[client]; ok { delete(h.Clients, client);
    close(client.Send) }] *)
Definition Run_Unregister (client : ClientPtr) (st : State) : option State :=
  match Clients (hub st) !! client with
  | Some _ =>
      c ← heap st !! client;
      ch ← Chan.close (Send c);
      Some (mkState (<[client := with_Send c ch]> (heap st))
                    (mkHub (delete client (Clients (hub st)))))
  | None => Some st
  end.

(** The body of [for client := range h.Clients { select { case client.Send <-
    message: default: close(client.Send); delete(h.Clients, client) } }],
    run over the keys in the order [order] the range yields them.  A key
    deleted before the range reaches it is not produced, hence the lookup. *)
Fixpoint Run_Broadcast_loop (order : list ClientPtr) (message : string)
    (st : State) : option State :=
  match order with
  | [] => Some st
  | client :: rest =>
      match Clients (hub st) !! client with
      | None => Run_Broadcast_loop rest message st
      | Some _ =>
          c ← heap st !! client;
          match Chan.try_send message (Send c) with
          | Chan.Sent ch =>
              Run_Broadcast_loop rest message
                (mkState (<[client := with_Send c ch]> (heap st)) (hub st))
          | Chan.Default =>
              ch ← Chan.close (Send c);
              Run_Broadcast_loop rest message
                (mkState (<[client := with_Send c ch]> (heap st))
                         (mkHub (delete client (Clients (hub st)))))
          | Chan.SendPanic => None
          end
      end
  end.

(** Go leaves the iteration order of a map unspecified: [order] is any
    arrangement of the keys the map holds when the range starts. *)
Definition range_order (m : gmap positive bool) (order : list ClientPtr) : Prop :=
  order ≡ₚ elements (dom m).

(** The order the executable model picks. *)
Definition default_order (st : State) : list ClientPtr :=
  elements (dom (Clients (hub st))).

(** One iteration of [Run] on the event [ev]; [order] is used by the range of
    the broadcast case only. *)
Definition Run_iteration (order : list ClientPtr) (ev : HubEvent) (st : State)
    : option State :=
  match ev with
  | RecvRegister client => Run_Register client st
  | RecvUnregister client => Run_Unregister client st
  | RecvBroadcast message => Run_Broadcast_loop order message st
  end.

(** [Run] as a step relation. *)
Inductive Run_step (st : State) (ev : HubEvent) (st' : State) : Prop :=
| Run_step_intro order :
    range_order (Clients (hub st)) order →
    Run_iteration order ev st = Some st' →
    Run_step st ev st'.

(** ** The goroutines around the hub *)

(** [ServeWebSocket]: a new client object with a fresh [Send] channel of
    capacity 256 is allocated at the unused address [client] and sent on
    [hub.Register]. *)
Definition new_Client (user_id : string) : Client :=
  mkClient "" (Chan.make 256) user_id.

Definition ServeWebSocket (client : ClientPtr) (user_id : string) (st : State)
    : option State :=
  match heap st !! client with
  | Some _ => None
  | None =>
      Run_Register client (mkState (<[client := new_Client user_id]> (heap st)) (hub st))
  end.

(** [writePump]: one receive on [c.Send]; a received message goes to the
    socket.  [None] when the pump has nothing to receive. *)
Definition writePump_recv (client : ClientPtr) (st : State) : option (string * State) :=
  c ← heap st !! client;
  match Chan.recv (Send c) with
  | Chan.Received message ch =>
      Some (message, mkState (<[client := with_Send c ch]> (heap st)) (hub st))
  | _ => None
  end.

(** ** Bytes and UTF-8, as [encoding/json] reads them *)

(** The double quote. *)
Definition DQ : ascii := "034"%char.

Definition byte (c : ascii) : N := N_of_ascii c.

Definition between (lo hi : N) (c : ascii) : bool :=
  ((lo <=? byte c) && (byte c <=? hi))%N.

Definition is_digit (c : ascii) : bool := between 48 57 c.

(** JSON white space: space, tab, line feed, carriage return. *)
Definition is_space (c : ascii) : bool :=
  match c with
  | " "%char | "009"%char | "010"%char | "013"%char => true
  | _ => false
  end.

Fixpoint skip_space (s : string) : string :=
  match s with
  | String c rest => if is_space c then skip_space rest else s
  | EmptyString => EmptyString
  end.

(** [utf8.DecodeRune] on a lead byte [b0] and the byte after it: the length
    of the sequence [b0] starts when [b1] is in the range [b0] accepts, 0
    when [b0] starts no multi-byte sequence or [b1] is out of range. *)
Definition utf8_lead (b0 b1 : ascii) : nat :=
  if between 0xC2 0xDF b0 then (if between 0x80 0xBF b1 then 2 else 0)%nat
  else if (byte b0 =? 0xE0)%N then (if between 0xA0 0xBF b1 then 3 else 0)%nat
  else if (byte b0 =? 0xED)%N then (if between 0x80 0x9F b1 then 3 else 0)%nat
  else if between 0xE1 0xEF b0 then (if between 0x80 0xBF b1 then 3 else 0)%nat
  else if (byte b0 =? 0xF0)%N then (if between 0x90 0xBF b1 then 4 else 0)%nat
  else if between 0xF1 0xF3 b0 then (if between 0x80 0xBF b1 then 4 else 0)%nat
  else if (byte b0 =? 0xF4)%N then (if between 0x80 0x8F b1 then 4 else 0)%nat
  else 0%nat.

Definition is_cont (c : ascii) : bool := between 0x80 0xBF c.

(** The well-formed multi-byte sequence at the head of [s] and what follows
    it; [None] where [utf8.DecodeRune] reports [(RuneError, 1)]. *)
Definition utf8_prefix (s : string) : option (string * string) :=
  match s with
  | String b0 (String b1 r1) =>
      match utf8_lead b0 b1 with
      | 2%nat => Some (String b0 (String b1 EmptyString), r1)
      | 3%nat =>
          match r1 with
          | String b2 r2 =>
              if is_cont b2
              then Some (String b0 (String b1 (String b2 EmptyString)), r2)
              else None
          | EmptyString => None
          end
      | 4%nat =>
          match r1 with
          | String b2 (String b3 r3) =>
              if is_cont b2 && is_cont b3
              then Some (String b0 (String b1 (String b2 (String b3 EmptyString))), r3)
              else None
          | _ => None
          end
      | _ => None
      end
  | _ => None
  end.

Definition chr (n : N) : ascii := ascii_of_N n.

(** U+FFFD, the replacement character, in UTF-8. *)
Definition replacement : string :=
  String (chr 0xEF) (String (chr 0xBF) (String (chr 0xBD) EmptyString)).

(** [utf8.AppendRune]: the UTF-8 encoding of the code point [r]; a surrogate
    or a value past U+10FFFF is encoded as U+FFFD. *)
Definition utf8_encode (r : N) : string :=
  (if r <=? 0x7F then String (chr r) EmptyString
   else if r <=? 0x7FF then
     String (chr (0xC0 + r / 64)) (String (chr (0x80 + r mod 64)) EmptyString)
   else if (0x10FFFF <? r) || ((0xD800 <=? r) && (r <=? 0xDFFF)) then replacement
   else if r <=? 0xFFFF then
     String (chr (0xE0 + r / 4096))
       (String (chr (0x80 + (r / 64) mod 64))
          (String (chr (0x80 + r mod 64)) EmptyString))
   else
     String (chr (0xF0 + r / 262144))
       (String (chr (0x80 + (r / 4096) mod 64))
          (String (chr (0x80 + (r / 64) mod 64))
             (String (chr (0x80 + r mod 64)) EmptyString))))%N.

(** ** JSON text: the scanner of [encoding/json] *)

Inductive json :=
| JNull
| JBool (b : bool)
| JNumber (literal : string)
| JString (s : string)
| JArray (elements : list json)
| JObject (members : list (string * json)).

Definition hex_val (c : ascii) : option N :=
  if is_digit c then Some (byte c - 48)%N
  else if between 97 102 c then Some (byte c - 87)%N
  else if between 65 70 c then Some (byte c - 55)%N
  else None.

(** [getu4]: the code unit of a [\uXXXX] escape at the head of [s]. *)
Definition getu4 (s : string) : option (N * string) :=
  match s with
  | String "\"%char (String "u"%char
      (String h1 (String h2 (String h3 (String h4 rest))))) =>
      a ← hex_val h1; b ← hex_val h2; c ← hex_val h3; d ← hex_val h4;
      Some ((((a * 16 + b) * 16 + c) * 16 + d)%N, rest)
  | _ => None
  end.

(** The byte a two-character escape stands for. *)
Definition simple_escape (c : ascii) : option ascii :=
  if Ascii.eqb c DQ then Some DQ
  else match c with
       | "\"%char => Some "\"%char
       | "/"%char => Some "/"%char
       | "b"%char => Some "008"%char
       | "f"%char => Some "012"%char
       | "n"%char => Some "010"%char
       | "r"%char => Some "013"%char
       | "t"%char => Some "009"%char
       | _ => None
       end.

Definition is_surrogate (r : N) : bool := ((0xD800 <=? r) && (r <? 0xE000))%N.

(** [utf16.DecodeRune]: the code point of a surrogate pair, U+FFFD when the
    two code units are not a high surrogate followed by a low one. *)
Definition utf16_pair (r1 r2 : N) : option N :=
  (if (0xD800 <=? r1) && (r1 <? 0xDC00) && (0xDC00 <=? r2) && (r2 <? 0xE000)
   then Some ((r1 - 0xD800) * 1024 + (r2 - 0xDC00) + 0x10000)
   else None)%N.

Definition prepend (p : string) (r : option (string * string)) : option (string * string) :=
  '(t, rest) ← r; Some (p +:+ t, rest).

(** A string literal after its opening quote: the string it denotes ([unquote]
    of [encoding/json]: escapes resolved, ill-formed UTF-8 and unpaired
    surrogates replaced by U+FFFD) and the text after the closing quote.
    [None] is a syntax error: an unterminated literal, a control character,
    an escape that does not exist. *)
Fixpoint unquote_from (fuel : nat) (s : string) : option (string * string) :=
  match fuel with
  | O => None
  | S fuel =>
      match s with
      | EmptyString => None
      | String c rest =>
          if Ascii.eqb c DQ then Some (EmptyString, rest)
          else if Ascii.eqb c "\"%char then
            match rest with
            | EmptyString => None
            | String e rest' =>
                match simple_escape e with
                | Some b => prepend (String b EmptyString) (unquote_from fuel rest')
                | None =>
                    match getu4 s with
                    | None => None
                    | Some (rr, after) =>
                        if is_surrogate rr then
                          match getu4 after with
                          | Some (rr1, after1) =>
                              match utf16_pair rr rr1 with
                              | Some dec => prepend (utf8_encode dec) (unquote_from fuel after1)
                              | None => prepend replacement (unquote_from fuel after)
                              end
                          | None => prepend replacement (unquote_from fuel after)
                          end
                        else prepend (utf8_encode rr) (unquote_from fuel after)
                    end
                end
            end
          else if (byte c <? 0x20)%N then None
          else if (byte c <? 0x80)%N then
            prepend (String c EmptyString) (unquote_from fuel rest)
          else
            match utf8_prefix s with
            | Some (seq, after) => prepend seq (unquote_from fuel after)
            | None => prepend replacement (unquote_from fuel rest)
            end
      end
  end.

Definition unquote (s : string) : option (string * string) :=
  unquote_from (String.length s) s.

Fixpoint span_digits (s : string) : string * string :=
  match s with
  | String c rest =>
      if is_digit c
      then let '(d, r) := span_digits rest in (String c d, r)
      else (EmptyString, s)
  | EmptyString => (EmptyString, EmptyString)
  end.

(** One or more digits. *)
Definition digits1 (s : string) : option (string * string) :=
  match span_digits s with
  | (EmptyString, _) => None
  | (d, r) => Some (d, r)
  end.

(** The parts of a number literal at the head of [s], each with the text
    after it: an optional minus; an integer part, [0] or digits that do not
    begin with [0]; an optional fraction; an optional exponent. *)
Definition lex_sign (s : string) : string * string :=
  match s with
  | String c r => if Ascii.eqb c "-"%char then ("-", r) else (EmptyString, s)
  | EmptyString => (EmptyString, s)
  end.

Definition lex_int (s : string) : option (string * string) :=
  match s with
  | String c r => if Ascii.eqb c "0"%char then Some ("0", r) else digits1 s
  | EmptyString => None
  end.

Definition lex_frac (s : string) : option (string * string) :=
  match s with
  | String c r =>
      if Ascii.eqb c "."%char
      then '(d, r') ← digits1 r; Some (String c d, r')
      else Some (EmptyString, s)
  | EmptyString => Some (EmptyString, s)
  end.

Definition lex_exp (s : string) : option (string * string) :=
  match s with
  | String e r =>
      if Ascii.eqb e "e"%char || Ascii.eqb e "E"%char then
        let '(sg, r1) :=
          match r with
          | String c r' =>
              if Ascii.eqb c "+"%char || Ascii.eqb c "-"%char
              then (String c EmptyString, r')
              else (EmptyString, r)
          | EmptyString => (EmptyString, r)
          end in
        '(d, r') ← digits1 r1; Some (String e (sg +:+ d), r')
      else Some (EmptyString, s)
  | EmptyString => Some (EmptyString, s)
  end.

(** A number literal at the head of [s], kept as text. *)
Definition lex_number (s : string) : option (string * string) :=
  let '(sign, s1) := lex_sign s in
  '(int, s2) ← lex_int s1;
  '(frac, s3) ← lex_frac s2;
  '(exp, s4) ← lex_exp s3;
  Some (sign +:+ int +:+ frac +:+ exp, s4).

(** [s] without the prefix [p]. *)
Fixpoint strip_prefix (p s : string) : option string :=
  match p, s with
  | EmptyString, _ => Some s
  | String a p', String b s' => if Ascii.eqb a b then strip_prefix p' s' else None
  | _, _ => None
  end.

(** The scanner accepts at most this many nested arrays and objects. *)
Definition maxNestingDepth : nat := 10000.

(** The text after the character [c], when [s] begins with [c]. *)
Definition after_char (c : ascii) (s : string) : option string :=
  match s with
  | String c' r => if Ascii.eqb c' c then Some r else None
  | EmptyString => None
  end.

(** One JSON value at the head of [s] (white space before it skipped by the
    caller), and the text after it.  [depth] is how many more levels of
    arrays and objects may be opened; [fuel] bounds the recursion and is
    given by [parse_json]. *)
Fixpoint parse_value (fuel depth : nat) (s : string) {struct fuel}
    : option (json * string) :=
  match fuel with
  | O => None
  | S fuel =>
      match s with
      | EmptyString => None
      | String c rest =>
          if Ascii.eqb c DQ then
            '(str, r) ← unquote rest; Some (JString str, r)
          else if Ascii.eqb c "{"%char then
            match depth with
            | O => None
            | S depth =>
                match after_char "}" (skip_space rest) with
                | Some r => Some (JObject [], r)
                | None =>
                    '(ms, r) ← parse_members fuel depth (skip_space rest);
                    Some (JObject ms, r)
                end
            end
          else if Ascii.eqb c "["%char then
            match depth with
            | O => None
            | S depth =>
                match after_char "]" (skip_space rest) with
                | Some r => Some (JArray [], r)
                | None =>
                    '(vs, r) ← parse_elements fuel depth (skip_space rest);
                    Some (JArray vs, r)
                end
            end
          else if Ascii.eqb c "-"%char || is_digit c then
            '(lit, r) ← lex_number s; Some (JNumber lit, r)
          else if Ascii.eqb c "t"%char then
            r ← strip_prefix "true" s; Some (JBool true, r)
          else if Ascii.eqb c "f"%char then
            r ← strip_prefix "false" s; Some (JBool false, r)
          else if Ascii.eqb c "n"%char then
            r ← strip_prefix "null" s; Some (JNull, r)
          else None
      end
  end
with parse_members (fuel depth : nat) (s : string) {struct fuel}
    : option (list (string * json) * string) :=
  match fuel with
  | O => None
  | S fuel =>
      r0 ← after_char DQ s;
      '(key, r1) ← unquote r0;
      r2 ← after_char ":" (skip_space r1);
      '(v, r3) ← parse_value fuel depth (skip_space r2);
      match after_char "," (skip_space r3) with
      | Some r4 =>
          '(ms, r5) ← parse_members fuel depth (skip_space r4);
          Some ((key, v) :: ms, r5)
      | None =>
          r4 ← after_char "}" (skip_space r3);
          Some ([(key, v)], r4)
      end
  end
with parse_elements (fuel depth : nat) (s : string) {struct fuel}
    : option (list json * string) :=
  match fuel with
  | O => None
  | S fuel =>
      '(v, r1) ← parse_value fuel depth s;
      match after_char "," (skip_space r1) with
      | Some r2 =>
          '(vs, r3) ← parse_elements fuel depth (skip_space r2);
          Some (v :: vs, r3)
      | None =>
          r2 ← after_char "]" (skip_space r1);
          Some ([v], r2)
      end
  end.

(** [checkValid] and the scan of [Unmarshal]: the whole text is one JSON
    value between optional white space.  [None] is a [SyntaxError]. *)
Definition parse_json (s : string) : option json :=
  '(v, rest) ← parse_value (2 * String.length s + 2) maxNestingDepth (skip_space s);
  match skip_space rest with
  | EmptyString => Some v
  | _ => None
  end.

(** ** [float64]

    The two [float64] fields are read and written through [strconv]; the
    type and the four operations [encoding/json] applies to it are an
    interface here:
    - [float64_zero], the zero value of the type;
    - [float64_is_zero], the test behind [omitempty];
    - [ParseFloat lit], [strconv.ParseFloat(lit, 64)] on a JSON number
      literal, [None] when it reports a range error;
    - [FormatFloat f], the text [encoding/json] writes for [f], [None] for
      a NaN or an infinity ([UnsupportedValueError]). *)
Class Float64 := {
  float64 : Type;
  float64_zero : float64;
  float64_is_zero : float64 → bool;
  ParseFloat : string → option float64;
  FormatFloat : float64 → option string;
}.

(** ** Messages *)

(** [type MessageType string] and its five constants. *)
Definition MessageType := string.
Definition PlayMessage : MessageType := "play".
Definition PauseMessage : MessageType := "pause".
Definition SeekMessage : MessageType := "seek".
Definition VolumeMessage : MessageType := "volume".
Definition PlaylistMessage : MessageType := "playlist".

(** [type WebSocketMessage struct].  [Timestamp] is an [int64]: every value
    stored in it is in range (it comes from [ParseInt64] or from the clock),
    and the program does no arithmetic on it. *)
Module Msg.
Record t {F : Float64} := mk {
  Type_ : MessageType;
  UserID : string;
  SongID : string;
  Position : float64;
  Volume : float64;
  Timestamp : Z;
}.
Arguments mk {F} _ _ _ _ _ _.
End Msg.
Abbreviation WebSocketMessage := Msg.t.

(** [var msg WebSocketMessage]: the zero value. *)
Definition zero_message {F : Float64} : WebSocketMessage :=
  Msg.mk "" "" "" float64_zero float64_zero 0.

Definition set_Timestamp {F : Float64} (m : WebSocketMessage) (ts : Z) : WebSocketMessage :=
  Msg.mk (Msg.Type_ m) (Msg.UserID m) (Msg.SongID m) (Msg.Position m) (Msg.Volume m) ts.

(** ** [json.Unmarshal] into a [WebSocketMessage] *)

Inductive error :=
| SyntaxError
| UnmarshalTypeError (field_name : string).

Inductive result (A : Type) :=
| Ok (a : A)
| Err (e : error).
Arguments Ok {A} a.
Arguments Err {A} e.

(** The fields, by the names of their [json:] tags. *)
Inductive field := FType | FUserID | FSongID | FPosition | FVolume | FTimestamp.

Definition field_name (f : field) : string :=
  match f with
  | FType => "type"
  | FUserID => "user_id"
  | FSongID => "song_id"
  | FPosition => "position"
  | FVolume => "volume"
  | FTimestamp => "timestamp"
  end.

Definition fields : list field :=
  [FType; FUserID; FSongID; FPosition; FVolume; FTimestamp].

Definition lower (c : ascii) : ascii :=
  if between 65 90 c then chr (byte c + 32) else c.

(** Case folding of a key: ASCII letters to lower case; U+017F (long s) and
    U+212A (Kelvin sign), the two characters outside ASCII that fold with
    ASCII letters, to [s] and [k]. *)
Fixpoint fold_name (s : string) : string :=
  match s with
  | EmptyString => EmptyString
  | String c0 r0 =>
      match r0 with
      | EmptyString => String (lower c0) EmptyString
      | String c1 r1 =>
          if ((byte c0 =? 0xC5) && (byte c1 =? 0xBF))%N
          then String "s"%char (fold_name r1)
          else
            match r1 with
            | EmptyString => String (lower c0) (fold_name r0)
            | String c2 r2 =>
                if ((byte c0 =? 0xE2) && (byte c1 =? 0x84) && (byte c2 =? 0xAA))%N
                then String "k"%char (fold_name r2)
                else String (lower c0) (fold_name r0)
            end
      end
  end.

(** The field a key names: the one with that exact name, else the one whose
    name equals the key under case folding. *)
Definition find_field (key : string) : option field :=
  match List.find (λ f, String.eqb (field_name f) key) fields with
  | Some f => Some f
  | None => List.find (λ f, String.eqb (field_name f) (fold_name key)) fields
  end.

(** [strconv.ParseInt(lit, 10, 64)] on a number literal: [None] when the
    literal has a fraction or an exponent, or is out of the range of
    [int64]. *)
Definition ParseInt64 (lit : string) : option Z :=
  d ← DecimalString.NilZero.int_of_string lit;
  let z := Z.of_int d in
  if ((- 2 ^ 63 <=? z) && (z <=? 2 ^ 63 - 1))%Z then Some z else None.

(** [strconv.AppendInt(b, v, 10)] *)
Definition FormatInt (z : Z) : string :=
  DecimalString.NilZero.string_of_int (Z.to_int z).

(** One member value stored into the field it names: [null] leaves the field
    as it is, a value of the field's JSON type sets it, anything else is an
    [UnmarshalTypeError]. *)
Definition store {F : Float64} (f : field) (v : json) (m : WebSocketMessage)
    : result WebSocketMessage :=
  match v, f with
  | JNull, _ => Ok m
  | JString s, FType =>
      Ok (Msg.mk s (Msg.UserID m) (Msg.SongID m) (Msg.Position m) (Msg.Volume m) (Msg.Timestamp m))
  | JString s, FUserID =>
      Ok (Msg.mk (Msg.Type_ m) s (Msg.SongID m) (Msg.Position m) (Msg.Volume m) (Msg.Timestamp m))
  | JString s, FSongID =>
      Ok (Msg.mk (Msg.Type_ m) (Msg.UserID m) s (Msg.Position m) (Msg.Volume m) (Msg.Timestamp m))
  | JNumber lit, FPosition =>
      match ParseFloat lit with
      | Some x =>
          Ok (Msg.mk (Msg.Type_ m) (Msg.UserID m) (Msg.SongID m) x (Msg.Volume m) (Msg.Timestamp m))
      | None => Err (UnmarshalTypeError (field_name f))
      end
  | JNumber lit, FVolume =>
      match ParseFloat lit with
      | Some x =>
          Ok (Msg.mk (Msg.Type_ m) (Msg.UserID m) (Msg.SongID m) (Msg.Position m) x (Msg.Timestamp m))
      | None => Err (UnmarshalTypeError (field_name f))
      end
  | JNumber lit, FTimestamp =>
      match ParseInt64 lit with
      | Some z => Ok (set_Timestamp m z)
      | None => Err (UnmarshalTypeError (field_name f))
      end
  | _, _ => Err (UnmarshalTypeError (field_name f))
  end.

(** The members of the object, in order: a key that names no field is
    skipped; a later member overwrites an earlier one; after an
    [UnmarshalTypeError] the decoder goes on and reports the first one at
    the end. *)
Fixpoint decode_members {F : Float64} (ms : list (string * json))
    (m : WebSocketMessage) (saved : option error) : WebSocketMessage * option error :=
  match ms with
  | [] => (m, saved)
  | (key, v) :: rest =>
      match find_field key with
      | None => decode_members rest m saved
      | Some f =>
          match store f v m with
          | Ok m' => decode_members rest m' saved
          | Err e => decode_members rest m (Some (default e saved))
          end
      end
  end.

(** [json.Unmarshal(data, &msg)] for [var msg WebSocketMessage]: a syntax
    error for text that is not JSON; [null] leaves [msg] zero; an object is
    decoded member by member; any other value is an [UnmarshalTypeError]. *)
Definition Unmarshal {F : Float64} (data : string) : result WebSocketMessage :=
  match parse_json data with
  | None => Err SyntaxError
  | Some JNull => Ok zero_message
  | Some (JObject ms) =>
      match decode_members ms zero_message None with
      | (m, None) => Ok m
      | (_, Some e) => Err e
      end
  | Some _ => Err (UnmarshalTypeError "")
  end.

(** ** [json.Marshal] of a [WebSocketMessage] *)

Definition hex_digit (n : N) : ascii :=
  if (n <? 10)%N then chr (48 + n) else chr (87 + n).

(** [\u00XX] for the byte [c]. *)
Definition u00 (c : ascii) : string :=
  "\u00" +:+ String (hex_digit (byte c / 16)) (String (hex_digit (byte c mod 16)) "").

(** How [appendString] (with HTML escaping on) writes one ASCII byte: the
    quote and the backslash get a backslash; control characters and [<],
    [>], [&] are written as escapes.  Backspace and form feed have their
    short escapes, as from Go 1.22 on; earlier releases write the six-byte
    escapes of U+0008 and U+000C, which [unquote] reads as the same bytes. *)
Definition escape_ascii (c : ascii) : string :=
  if Ascii.eqb c DQ then String "\"%char (String DQ EmptyString)
  else match c with
       | "\"%char => "\\"
       | "008"%char => "\b"
       | "012"%char => "\f"
       | "010"%char => "\n"
       | "013"%char => "\r"
       | "009"%char => "\t"
       | "<"%char | ">"%char | "&"%char => u00 c
       | _ => if (byte c <? 0x20)%N then u00 c else String c EmptyString
       end.

(** How it writes one well-formed multi-byte sequence: U+2028 and U+2029 as
    escapes, any other as it is. *)
Definition escape_seq (seq : string) : string :=
  if String.eqb seq (utf8_encode 0x2028) then "\u2028"
  else if String.eqb seq (utf8_encode 0x2029) then "\u2029"
  else seq.

(** The body of a string literal ([appendString]); ill-formed UTF-8 becomes
    the escape of U+FFFD. *)
Fixpoint escape_from (fuel : nat) (s : string) : string :=
  match fuel with
  | O => EmptyString
  | S fuel =>
      match s with
      | EmptyString => EmptyString
      | String c rest =>
          if (byte c <? 0x80)%N then escape_ascii c +:+ escape_from fuel rest
          else
            match utf8_prefix s with
            | Some (seq, after) => escape_seq seq +:+ escape_from fuel after
            | None => "\ufffd" +:+ escape_from fuel rest
            end
      end
  end.

Definition quote (s : string) : string :=
  String DQ (escape_from (String.length s) s +:+ String DQ EmptyString).

(** The members [Marshal] writes, each a field name and the text of its
    value.  A field tagged [omitempty] gives no member when it is empty or
    zero. *)
Definition string_member (f : field) (s : string) : list (string * string) :=
  if String.eqb s "" then [] else [(field_name f, quote s)].

Definition float_member {F : Float64} (f : field) (x : float64)
    : option (list (string * string)) :=
  if float64_is_zero x then Some []
  else t ← FormatFloat x; Some [(field_name f, t)].

(** The members between the braces: ["name":value], with a comma between
    two members. *)
Fixpoint members_text (ms : list (string * string)) : string :=
  match ms with
  | [] => ""
  | (k, v) :: rest =>
      quote k +:+ ":" +:+ v +:+
      match rest with
      | [] => ""
      | _ => "," +:+ members_text rest
      end
  end.

(** [json.Marshal(msg)]: the fields in the order of the struct. *)
Definition Marshal {F : Float64} (m : WebSocketMessage) : option string :=
  position ← float_member FPosition (Msg.Position m);
  volume ← float_member FVolume (Msg.Volume m);
  Some ("{" +:+
        members_text
          ([(field_name FType, quote (Msg.Type_ m))]
           ++ string_member FUserID (Msg.UserID m)
           ++ string_member FSongID (Msg.SongID m)
           ++ position ++ volume
           ++ [(field_name FTimestamp, FormatInt (Msg.Timestamp m))])
        +:+ "}").

(** ** The codec of [readPump] *)

(** [decode]: [json.Unmarshal] and "Add timestamp if not present"; [now] is
    [time.Now().Unix()]. *)
Definition decode {F : Float64} (now : Z) (message : string) : result WebSocketMessage :=
  match Unmarshal message with
  | Err e => Err e
  | Ok msg => Ok (if (Msg.Timestamp msg =? 0)%Z then set_Timestamp msg now else msg)
  end.

(** [encode]: [broadcastMsg, _ := json.Marshal(msg)]; the error is dropped,
    which leaves [broadcastMsg] empty. *)
Definition encode {F : Float64} (msg : WebSocketMessage) : string :=
  default "" (Marshal msg).

(** One round of the loop of [readPump] on the frame [message]: what is sent
    on [hub.Broadcast], [None] when the frame is dropped ([continue]). *)
Definition readPump_frame {F : Float64} (now : Z) (message : string) : option HubEvent :=
  match decode now message with
  | Err _ => None
  | Ok msg => Some (RecvBroadcast (encode msg))
  end.

(** [SendPlaySync] and [SendPauseSync]: what they send on [hub.Broadcast]. *)
Definition SendPlaySync {F : Float64} (now : Z) (userID songID : string)
    (position : float64) : HubEvent :=
  RecvBroadcast (encode (Msg.mk PlayMessage userID songID position float64_zero now)).

Definition SendPauseSync {F : Float64} (now : Z) (userID : string)
    (position : float64) : HubEvent :=
  RecvBroadcast (encode (Msg.mk PauseMessage userID "" position float64_zero now)).

(** ** What [json.Unmarshal] accepts, stated member by member *)

(** A value the field [f] can take: [null], or a value of the JSON type of
    the field that converts. *)
Definition value_ok {F : Float64} (f : field) (v : json) : bool :=
  match v, f with
  | JNull, _ => true
  | JString _, (FType | FUserID | FSongID) => true
  | JNumber lit, (FPosition | FVolume) =>
      match ParseFloat lit with Some _ => true | None => false end
  | JNumber lit, FTimestamp =>
      match ParseInt64 lit with Some _ => true | None => false end
  | _, _ => false
  end.

(** A member that names no field, or names one its value fits. *)
Definition member_ok {F : Float64} (kv : string * json) : bool :=
  match find_field kv.1 with
  | None => true
  | Some f => value_ok f kv.2
  end.

(** JSON text that is [null], or an object whose members are all fine. *)
Definition well_formed_payload {F : Float64} (raw : string) : bool :=
  match parse_json raw with
  | Some JNull => true
  | Some (JObject ms) => forallb member_ok ms
  | _ => false
  end.

(** The six kinds the specification enumerates. *)
Definition enumerated_kinds : list string :=
  ["play"; "pause"; "seek"; "volume-change"; "playlist-change"; "presence"].

(** No member of the object names the field [f]. *)
Definition field_absent (f : field) (ms : list (string * json)) : Prop :=
  ∀ key v, (key, v) ∈ ms → find_field key ≠ Some f.

(** ** Well-formed UTF-8

    A sequence [seq] is one well-formed multi-byte sequence when it begins
    with a byte outside ASCII and [utf8_prefix] returns it whole, whatever
    follows it. *)
Definition is_seq (seq : string) : Prop :=
  (∃ c r, seq = String c r ∧ (0x80 ≤ byte c)%N) ∧
  ∀ t, utf8_prefix (seq +:+ t) = Some (seq, t).

Inductive valid_utf8 : string → Prop :=
| valid_nil : valid_utf8 ""
| valid_ascii c s : (byte c < 0x80)%N → valid_utf8 s → valid_utf8 (String c s)
| valid_seq seq s : is_seq seq → valid_utf8 s → valid_utf8 (seq +:+ s).

(** ** Number literals, [int64] values and what [Marshal] writes *)

Definition is_number_literal (t : string) : bool :=
  match lex_number t with
  | Some (_, EmptyString) => true
  | _ => false
  end.

(** A character that follows a member value in an object. *)
Definition delimiter (d : ascii) : Prop := d = ","%char ∨ d = "}"%char.

(** The range of [int64]. *)
Definition in_int64 (z : Z) : Prop := (- 2 ^ 63 ≤ z ≤ 2 ^ 63 - 1)%Z.

(** The text [v] of a member value is read as the JSON value [j]. *)
Definition reads (v : string) (j : json) : Prop :=
  ∀ fuel depth d u, delimiter d →
    skip_space (v +:+ String d u) = v +:+ String d u ∧
    parse_value (S fuel) depth (v +:+ String d u) = Some (j, String d u).

(** What [decode] produces: strings of well-formed UTF-8 and a timestamp
    in the range of [int64]. *)
Definition msg_valid {F : Float64} (m : WebSocketMessage) : Prop :=
  valid_utf8 (Msg.Type_ m) ∧ valid_utf8 (Msg.UserID m) ∧
  valid_utf8 (Msg.SongID m) ∧ in_int64 (Msg.Timestamp m).

Definition string_value_valid (kv : string * json) : Prop :=
  ∀ str, kv.2 = JString str → valid_utf8 str.

(** A [float64] that [Marshal] writes as a number literal which
    [Unmarshal] reads back as the same value; zero is not written.  Go's
    negative zero is zero for [omitempty] and for [==], so it is left out
    and comes back as zero: equal to what was written for [==], and outside
    this predicate, which asks for the same value. *)
Definition float_round_trips {F : Float64} (x : float64) : Prop :=
  if float64_is_zero x then x = float64_zero
  else ∃ t, FormatFloat x = Some t ∧ is_number_literal t = true ∧
            ParseFloat t = Some x.

(** ** The program as a transition system

    The steps of the whole program that touch the hub or a [Send] channel:
    a new connection served by [ServeWebSocket]; [Run] receiving from
    [h.Unregister] (sent by the deferred function of [readPump], for any
    client, any number of times) or from [h.Broadcast] (sent by [readPump],
    [SendPlaySync] or [SendPauseSync], any bytes); a receive of
    [writePump]. *)
Inductive sys_step (st : State) : State → Prop :=
| step_ServeWebSocket client user_id st' :
    ServeWebSocket client user_id st = Some st' → sys_step st st'
| step_Unregister client st' :
    Run_step st (RecvUnregister client) st' → sys_step st st'
| step_Broadcast message st' :
    Run_step st (RecvBroadcast message) st' → sys_step st st'
| step_writePump client message st' :
    writePump_recv client st = Some (message, st') → sys_step st st'.

Definition reachable (st : State) : Prop := rtc sys_step init st.

(** ** Predicates on states *)

Definition registered (st : State) (client : ClientPtr) : Prop :=
  is_Some (Clients (hub st) !! client).

(** The client object exists and its [Send] channel has not been closed. *)
Definition open_at (st : State) (client : ClientPtr) : bool :=
  match heap st !! client with
  | Some c => negb (Chan.closed (Send c))
  | None => false
  end.

(** Every registered client has an open [Send] channel. *)
Definition hub_inv (st : State) : Prop :=
  ∀ client, registered st client → open_at st client = true.

(** The same, as a check that runs on a given state. *)
Definition hub_invb (st : State) : bool :=
  forallb (open_at st) (elements (dom (Clients (hub st)))).

(** Every client object made by [ServeWebSocket] keeps the capacity 256,
    and no queue ever holds more than its capacity. *)
Definition bounded_queues (st : State) : Prop :=
  ∀ client c, heap st !! client = Some c →
    Chan.cap (Send c) = 256%nat ∧ (List.length (Chan.buf (Send c)) ≤ 256)%nat.

(** The same, as a check that runs on a given state. *)
Definition bounded_queuesb (st : State) : bool :=
  forallb (λ kc, (Chan.cap (Send kc.2) =? 256)%nat
                 && (List.length (Chan.buf (Send kc.2)) <=? 256)%nat)
          (map_to_list (heap st)).

(** The registry only ever stores [true]. *)
Definition all_true (st : State) : Prop :=
  ∀ client b, Clients (hub st) !! client = Some b → b = true.

(** What the loop body of the broadcast case does to one client object. *)
Definition after_send (message : string) (c : Client) : Client :=
  with_Send c (Chan.mk (Chan.buf (Send c) ++ [message]) (Chan.cap (Send c)) false).

Definition after_close (c : Client) : Client :=
  with_Send c (Chan.mk (Chan.buf (Send c)) (Chan.cap (Send c)) true).

(** The message was appended to the queue of every registered client whose
    queue had room, and those clients are still registered. *)
Definition fanned_out (message : string) (st st' : State) : Prop :=
  ∀ client c, registered st client → heap st !! client = Some c →
    Chan.full (Send c) = false →
    registered st' client ∧ heap st' !! client = Some (after_send message c).

(** The state in which [client] is not, or no longer, registered. *)
Definition without (client : ClientPtr) (st : State) : State :=
  mkState (heap st) (mkHub (delete client (Clients (hub st)))).

(** ** Sample data

    A [Float64] to run the definitions on: a number is kept as the text of
    its literal, without rounding.  The properties below are proved for
    every [Float64]; this one only instantiates them. *)
Definition literal_floats : Float64 := {|
  float64 := string;
  float64_zero := "0";
  float64_is_zero := λ s, String.eqb s "0";
  ParseFloat := λ lit, Some lit;
  FormatFloat := λ f, Some f
|}.

(** [s] between double quotes, for writing JSON text. *)
Definition quoted (s : string) : string := String DQ (s +:+ String DQ "").

(** Two connections served one after the other: P at address 1, Q at
    address 2, both registered with empty queues. *)
Definition connect (client : ClientPtr) (user_id : string) (st : State) : State :=
  default st (ServeWebSocket client user_id st).

Definition room_PQ : State := connect 2 "Q" (connect 1 "P" init).

(** The same room after 256 broadcasts that P's [writePump] did not drain
    and Q's did: P's queue is full. *)
Definition room_P_full : State :=
  mkState
    (<[1%positive := mkClient "" (Chan.mk (replicate 256 "m") 256 false) "P"]> (heap room_PQ))
    (hub room_PQ).

(** The frame [{"type":"play","song_id":"42","timestamp":1000}]. *)
Definition play_frame : string :=
  "{" +:+ quoted "type" +:+ ":" +:+ quoted "play" +:+ ","
      +:+ quoted "song_id" +:+ ":" +:+ quoted "42" +:+ ","
      +:+ quoted "timestamp" +:+ ":1000}".

(** The frame [{"type":"play","song_id":"42","timestamp":970}]. *)
Definition stale_frame : string :=
  "{" +:+ quoted "type" +:+ ":" +:+ quoted "play" +:+ ","
      +:+ quoted "song_id" +:+ ":" +:+ quoted "42" +:+ ","
      +:+ quoted "timestamp" +:+ ":970}".

(** What [play_frame] and [stale_frame] decode to. *)
Definition play_msg : @Msg.t literal_floats :=
  @Msg.mk literal_floats "play" "" "42" "0" "0" 1000.

Definition stale_msg : @Msg.t literal_floats :=
  @Msg.mk literal_floats "play" "" "42" "0" "0" 970.

(** The frame [{"type":"seek","position":12.5}], and what it decodes to at
    time 1000. *)
Definition seek_frame : string :=
  "{" +:+ quoted "type" +:+ ":" +:+ quoted "seek" +:+ ","
      +:+ quoted "position" +:+ ":12.5}".

Definition seek_msg : @Msg.t literal_floats :=
  @Msg.mk literal_floats "seek" "" "" "12.5" "0" 1000.

(** The frame [{"type":"bogus"}]: a kind that is none of the enumerated
    ones. *)
Definition bogus_frame : string :=
  "{" +:+ quoted "type" +:+ ":" +:+ quoted "bogus" +:+ "}".

(** The age of a message when the hub handles it at time [hub_now]. *)
Definition age {F : Float64} (hub_now : Z) (msg : WebSocketMessage) : Z :=
  hub_now - Msg.Timestamp msg.

(** ** The loops: [Hub.Run], [readPump] and [writePump] *)

(** [Hub.Run]: [for { select { ... } }], the iterations on the events
    [events], one after the other, each range in an order of its own. *)
Inductive Run_steps : State → list HubEvent → State → Prop :=
| Run_steps_nil st : Run_steps st [] st
| Run_steps_cons st ev st1 events st' :
    Run_step st ev st1 → Run_steps st1 events st' →
    Run_steps st (ev :: events) st'.

(** [readPump]: the loop over the frames [c.Socket.ReadMessage] returns
    until it returns an error, each with the clock reading at that round;
    the result is what is sent to the hub: a broadcast for each frame that
    decodes, and, from the deferred function, [hub.Unregister <- c]. *)
Fixpoint readPump {F : Float64} (c : ClientPtr) (frames : list (Z * string))
    : list HubEvent :=
  match frames with
  | [] => [RecvUnregister c]
  | (now, message) :: frames =>
      match readPump_frame now message with
      | Some ev => ev :: readPump c frames
      | None => readPump c frames
      end
  end.

(** What one frame, read at the clock reading beside it, makes [readPump]
    send on [hub.Broadcast]: the encoding of the message it decodes to, and
    nothing when it does not decode. *)
Definition forwarded {F : Float64} (frame : Z * string) : option string :=
  match decode frame.1 frame.2 with
  | Ok msg => Some (encode msg)
  | Err _ => None
  end.

(** What [writePump] writes to the socket. *)
Inductive frame :=
| TextMessage (data : string)
| CloseMessage.

(** How the socket takes the next text message: written, or an error from
    [NextWriter], or an error from the [Close] of the writer. *)
Inductive write_outcome := WriteOk | NextWriterErr | WriterCloseErr.

(** The socket is scripted by the outcomes of its next writes; a socket whose
    script has run out takes every message. *)
Definition next_write (socket : list write_outcome)
    : write_outcome * list write_outcome :=
  match socket with
  | [] => (WriteOk, [])
  | o :: socket => (o, socket)
  end.

(** How a run of [writePump] ends: it returned, or it waits in the receive
    on [c.Send]. *)
Inductive pump_end := Returned | Waiting.

(** [writePump]: the loop, on the channel [c.Send].  The result lists the
    frames whose write went through (a message the socket failed on is not
    among them), the channel as the loop leaves it, and how the loop ends
    ([None]: out of fuel). *)
Fixpoint writePump_loop (fuel : nat) (socket : list write_outcome)
    (ch : Chan.chan) : list frame * Chan.chan * option pump_end :=
  match fuel with
  | O => ([], ch, None)
  | S fuel =>
      match Chan.recv ch with
      | Chan.Blocked => ([], ch, Some Waiting)
      | Chan.Drained => ([CloseMessage], ch, Some Returned)
      | Chan.Received message ch' =>
          match next_write socket with
          | (WriteOk, socket') =>
              let '(out, ch'', e) := writePump_loop fuel socket' ch' in
              (TextMessage message :: out, ch'', e)
          | (_, _) => ([], ch', Some Returned)
          end
      end
  end.

(** Each round takes one message, so one round more than there are pending
    messages is enough. *)
Definition writePump (socket : list write_outcome) (ch : Chan.chan)
    : list frame * Chan.chan * option pump_end :=
  writePump_loop (S (List.length (Chan.buf ch))) socket ch.

(** How many more messages the queue of [c] takes. *)
Definition room (c : Client) : nat :=
  (Chan.cap (Send c) - List.length (Chan.buf (Send c)))%nat.

(** The client [c] after the broadcasts [msgs] with no receive in between:
    its queue took what it had room for, and was closed by the first
    message it had no room for. *)
Definition after_broadcasts (msgs : list string) (c : Client) : Client :=
  with_Send c (Chan.mk (Chan.buf (Send c) ++ take (room c) msgs)
                       (Chan.cap (Send c))
                       (bool_decide (room c < List.length msgs)%nat)).

(** The payloads of the broadcasts among the events. *)
Definition broadcasts (events : list HubEvent) : list string :=
  omap (λ ev, match ev with RecvBroadcast message => Some message | _ => None end) events.

(** No event is a registration: what [readPump], [SendPlaySync] and
    [SendPauseSync] send. *)
Definition no_Register (events : list HubEvent) : Prop :=
  Forall (λ ev, ∀ client, ev ≠ RecvRegister client) events.

(** The three ways a run of [writePump] ends, on a queue that held
    [sent ++ lost ++ rest]: it waits for more, it has written the close
    message, or the socket failed on the message [lost]. *)
Definition pump_ends (socket : list write_outcome) (ch : Chan.chan)
    (sent lost rest : list string)
    (result : list frame * Chan.chan * option pump_end) : Prop :=
  (Chan.closed ch = false ∧ lost = [] ∧ rest = [] ∧
   result = (TextMessage <$> sent, Chan.mk [] (Chan.cap ch) false, Some Waiting))
  ∨ (Chan.closed ch = true ∧ lost = [] ∧ rest = [] ∧
     result = (((TextMessage <$> sent) ++ [CloseMessage])%list,
               Chan.mk [] (Chan.cap ch) true, Some Returned))
  ∨ (∃ message o, lost = [message] ∧
       socket !! List.length sent = Some o ∧ o ≠ WriteOk ∧
       result = (TextMessage <$> sent,
                 Chan.mk rest (Chan.cap ch) (Chan.closed ch), Some Returned)).


(** ** What the members of a payload give a field *)

(** The member [kv] names the field [f]. *)
Definition names (f : field) (kv : string * json) : bool :=
  match find_field kv.1 with
  | Some f' => String.eqb (field_name f') (field_name f)
  | None => false
  end.

Definition is_null (v : json) : bool :=
  match v with JNull => true | _ => false end.

(** The value of the last member that names [f] and is not [null]. *)
Definition last_value (f : field) (ms : list (string * json)) : option json :=
  snd <$> last (List.filter (λ kv, names f kv && negb (is_null kv.2)) ms).

Definition string_or (d : string) (v : option json) : string :=
  match v with Some (JString s) => s | _ => d end.

Definition float_or {F : Float64} (d : float64) (v : option json) : float64 :=
  match v with Some (JNumber lit) => default d (ParseFloat lit) | _ => d end.

Definition int_or (d : Z) (v : option json) : Z :=
  match v with Some (JNumber lit) => default d (ParseInt64 lit) | _ => d end.

(** [ServeWebSocket] leaves [Client.ID] unset, and nothing sets it later. *)
Definition ID_unset (st : State) : Prop :=
  ∀ client c, heap st !! client = Some c → ID c = "".

(** ** More sample data *)

(** [room_PQ] after P was unregistered. *)
Definition room_Q : State := default room_PQ (Run_Unregister 1 room_PQ).

(** The frame [{"type":"play","TYPE":"pause"}], which names the kind
    twice. *)
Definition twice_frame : string :=
  "{" +:+ quoted "type" +:+ ":" +:+ quoted "play" +:+ ","
      +:+ quoted "TYPE" +:+ ":" +:+ quoted "pause" +:+ "}".

(** What [twice_frame] parses to, and what it decodes to at time 1000. *)
Definition twice_members : list (string * json) :=
  [("type", JString "play"); ("TYPE", JString "pause")].

Definition twice_msg : @Msg.t literal_floats :=
  @Msg.mk literal_floats "pause" "" "" "0" "0" 1000.

(** The frames of a connection: one that decodes, one that does not. *)
Definition session_frames : list (Z * string) :=
  [(1000%Z, play_frame); (1001%Z, "junk")].

(** * The file server of the basic player

    [listSongsHandler] and [streamSongHandler] of the player that serves
    the directory [songs] over [net/http], with the functions of
    [strings] and [path/filepath] they call (on a system whose path
    separator is the slash). *)

(** ** [strings] *)

Fixpoint HasPrefix (s prefix : string) {struct prefix} : bool :=
  match prefix, s with
  | EmptyString, _ => true
  | String p prefix, String c s => Ascii.eqb c p && HasPrefix s prefix
  | String _ _, EmptyString => false
  end.

(** [s[n:]] *)
Fixpoint string_drop (n : nat) (s : string) : string :=
  match n, s with
  | O, _ => s
  | S n, String _ s => string_drop n s
  | S _, EmptyString => EmptyString
  end.

(** [s[:n]] *)
Fixpoint string_take (n : nat) (s : string) : string :=
  match n, s with
  | O, _ => EmptyString
  | S n, String c s => String c (string_take n s)
  | S _, EmptyString => EmptyString
  end.

Definition TrimPrefix (s prefix : string) : string :=
  if HasPrefix s prefix then string_drop (String.length prefix) s else s.

Definition HasSuffix (s suffix : string) : bool :=
  (String.length suffix <=? String.length s)%nat
  && String.eqb (string_drop (String.length s - String.length suffix) s) suffix.

Definition TrimSuffix (s suffix : string) : string :=
  if HasSuffix s suffix
  then string_take (String.length s - String.length suffix) s
  else s.

(** [strings.Contains(s, substr)]: [substr] begins at some index of [s]. *)
Fixpoint Contains (s substr : string) : bool :=
  HasPrefix s substr
  || match s with
     | EmptyString => false
     | String _ s => Contains s substr
     end.

Fixpoint is_ascii (s : string) : bool :=
  match s with
  | EmptyString => true
  | String c s => (byte c <? 0x80)%N && is_ascii s
  end.

Fixpoint lower_ascii (s : string) : string :=
  match s with
  | EmptyString => EmptyString
  | String c s => String (lower c) (lower_ascii s)
  end.

(** ** [path/filepath] *)

Definition IsPathSeparator (c : ascii) : bool := Ascii.eqb c "/"%char.

(** [filepath.Ext]: the suffix of the path that begins at the last dot of
    its last element; empty when that element has no dot.  [ext] is the
    answer for the part of the path already behind: [None] before the
    first separator or dot is met from the right. *)
Fixpoint Ext_from (path : string) : option string :=
  match path with
  | EmptyString => None
  | String c rest =>
      match Ext_from rest with
      | Some ext => Some ext
      | None =>
          if IsPathSeparator c then Some EmptyString
          else if Ascii.eqb c "."%char then Some path
          else None
      end
  end.

Definition Ext (path : string) : string := default "" (Ext_from path).

(** One element of a path: the bytes up to the next separator, and the rest
    from that separator on. *)
Fixpoint span_element (s : string) : string * string :=
  match s with
  | EmptyString => (EmptyString, EmptyString)
  | String c rest =>
      if IsPathSeparator c then (EmptyString, s)
      else let '(elem, rest') := span_element rest in (String c elem, rest')
  end.

(** The step back of [Clean] on a [..] element: [out.w--], then
    [for out.w > dotdot && !IsPathSeparator(out.index(out.w)) { out.w-- }];
    [rout] is the output written so far, last byte first, and [w] its
    length. *)
Fixpoint backtrack_loop (dotdot w : nat) (removed : ascii) (rout : list ascii)
    : list ascii :=
  if (dotdot <? w)%nat && negb (IsPathSeparator removed) then
    match rout, w with
    | c :: rout, S w => backtrack_loop dotdot w c rout
    | _, _ => rout
    end
  else rout.

Definition backtrack (dotdot : nat) (rout : list ascii) : list ascii :=
  match rout with
  | c :: rout => backtrack_loop dotdot (List.length rout) c rout
  | [] => []
  end.

Fixpoint push (s : string) (rout : list ascii) : list ascii :=
  match s with
  | EmptyString => rout
  | String c s => push s (c :: rout)
  end.

(** The main loop of [filepath.Clean]: [rest] is [path[r:]], [rout] the
    output buffer (last byte first; its length is [out.w]). *)
Fixpoint Clean_loop (fuel : nat) (rooted : bool) (rest : string)
    (rout : list ascii) (dotdot : nat) : list ascii :=
  match fuel with
  | O => rout
  | S fuel =>
      match rest with
      | EmptyString => rout
      | String c0 r0 =>
          let end_or_sep (s : string) :=
            match s with
            | EmptyString => true
            | String c _ => IsPathSeparator c
            end in
          if IsPathSeparator c0 then
            (* empty path element *)
            Clean_loop fuel rooted r0 rout dotdot
          else if Ascii.eqb c0 "."%char && end_or_sep r0 then
            (* . element *)
            Clean_loop fuel rooted r0 rout dotdot
          else if Ascii.eqb c0 "."%char
                  && match r0 with
                     | String c1 r1 => Ascii.eqb c1 "."%char && end_or_sep r1
                     | EmptyString => false
                     end then
            (* .. element: remove to last separator *)
            let r2 := string_drop 1 r0 in
            if (dotdot <? List.length rout)%nat then
              Clean_loop fuel rooted r2 (backtrack dotdot rout) dotdot
            else if negb rooted then
              let rout1 :=
                if (0 <? List.length rout)%nat then "/"%char :: rout else rout in
              let rout2 := "."%char :: "."%char :: rout1 in
              Clean_loop fuel rooted r2 rout2 (List.length rout2)
            else Clean_loop fuel rooted r2 rout dotdot
          else
            (* real path element: add slash if needed, copy element *)
            let rout1 :=
              if (rooted && negb (List.length rout =? 1)%nat)
                 || (negb rooted && negb (List.length rout =? 0)%nat)
              then "/"%char :: rout else rout in
            let '(elem, rest') := span_element rest in
            Clean_loop fuel rooted rest' (push elem rout1) dotdot
      end
  end.

Definition string_of_rev (rout : list ascii) : string :=
  String.string_of_list_ascii (rev rout).

(** [filepath.Clean] *)
Definition Clean (path : string) : string :=
  match path with
  | EmptyString => "."
  | String c0 r0 =>
      let rooted := IsPathSeparator c0 in
      let rout :=
        if rooted then Clean_loop (String.length path) rooted r0 ["/"%char] 1
        else Clean_loop (String.length path) rooted path [] 0 in
      match rout with
      | [] => "."
      | _ => string_of_rev rout
      end
  end.

(** [filepath.Join(a, b)]: the elements from the first that is not empty
    on, joined by separators and cleaned. *)
Definition Join (a b : string) : string :=
  if negb (String.eqb a "") then Clean (a +:+ "/" +:+ b)
  else if negb (String.eqb b "") then Clean b
  else "".

(** [strings.Count(s, "/")] *)
Fixpoint count_separators (s : string) : nat :=
  match s with
  | EmptyString => O
  | String c s => (if IsPathSeparator c then 1 else 0) + count_separators s
  end.

Fixpoint string_repeat (s : string) (n : nat) : string :=
  match n with
  | O => EmptyString
  | S n => s +:+ string_repeat s n
  end.

(** The loop of [filepath.Rel] that positions [base[b0:bi]] and
    [targ[t0:ti]] at the first differing elements: [base] is [base[b0:]]
    and [targ] is [targ[t0:]]; the result is [base[b0:bi]], [base[b0:]]
    and [targ[t0:]] as the loop leaves them. *)
Fixpoint Rel_loop (fuel : nat) (base targ : string) : string * string * string :=
  match fuel with
  | O => (EmptyString, base, targ)
  | S fuel =>
      match base, targ with
      | String _ _, String _ _ =>
          let '(base_elem, base_rest) := span_element base in
          let '(targ_elem, targ_rest) := span_element targ in
          if negb (String.eqb targ_elem base_elem) then (base_elem, base, targ)
          else Rel_loop fuel (string_drop 1 base_rest) (string_drop 1 targ_rest)
      | _, _ => (EmptyString, base, targ)
      end
  end.

(** [filepath.Rel]; [None] is the error "Rel: can't make ... relative
    to ...". *)
Definition Rel (basepath targpath : string) : option string :=
  let base := Clean basepath in
  let targ := Clean targpath in
  if String.eqb targ base then Some "."
  else
    let base := if String.eqb base "." then EmptyString else base in
    let baseSlashed := HasPrefix base "/" in
    let targSlashed := HasPrefix targ "/" in
    if negb (Bool.eqb baseSlashed targSlashed) then None
    else
      let '(elem, base0, targ0) := Rel_loop (S (String.length base)) base targ in
      if String.eqb elem ".." then None
      else if negb (String.eqb base0 "") then
        (* Base elements left. Must go up before going down. *)
        Some (".." +:+ string_repeat "/.." (count_separators base0)
                   +:+ (if negb (String.eqb targ0 "") then "/" +:+ targ0 else ""))
      else Some targ0.

(** ** [streamSongHandler] *)

(** What [os.Stat] reports of a path: no error, an error for which
    [os.IsNotExist] holds, another error. *)
Inductive stat_result := StatOk | StatNotExist | StatError.

(** How the handler ends: with [http.Error(w, error, code)], or with
    [http.ServeFile(w, r, name)] after it has set the header
    [Content-Type]. *)
Inductive outcome :=
| http_Error (error : string) (code : nat)
| ServeFile (content_type : string) (name : string).

(** [type Song struct { Name; File }] *)
Record Song := mkSong { Name : string; File : string }.

(** One call of the function [filepath.WalkDir] is given: an entry, which
    is a directory or not, or the error met at a path. *)
Inductive visit :=
| Entry (path : string) (is_dir : bool)
| Failed (path : string) (err : string).

(** How [listSongsHandler] ends: with [http.Error(w, error, code)], or
    with the body [json.NewEncoder(w).Encode(songs)] writes. *)
Inductive listing :=
| list_Error (error : string) (code : nat)
| list_Body (body : string).

(** [Encode] of one song and of the slice: [null] for the nil slice, and a
    newline at the end. *)
Definition Song_text (song : Song) : string :=
  "{" +:+ members_text [("name", quote (Name song)); ("file", quote (File song))] +:+ "}".

Fixpoint Songs_text (songs : list Song) : string :=
  match songs with
  | [] => ""
  | [song] => Song_text song
  | song :: songs => Song_text song +:+ "," +:+ Songs_text songs
  end.

Definition Encode (songs : list Song) : string :=
  match songs with
  | [] => "null"
  | _ => "[" +:+ Songs_text songs +:+ "]"
  end +:+ String "010"%char "".

(** The [switch ext] of the handler. *)
Definition content_type_of (ext : string) : string :=
  if String.eqb ext ".mp3" then "audio/mpeg"
  else if String.eqb ext ".wav" then "audio/wav"
  else if String.eqb ext ".ogg" then "audio/ogg"
  else if String.eqb ext ".flac" then "audio/flac"
  else "application/octet-stream".

(** The test of [listSongsHandler]: "Only include audio files". *)
Definition is_audio_ext (ext : string) : bool :=
  String.eqb ext ".mp3" || String.eqb ext ".wav"
  || String.eqb ext ".ogg" || String.eqb ext ".flac".

Section FileServer.

(** [strings.Map(unicode.ToLower, s)], which [strings.ToLower] returns for
    a string with a byte outside ASCII. *)
Variable Map_ToLower : string → string.

(** [strings.ToLower]: a string of ASCII bytes has its upper-case letters
    replaced. *)
Definition ToLower (s : string) : string :=
  if is_ascii s then lower_ascii s else Map_ToLower s.

(** [streamSongHandler], for the request path [url_path] ([r.URL.Path]) and
    the file system as [os.Stat] sees it. *)
Definition streamSongHandler (stat : string → stat_result) (url_path : string)
    : outcome :=
  let filePath := TrimPrefix url_path "/song/" in
  if Contains filePath ".." then http_Error "Invalid file path" 400
  else
    let fullPath := Join "songs" filePath in
    match stat fullPath with
    | StatNotExist => http_Error "File not found" 404
    | _ => ServeFile (content_type_of (ToLower (Ext fullPath))) fullPath
    end.

(** The function [listSongsHandler] gives to [filepath.WalkDir], run on
    the visits of the walk in their order; [songs] is the slice so far.
    The walk ends at the first error. *)
Fixpoint walk_songs (visits : list visit) (songs : list Song) : string + list Song :=
  match visits with
  | [] => inr songs
  | Failed _ err :: _ => inl err
  | Entry path is_dir :: visits =>
      if is_dir then walk_songs visits songs
      else
        let ext := ToLower (Ext path) in
        if is_audio_ext ext then
          let relPath := default "" (Rel "songs" path) in
          walk_songs visits (songs ++ [mkSong (TrimSuffix relPath ext) relPath])
        else walk_songs visits songs
  end.

(** [listSongsHandler], for the visits of the walk of [songs]. *)
Definition listSongsHandler (visits : list visit) : listing :=
  match walk_songs visits [] with
  | inl err => list_Error err 500
  | inr songs => list_Body (Encode songs)
  end.

(** A visit that adds no song and does not end the walk: a directory, or
    a file whose extension is none of the four. *)
Definition skipped (v : visit) : Prop :=
  match v with
  | Entry path is_dir => is_dir = true ∨ is_audio_ext (ToLower (Ext path)) = false
  | Failed _ _ => False
  end.

End FileServer.

(** ** Paths, element by element *)

(** The elements of a path: the parts between its separators. *)
Fixpoint path_elements (path : string) : list string :=
  match path with
  | EmptyString => [EmptyString]
  | String c rest =>
      if IsPathSeparator c then EmptyString :: path_elements rest
      else match path_elements rest with
           | elem :: elems => String c elem :: elems
           | [] => [String c EmptyString]
           end
  end.

(** An element that names something: not empty and not the dot. *)
Definition is_name (elem : string) : bool :=
  negb (String.eqb elem "") && negb (String.eqb elem ".").

(** [dir/e1/.../en] *)
Fixpoint descend (dir : string) (elems : list string) : string :=
  match elems with
  | [] => dir
  | elem :: elems => descend (dir +:+ "/" +:+ elem) elems
  end.

(** The names pushed on the output buffer of [Clean], each after a
    separator. *)
Fixpoint push_names (elems : list string) (rout : list ascii) : list ascii :=
  match elems with
  | [] => rout
  | elem :: elems => push_names elems (push elem ("/"%char :: rout))
  end.

(** The separator [Clean] writes before a name: none at the start of the
    output, and none after the root. *)
Definition with_separator (rooted : bool) (rout : list ascii) : list ascii :=
  if (rooted && negb (List.length rout =? 1)%nat)
     || (negb rooted && negb (List.length rout =? 0)%nat)
  then "/"%char :: rout else rout.

(** Neither a separator nor a dot occurs in [s]. *)
Fixpoint plain (s : string) : bool :=
  match s with
  | EmptyString => true
  | String c s => negb (IsPathSeparator c) && negb (Ascii.eqb c "."%char) && plain s
  end.

(** A name below a directory: not empty, not the dot, and with neither a
    separator nor two dots in a row in it. *)
Definition is_safe_name (elem : string) : Prop :=
  is_name elem = true ∧ Contains elem "/" = false ∧ Contains elem ".." = false.

(** A relative path as [filepath.WalkDir] makes them: every element is a
    name, and none is [..]. *)
Definition is_clean_rel (rel : string) : Prop :=
  Forall (λ elem, is_name elem = true ∧ elem ≠ "..") (path_elements rel).

(** A visit of the walk of [songs]: a directory, an error, or a file at a
    path below [songs]. *)
Definition walked (v : visit) : Prop :=
  match v with
  | Entry path is_dir =>
      is_dir = true ∨ ∃ rel, path = "songs/" +:+ rel ∧ is_clean_rel rel
  | Failed _ _ => True
  end.

(** The JSON value of a song. *)
Definition Song_json (song : Song) : json :=
  JObject [("name", JString (Name song)); ("file", JString (File song))].

(* ===================================================================== *)
(** * Part II: properties                                                  *)
(* ===================================================================== *)

(** ** Channels *)

Lemma try_send_open message ch :
  Chan.closed ch = false →
  Chan.try_send message ch =
    if Chan.full ch then Chan.Default
    else Chan.Sent (Chan.mk (Chan.buf ch ++ [message]) (Chan.cap ch) false).
Proof. intros H. unfold Chan.try_send. by rewrite H. Qed.

Lemma close_open ch :
  Chan.closed ch = false →
  Chan.close ch = Some (Chan.mk (Chan.buf ch) (Chan.cap ch) true).
Proof. intros H. unfold Chan.close. by rewrite H. Qed.

Lemma close_closed ch : Chan.closed ch = true → Chan.close ch = None.
Proof. intros H. unfold Chan.close. by rewrite H. Qed.

(** ** The invariant, checked and stated *)

Lemma hub_invb_sound st : hub_invb st = true → hub_inv st.
Proof.
  unfold hub_invb, hub_inv, registered. intros H client Hc.
  rewrite forallb_forall in H. apply H.
  apply list_elem_of_In, elem_of_elements, elem_of_dom. exact Hc.
Qed.

Lemma open_at_Some st client :
  open_at st client = true →
  ∃ c, heap st !! client = Some c ∧ Chan.closed (Send c) = false.
Proof.
  unfold open_at. destruct (heap st !! client) as [c|]; [|done].
  intros H. exists c. split; [done|]. by destruct (Chan.closed (Send c)).
Qed.

Lemma range_order_NoDup m order : range_order m order → NoDup order.
Proof. unfold range_order. intros ->. apply NoDup_elements. Qed.

Lemma range_order_elem m order client :
  range_order m order → client ∈ order ↔ is_Some (m !! client).
Proof.
  unfold range_order. intros ->. rewrite elem_of_elements. apply elem_of_dom.
Qed.

Lemma default_order_range st : range_order (Clients (hub st)) (default_order st).
Proof. by unfold range_order, default_order. Qed.

(** ** The fan-out loop, client by client

    Over a duplicate-free order whose clients are registered with open
    channels the loop does not panic, leaves every client outside the order
    as it was, and treats each client of the order by its own queue alone:
    a full queue is closed and its client deleted, any other gets the
    message appended. *)
Lemma Run_Broadcast_loop_spec message order : ∀ st,
  NoDup order →
  (∀ client, client ∈ order → registered st client ∧ open_at st client = true) →
  ∃ st', Run_Broadcast_loop order message st = Some st' ∧
    (∀ client, client ∉ order →
       heap st' !! client = heap st !! client ∧
       Clients (hub st') !! client = Clients (hub st) !! client) ∧
    (∀ client, client ∈ order → ∃ c, heap st !! client = Some c ∧
       if Chan.full (Send c)
       then heap st' !! client = Some (after_close c) ∧
            Clients (hub st') !! client = None
       else heap st' !! client = Some (after_send message c) ∧
            Clients (hub st') !! client = Clients (hub st) !! client).
Proof.
  induction order as [|a rest IH]; intros st Hnd Hpre.
  - exists st. split; [done|]. split; [done|]. intros client Hc. by apply elem_of_nil in Hc.
  - apply NoDup_cons in Hnd as [Ha Hnd].
    destruct (Hpre a) as [[b Hreg] Hopen]; [left|].
    apply open_at_Some in Hopen as (c & Hheap & Hclosed).
    cbn [Run_Broadcast_loop]. rewrite Hreg, Hheap. cbn [mbind option_bind].
    rewrite (try_send_open _ _ Hclosed).
    destruct (Chan.full (Send c)) eqn:Hfull.
    + rewrite (close_open _ Hclosed). cbn [mbind option_bind].
      set (st1 := mkState _ _).
      destruct (IH st1 Hnd) as (st' & Hrun & Hout & Hin).
      { intros client Hc. assert (client ≠ a) by (intros ->; done).
        destruct (Hpre client) as [Hr Ho]; [by right|].
        unfold registered, open_at, st1 in *; cbn.
        rewrite lookup_delete_ne, lookup_insert_ne by done. done. }
      exists st'. split; [done|]. split.
      * intros client Hc. apply not_elem_of_cons in Hc as [Hne Hc].
        destruct (Hout client Hc) as [-> ->]. unfold st1; cbn.
        by rewrite lookup_delete_ne, lookup_insert_ne.
      * intros client Hc. apply elem_of_cons in Hc as [->|Hc].
        -- exists c. split; [done|]. rewrite Hfull.
           destruct (Hout a Ha) as [-> ->]. unfold st1; cbn.
           by rewrite lookup_delete_eq, lookup_insert_eq.
        -- assert (client ≠ a) by (intros ->; done).
           destruct (Hin client Hc) as (c' & Hc' & Hpost).
           unfold st1 in Hc', Hpost; cbn in Hc', Hpost.
           rewrite lookup_insert_ne in Hc' by done.
           rewrite lookup_delete_ne in Hpost by done.
           exists c'. done.
    + set (st1 := mkState _ _).
      destruct (IH st1 Hnd) as (st' & Hrun & Hout & Hin).
      { intros client Hc. assert (client ≠ a) by (intros ->; done).
        destruct (Hpre client) as [Hr Ho]; [by right|].
        unfold registered, open_at, st1 in *; cbn.
        rewrite lookup_insert_ne by done. done. }
      exists st'. split; [done|]. split.
      * intros client Hc. apply not_elem_of_cons in Hc as [Hne Hc].
        destruct (Hout client Hc) as [-> ->]. unfold st1; cbn.
        by rewrite lookup_insert_ne.
      * intros client Hc. apply elem_of_cons in Hc as [->|Hc].
        -- exists c. split; [done|]. rewrite Hfull.
           destruct (Hout a Ha) as [-> ->]. unfold st1; cbn.
           by rewrite lookup_insert_eq.
        -- assert (client ≠ a) by (intros ->; done).
           destruct (Hin client Hc) as (c' & Hc' & Hpost).
           unfold st1 in Hc', Hpost; cbn in Hc', Hpost.
           rewrite lookup_insert_ne in Hc' by done.
           exists c'. done.
Qed.

Lemma Run_Broadcast_spec st order message :
  hub_inv st →
  range_order (Clients (hub st)) order →
  ∃ st', Run_Broadcast_loop order message st = Some st' ∧
    (∀ client, ¬ registered st client →
       heap st' !! client = heap st !! client ∧
       Clients (hub st') !! client = None) ∧
    (∀ client c, registered st client → heap st !! client = Some c →
       if Chan.full (Send c)
       then heap st' !! client = Some (after_close c) ∧
            Clients (hub st') !! client = None
       else heap st' !! client = Some (after_send message c) ∧
            Clients (hub st') !! client = Clients (hub st) !! client).
Proof.
  intros Hinv Hord.
  destruct (Run_Broadcast_loop_spec message order st) as (st' & Hrun & Hout & Hin).
  { by eapply range_order_NoDup. }
  { intros client Hc. apply (range_order_elem _ _ _ Hord) in Hc. split; [done|]. by apply Hinv. }
  exists st'. split; [done|]. split.
  - intros client Hc.
    assert (client ∉ order) as Hno by (by rewrite (range_order_elem _ _ _ Hord)).
    destruct (Hout client Hno) as [-> ->]. split; [done|].
    unfold registered in Hc. by apply eq_None_not_Some.
  - intros client c Hc Hheap. apply (range_order_elem _ _ _ Hord) in Hc.
    destruct (Hin client Hc) as (c' & Hc' & Hpost). by simplify_eq.
Qed.

(** ** The invariant is kept by every step *)

Lemma hub_inv_Register st client st' :
  hub_inv st → open_at st client = true →
  Run_Register client st = Some st' → hub_inv st'.
Proof.
  intros Hinv Hopen [= <-] c Hc. unfold registered, open_at in *; cbn in *.
  destruct (decide (c = client)) as [->|Hne]; [done|].
  rewrite lookup_insert_ne in Hc by done. by apply Hinv.
Qed.

Lemma hub_inv_ServeWebSocket st client user_id st' :
  hub_inv st → ServeWebSocket client user_id st = Some st' → hub_inv st'.
Proof.
  unfold ServeWebSocket. intros Hinv H.
  destruct (heap st !! client) eqn:Hfresh; [done|].
  injection H as <-. intros c Hc. unfold registered, open_at in *; cbn in *.
  destruct (decide (c = client)) as [->|Hne].
  - by rewrite lookup_insert_eq.
  - rewrite lookup_insert_ne in Hc by done. rewrite lookup_insert_ne by done.
    by apply Hinv.
Qed.

Lemma Run_Unregister_present st client c :
  Clients (hub st) !! client = Some true ∨ registered st client →
  heap st !! client = Some c → Chan.closed (Send c) = false →
  Run_Unregister client st =
    Some (mkState (<[client := after_close c]> (heap st))
                  (mkHub (delete client (Clients (hub st))))).
Proof.
  intros Hreg Hheap Hopen. unfold Run_Unregister.
  assert (is_Some (Clients (hub st) !! client)) as [b ->] by (destruct Hreg; eauto).
  rewrite Hheap. cbn. by rewrite (close_open _ Hopen).
Qed.

Lemma Run_Unregister_absent st client :
  ¬ registered st client → Run_Unregister client st = Some st.
Proof.
  intros Hno. unfold Run_Unregister.
  destruct (Clients (hub st) !! client) eqn:E; [|done].
  destruct Hno. by eexists.
Qed.

Lemma hub_inv_Unregister st client st' :
  hub_inv st → Run_Unregister client st = Some st' → hub_inv st'.
Proof.
  intros Hinv H.
  destruct (decide (registered st client)) as [Hreg|Hno].
  - destruct (open_at_Some _ _ (Hinv _ Hreg)) as (c & Hheap & Hopen).
    rewrite (Run_Unregister_present st client c) in H by auto.
    injection H as <-. intros c' Hc'. unfold registered, open_at in *; cbn in *.
    destruct (decide (c' = client)) as [->|Hne].
    + rewrite lookup_delete_eq in Hc'. by destruct Hc'.
    + rewrite lookup_delete_ne in Hc' by done. rewrite lookup_insert_ne by done.
      by apply Hinv.
  - rewrite Run_Unregister_absent in H by done. by injection H as <-.
Qed.

Lemma hub_inv_Broadcast st order message st' :
  hub_inv st → range_order (Clients (hub st)) order →
  Run_Broadcast_loop order message st = Some st' → hub_inv st'.
Proof.
  intros Hinv Hord Hrun.
  destruct (Run_Broadcast_spec st order message Hinv Hord) as (st1 & Hrun1 & Hout & Hin).
  rewrite Hrun in Hrun1. injection Hrun1 as <-.
  intros client Hc.
  destruct (decide (registered st client)) as [Hreg|Hno].
  - destruct (open_at_Some _ _ (Hinv _ Hreg)) as (c & Hheap & Hopen).
    specialize (Hin client c Hreg Hheap).
    destruct (Chan.full (Send c)); destruct Hin as [Hh Hcl].
    + unfold registered in Hc. rewrite Hcl in Hc. by destruct Hc.
    + unfold open_at. by rewrite Hh.
  - destruct (Hout client Hno) as [_ Hcl].
    unfold registered in Hc. rewrite Hcl in Hc. by destruct Hc.
Qed.

Lemma hub_inv_writePump st client message st' :
  hub_inv st → writePump_recv client st = Some (message, st') → hub_inv st'.
Proof.
  unfold writePump_recv. intros Hinv H.
  destruct (heap st !! client) as [c|] eqn:Hheap; [|done]. cbn in H.
  unfold Chan.recv in H. destruct (Chan.buf (Send c)) as [|m rest] eqn:Hbuf.
  { by destruct (Chan.closed (Send c)). }
  injection H as <- <-. intros c' Hc'. unfold registered, open_at in *; cbn in *.
  specialize (Hinv c' Hc').
  destruct (decide (c' = client)) as [->|Hne].
  - rewrite lookup_insert_eq. cbn. unfold open_at in Hinv. by rewrite Hheap in Hinv.
  - by rewrite lookup_insert_ne.
Qed.

Lemma hub_inv_Run_step st ev st' :
  hub_inv st →
  (∀ client, ev = RecvRegister client → open_at st client = true) →
  Run_step st ev st' → hub_inv st'.
Proof.
  intros Hinv Hreg [order Hord Hrun]. destruct ev as [client|client|message]; cbn in Hrun.
  - eapply hub_inv_Register; eauto.
  - eapply hub_inv_Unregister; eauto.
  - eapply hub_inv_Broadcast; eauto.
Qed.

Lemma hub_inv_sys_step st st' : hub_inv st → sys_step st st' → hub_inv st'.
Proof.
  intros Hinv [client user_id st1 H|client st1 H|message st1 H|client message st1 H].
  - eapply hub_inv_ServeWebSocket; eauto.
  - eapply hub_inv_Run_step; eauto. intros ? [=].
  - eapply hub_inv_Run_step; eauto. intros ? [=].
  - eapply hub_inv_writePump; eauto.
Qed.

Lemma hub_inv_init : hub_inv init.
Proof. intros client [b Hb]. cbn in Hb. by rewrite lookup_empty in Hb. Qed.

Lemma reachable_hub_inv st : reachable st → hub_inv st.
Proof.
  unfold reachable. revert st.
  apply (rtc_ind_r (λ st, hub_inv st) init); [apply hub_inv_init|].
  intros y z _ Hstep Hy. by eapply hub_inv_sys_step.
Qed.

(** ** No panic, and when a queue is closed *)

Lemma Run_iteration_no_panic st order ev :
  hub_inv st → range_order (Clients (hub st)) order →
  is_Some (Run_iteration order ev st).
Proof.
  intros Hinv Hord. destruct ev as [client|client|message]; cbn.
  - by eexists.
  - destruct (decide (registered st client)) as [Hreg|Hno].
    + destruct (open_at_Some _ _ (Hinv _ Hreg)) as (c & Hheap & Hopen).
      rewrite (Run_Unregister_present st client c) by auto. by eexists.
    + rewrite Run_Unregister_absent by done. by eexists.
  - destruct (Run_Broadcast_spec st order message Hinv Hord) as (st' & -> & _).
    by eexists.
Qed.

(** A hub iteration that closes the queue of [client] also takes [client]
    out of the registry. *)
Lemma Run_iteration_closes st order ev st' client :
  hub_inv st → range_order (Clients (hub st)) order →
  Run_iteration order ev st = Some st' →
  open_at st client = true → open_at st' client = false →
  registered st client ∧ ¬ registered st' client.
Proof.
  intros Hinv Hord Hrun Hopen Hclosed. destruct ev as [c0|c0|message]; cbn in Hrun.
  - injection Hrun as <-. unfold open_at in *; cbn in *. congruence.
  - destruct (decide (registered st c0)) as [Hreg|Hno].
    + destruct (open_at_Some _ _ (Hinv _ Hreg)) as (c & Hheap & Hc).
      rewrite (Run_Unregister_present st c0 c) in Hrun by auto.
      injection Hrun as <-.
      destruct (decide (client = c0)) as [->|Hne].
      * split; [done|]. unfold registered; cbn. rewrite lookup_delete_eq. by intros [? ?].
      * unfold open_at in *; cbn in *. rewrite lookup_insert_ne in Hclosed by done.
        congruence.
    + rewrite Run_Unregister_absent in Hrun by done. injection Hrun as <-. congruence.
  - destruct (Run_Broadcast_spec st order message Hinv Hord) as (st1 & Hrun1 & Hout & Hin).
    rewrite Hrun in Hrun1. injection Hrun1 as <-.
    destruct (decide (registered st client)) as [Hreg|Hno].
    + split; [done|].
      destruct (open_at_Some _ _ Hopen) as (c & Hheap & Hc).
      specialize (Hin client c Hreg Hheap).
      destruct (Chan.full (Send c)); destruct Hin as [Hh Hcl].
      * unfold registered. rewrite Hcl. by intros [? ?].
      * unfold open_at in Hclosed. rewrite Hh in Hclosed. done.
    + destruct (Hout client Hno) as [Hh _]. unfold open_at in *.
      rewrite Hh in Hclosed. congruence.
Qed.

Lemma sys_step_closes st st' client :
  hub_inv st → sys_step st st' →
  open_at st client = true → open_at st' client = false →
  registered st client ∧ ¬ registered st' client.
Proof.
  intros Hinv Hstep Hopen Hclosed.
  destruct Hstep as [c0 user_id st1 H|c0 st1 [order Hord H]|message st1 [order Hord H]
                    |c0 message st1 H].
  - unfold ServeWebSocket in H. destruct (heap st !! c0) eqn:Hfresh; [done|].
    injection H as <-. unfold open_at in *; cbn in *.
    destruct (decide (client = c0)) as [->|Hne].
    + by rewrite Hfresh in Hopen.
    + rewrite lookup_insert_ne in Hclosed by done. congruence.
  - by eapply Run_iteration_closes.
  - by eapply Run_iteration_closes.
  - unfold writePump_recv in H.
    destruct (heap st !! c0) as [c|] eqn:Hheap; [|done]. cbn in H.
    unfold Chan.recv in H. destruct (Chan.buf (Send c)) as [|m rest] eqn:Hbuf.
    { by destruct (Chan.closed (Send c)). }
    injection H as <- <-. unfold open_at in *; cbn in *.
    destruct (decide (client = c0)) as [->|Hne].
    + rewrite lookup_insert_eq in Hclosed. cbn in Hclosed.
      rewrite Hheap in Hopen. congruence.
    + rewrite lookup_insert_ne in Hclosed by done. congruence.
Qed.

(** ** Queues stay within their capacity *)

Lemma bounded_queues_Broadcast_loop message order : ∀ st st',
  bounded_queues st →
  Run_Broadcast_loop order message st = Some st' → bounded_queues st'.
Proof.
  induction order as [|a rest IH]; intros st st' Hb Hrun; cbn in Hrun.
  { by injection Hrun as <-. }
  destruct (Clients (hub st) !! a); [|by eapply IH].
  destruct (heap st !! a) as [c|] eqn:Hheap; [|done]. cbn in Hrun.
  destruct (Hb a c Hheap) as [Hcap Hlen].
  unfold Chan.try_send, Chan.close, Chan.full in Hrun.
  destruct (Chan.closed (Send c)); [done|].
  destruct (Chan.cap (Send c) <=? List.length (Chan.buf (Send c)))%nat eqn:Hfull;
    cbn in Hrun; (eapply IH; [|exact Hrun]);
    intros client c' Hc'; cbn in Hc';
    (destruct (decide (client = a)) as [->|Hne];
     [rewrite lookup_insert_eq in Hc'; injection Hc' as <-; cbn
     |rewrite lookup_insert_ne in Hc' by done; by eapply Hb]).
  - done.
  - apply Nat.leb_gt in Hfull. rewrite length_app; cbn. split; [done|lia].
Qed.

Lemma bounded_queues_sys_step st st' :
  bounded_queues st → sys_step st st' → bounded_queues st'.
Proof.
  intros Hb Hstep.
  destruct Hstep as [c0 user_id st1 H|c0 st1 [order Hord H]|message st1 [order Hord H]
                    |c0 message st1 H].
  - unfold ServeWebSocket in H. destruct (heap st !! c0) eqn:Hfresh; [done|].
    injection H as <-. intros client c Hc; cbn in Hc.
    destruct (decide (client = c0)) as [->|Hne].
    + rewrite lookup_insert_eq in Hc. injection Hc as <-. cbn. split; [done|lia].
    + rewrite lookup_insert_ne in Hc by done. by eapply Hb.
  - cbn in H. unfold Run_Unregister in H.
    destruct (Clients (hub st) !! c0); [|by injection H as <-].
    destruct (heap st !! c0) as [c|] eqn:Hheap; [|done]. cbn in H.
    unfold Chan.close in H. destruct (Chan.closed (Send c)); [done|]. cbn in H.
    injection H as <-. intros client c' Hc'; cbn in Hc'.
    destruct (decide (client = c0)) as [->|Hne].
    + rewrite lookup_insert_eq in Hc'. injection Hc' as <-. cbn. by eapply Hb.
    + rewrite lookup_insert_ne in Hc' by done. by eapply Hb.
  - by eapply bounded_queues_Broadcast_loop.
  - unfold writePump_recv in H.
    destruct (heap st !! c0) as [c|] eqn:Hheap; [|done]. cbn in H.
    unfold Chan.recv in H. destruct (Chan.buf (Send c)) as [|m rest] eqn:Hbuf.
    { by destruct (Chan.closed (Send c)). }
    injection H as <- <-. intros client c' Hc'; cbn in Hc'.
    destruct (decide (client = c0)) as [->|Hne].
    + rewrite lookup_insert_eq in Hc'. injection Hc' as <-. cbn.
      destruct (Hb c0 c Hheap) as [Hcap Hlen]. rewrite Hbuf in Hlen. cbn in Hlen.
      split; [done|lia].
    + rewrite lookup_insert_ne in Hc' by done. by eapply Hb.
Qed.

Lemma reachable_bounded_queues st : reachable st → bounded_queues st.
Proof.
  unfold reachable. revert st.
  apply (rtc_ind_r (λ st, bounded_queues st) init).
  - intros client c Hc. cbn in Hc. by rewrite lookup_empty in Hc.
  - intros y z _ Hstep Hy. by eapply bounded_queues_sys_step.
Qed.


Lemma bounded_queuesb_sound st : bounded_queuesb st = true → bounded_queues st.
Proof.
  unfold bounded_queuesb, bounded_queues. intros H client c Hc.
  rewrite forallb_forall in H.
  specialize (H (client, c)). cbn in H.
  apply andb_prop in H as [H1 H2].
  - apply Nat.eqb_eq in H1. apply Nat.leb_le in H2. done.
  - apply list_elem_of_In, elem_of_map_to_list. done.
Qed.

Lemma full_iff_256 st client c :
  bounded_queues st → heap st !! client = Some c →
  Chan.full (Send c) = true ↔ List.length (Chan.buf (Send c)) = 256%nat.
Proof.
  intros Hb Hc. destruct (Hb client c Hc) as [Hcap Hlen].
  unfold Chan.full. rewrite Hcap, Nat.leb_le. lia.
Qed.

Lemma all_true_Broadcast_loop message order : ∀ st st',
  all_true st → Run_Broadcast_loop order message st = Some st' → all_true st'.
Proof.
  induction order as [|a rest IH]; intros st st' Hy H; cbn in H.
  { by injection H as <-. }
  destruct (Clients (hub st) !! a); [|by eapply IH].
  destruct (heap st !! a) as [c|]; [|done]. cbn in H.
  destruct (Chan.try_send message (Send c)); [| |done].
  { eapply IH; [|exact H]. intros k v Hb. by eapply Hy. }
  destruct (Chan.close (Send c)); [|done]. cbn in H.
  eapply IH; [|exact H]. intros k v Hb; cbn in Hb.
  apply lookup_delete_Some in Hb as [_ Hb]. by eapply Hy.
Qed.

Lemma reachable_all_true st : reachable st → all_true st.
Proof.
  unfold reachable. revert st.
  apply (rtc_ind_r (λ st, all_true st) init).
  { intros k v Hb. cbn in Hb. by rewrite lookup_empty in Hb. }
  intros y z _ Hstep Hy.
  destruct Hstep as [c0 user_id st1 H|c0 st1 [order Hord H]|message st1 [order Hord H]
                    |c0 message st1 H].
  - unfold ServeWebSocket in H. destruct (heap y !! c0); [done|].
    injection H as <-. intros k v Hb; cbn in Hb.
    destruct (decide (k = c0)) as [->|Hne].
    + rewrite lookup_insert_eq in Hb. congruence.
    + rewrite lookup_insert_ne in Hb by done. by eapply Hy.
  - cbn in H. unfold Run_Unregister in H.
    destruct (Clients (hub y) !! c0); [|by injection H as <-].
    destruct (heap y !! c0) as [c|]; [|done]. cbn in H.
    destruct (Chan.close (Send c)); [|done]. cbn in H. injection H as <-.
    intros k v Hb; cbn in Hb.
    apply lookup_delete_Some in Hb as [_ Hb]. by eapply Hy.
  - by eapply all_true_Broadcast_loop.
  - unfold writePump_recv in H. destruct (heap y !! c0) as [c|]; [|done]. cbn in H.
    destruct (Chan.recv (Send c)); [|done|done]. by injection H as <- <-.
Qed.

(** ** What a broadcast does, for every order of the range *)

Lemma Run_Broadcast_delivers st order message :
  hub_inv st → range_order (Clients (hub st)) order →
  ∃ st', Run_iteration order (RecvBroadcast message) st = Some st' ∧
    ∀ client c, registered st client → heap st !! client = Some c →
      (Chan.full (Send c) = false →
         registered st' client ∧ heap st' !! client = Some (after_send message c)) ∧
      (Chan.full (Send c) = true →
         ¬ registered st' client ∧ heap st' !! client = Some (after_close c)).
Proof.
  intros Hinv Hord.
  destruct (Run_Broadcast_spec st order message Hinv Hord) as (st' & Hrun & _ & Hin).
  exists st'. split; [done|]. intros client c Hreg Hheap.
  specialize (Hin client c Hreg Hheap).
  destruct (Chan.full (Send c)); destruct Hin as [Hh Hcl]; split; try (intros [=]; fail).
  - intros _. split; [|done]. unfold registered. rewrite Hcl. by intros [? ?].
  - intros _. split; [|done]. unfold registered. by rewrite Hcl.
Qed.

Lemma reachable_room_PQ : reachable room_PQ.
Proof.
  unfold reachable.
  eapply rtc_l; [apply (step_ServeWebSocket _ 1%positive "P" (connect 1 "P" init)); reflexivity|].
  eapply rtc_l; [apply (step_ServeWebSocket _ 2%positive "Q" room_PQ); reflexivity|].
  apply rtc_refl.
Qed.

(* ===================================================================== *)
(** * Part III: the claims about the hub                                   *)
(* ===================================================================== *)

(** C9: in every state the program reaches, each client of [Hub.Clients]
    has an open [Send] channel; no iteration of [Run] panics there,
    whatever it receives and whatever order its range takes, so the hub never
    sends on a closed channel; and a step that closes the channel of a
    client is a step that deletes that client from [Hub.Clients]. *)
Theorem C9_registered_queues_are_open st :
  reachable st →
  hub_inv st ∧
  (∀ order ev, range_order (Clients (hub st)) order →
     is_Some (Run_iteration order ev st)) ∧
  (∀ st' client, sys_step st st' →
     open_at st client = true → open_at st' client = false →
     registered st client ∧ ¬ registered st' client).
Proof.
  intros Hreach. pose proof (reachable_hub_inv st Hreach) as Hinv.
  split; [done|]. split.
  - intros order ev Hord. by apply Run_iteration_no_panic.
  - intros st' client Hstep. by apply sys_step_closes.
Qed.

(** C9 at [room_PQ], reached by two connections. *)
Lemma C9_witness :
  hub_inv room_PQ ∧
  (∀ order ev, range_order (Clients (hub room_PQ)) order →
     is_Some (Run_iteration order ev room_PQ)) ∧
  (∀ st' client, sys_step room_PQ st' →
     open_at room_PQ client = true → open_at st' client = false →
     registered room_PQ client ∧ ¬ registered st' client).
Proof. apply (C9_registered_queues_are_open room_PQ). apply reachable_room_PQ. Defined.

(** C7: [Unregister] is idempotent.  In a state where every registered
    client has an open queue: unregistering a registered client deletes it
    and closes its queue, which was open; unregistering a client that is not
    registered returns the state as it is; unregistering twice is
    unregistering once; and no iteration of [Run], on an unregistration or
    on a broadcast that evicts, panics or touches a queue that is already
    closed, so a queue is closed at most once. *)
Theorem C7_Unregister_idempotent st client :
  hub_inv st →
  (∀ c, registered st client → heap st !! client = Some c →
     Chan.closed (Send c) = false ∧
     Run_Unregister client st =
       Some (mkState (<[client := after_close c]> (heap st))
                     (mkHub (delete client (Clients (hub st)))))) ∧
  (¬ registered st client → Run_Unregister client st = Some st) ∧
  (∃ st', Run_Unregister client st = Some st' ∧ ¬ registered st' client ∧
          Run_Unregister client st' = Some st') ∧
  (∀ order ev, range_order (Clients (hub st)) order →
     ∃ st', Run_iteration order ev st = Some st' ∧
       ∀ c, heap st !! client = Some c → Chan.closed (Send c) = true →
            heap st' !! client = Some c).
Proof.
  intros Hinv. split; [|split; [|split]].
  - intros c Hreg Hheap.
    destruct (open_at_Some _ _ (Hinv _ Hreg)) as (c' & Hheap' & Hopen).
    simplify_eq. split; [done|]. by apply Run_Unregister_present; auto.
  - apply Run_Unregister_absent.
  - destruct (decide (registered st client)) as [Hreg|Hno].
    + destruct (open_at_Some _ _ (Hinv _ Hreg)) as (c & Hheap & Hopen).
      eexists. split; [by apply Run_Unregister_present; eauto|].
      assert (¬ registered
                (mkState (<[client := after_close c]> (heap st))
                         (mkHub (delete client (Clients (hub st))))) client) as Hgone.
      { unfold registered; cbn. rewrite lookup_delete_eq. by intros [? ?]. }
      split; [done|]. by apply Run_Unregister_absent.
    + exists st. by rewrite Run_Unregister_absent.
  - intros order ev Hord.
    destruct (Run_iteration_no_panic st order ev Hinv Hord) as [st' Hrun].
    exists st'. split; [done|]. intros c Hheap Hclosed.
    destruct (decide (registered st client)) as [Hreg|Hno].
    { destruct (open_at_Some _ _ (Hinv _ Hreg)) as (c' & Hheap' & Hopen).
      simplify_eq. congruence. }
    destruct ev as [c0|c0|message]; cbn in Hrun.
    + by injection Hrun as <-.
    + destruct (decide (registered st c0)) as [Hreg0|Hno0].
      * destruct (open_at_Some _ _ (Hinv _ Hreg0)) as (c' & Hheap' & Hopen).
        rewrite (Run_Unregister_present st c0 c') in Hrun by auto.
        injection Hrun as <-. cbn.
        rewrite lookup_insert_ne; [done|]. by intros ->.
      * rewrite Run_Unregister_absent in Hrun by done. by injection Hrun as <-.
    + destruct (Run_Broadcast_spec st order message Hinv Hord) as (st1 & Hrun1 & Hout & _).
      rewrite Hrun in Hrun1. injection Hrun1 as <-.
      destruct (Hout client Hno) as [-> _]. done.
Qed.

(** C7 at [room_PQ], for its client P. *)
Lemma C7_witness :
  ∃ st', Run_Unregister 1 room_PQ = Some st' ∧ ¬ registered st' 1 ∧
         Run_Unregister 1 st' = Some st'.
Proof.
  apply (C7_Unregister_idempotent room_PQ 1).
  apply hub_invb_sound. vm_compute. reflexivity.
Defined.

(** C10: [Register] is idempotent.  Registering a client that is already in
    [Hub.Clients] leaves the set of registered clients and every client
    object, its queue included, as they were, and leaves the whole state
    unchanged where the map holds [true] for it, as it does in every
    reachable state; registering twice is registering once. *)
Theorem C10_Register_idempotent st client :
  registered st client →
  ∃ st', Run_Register client st = Some st' ∧
    dom (Clients (hub st')) = dom (Clients (hub st)) ∧
    size (Clients (hub st')) = size (Clients (hub st)) ∧
    heap st' = heap st ∧
    Clients (hub st') !! client = Some true ∧
    Run_Register client st' = Some st' ∧
    (all_true st → st' = st).
Proof.
  intros [b Hb]. eexists. split; [reflexivity|]. cbn.
  assert (dom (<[client:=true]> (Clients (hub st))) = dom (Clients (hub st))) as Hdom.
  { apply dom_insert_lookup_L. by eexists. }
  split; [done|]. split.
  { apply map_size_insert_Some. by eexists. }
  split; [done|]. split; [by rewrite lookup_insert_eq|]. split.
  - unfold Run_Register; cbn. by rewrite insert_insert_eq.
  - intros Hall. rewrite (Hall _ _ Hb) in Hb.
    rewrite insert_id by done. by destruct st as [h [cl]].
Qed.

(** C10 at [room_PQ], for its client P. *)
Lemma C10_witness :
  ∃ st', Run_Register 1 room_PQ = Some st' ∧
    dom (Clients (hub st')) = dom (Clients (hub room_PQ)) ∧
    size (Clients (hub st')) = size (Clients (hub room_PQ)) ∧
    heap st' = heap room_PQ ∧
    Clients (hub st') !! 1%positive = Some true ∧
    Run_Register 1 st' = Some st' ∧
    (all_true room_PQ → st' = room_PQ).
Proof.
  apply (C10_Register_idempotent room_PQ 1).
  unfold registered. vm_compute. by eexists.
Defined.

Lemma hub_inv_without st client : hub_inv st → hub_inv (without client st).
Proof.
  intros Hinv c [b Hc]. unfold without in Hc; cbn in Hc.
  apply lookup_delete_Some in Hc as [_ Hc]. apply (Hinv c). by exists b.
Qed.

(** A fan-out treats a client other than [A] in the same way whether [A] is
    registered or not. *)
Lemma Run_Broadcast_unaffected st order message A st' order2 st2 B :
  hub_inv st → range_order (Clients (hub st)) order →
  Run_Broadcast_loop order message st = Some st' →
  range_order (Clients (hub (without A st))) order2 →
  Run_Broadcast_loop order2 message (without A st) = Some st2 →
  B ≠ A →
  heap st' !! B = heap st2 !! B ∧
  Clients (hub st') !! B = Clients (hub st2) !! B.
Proof.
  intros Hinv Hord Hrun Hord2 Hrun2 HBA.
  destruct (Run_Broadcast_spec st order message Hinv Hord) as (s1 & H1 & Hout1 & Hin1).
  destruct (Run_Broadcast_spec (without A st) order2 message
              (hub_inv_without st A Hinv) Hord2) as (s2 & H2 & Hout2 & Hin2).
  rewrite Hrun in H1. injection H1 as <-. rewrite Hrun2 in H2. injection H2 as <-.
  assert (Clients (hub (without A st)) !! B = Clients (hub st) !! B) as Hsame.
  { unfold without; cbn. by rewrite lookup_delete_ne. }
  destruct (decide (registered st B)) as [Hreg|Hno].
  - destruct (open_at_Some _ _ (Hinv _ Hreg)) as (c & Hheap & _).
    assert (registered (without A st) B) as Hreg2.
    { unfold registered. by rewrite Hsame. }
    specialize (Hin1 B c Hreg Hheap). specialize (Hin2 B c Hreg2 Hheap).
    destruct (Chan.full (Send c)); destruct Hin1 as [-> ->]; destruct Hin2 as [-> ->];
      by rewrite ?Hsame.
  - assert (¬ registered (without A st) B) as Hno2.
    { unfold registered. by rewrite Hsame. }
    destruct (Hout1 B Hno) as [-> ->]. destruct (Hout2 B Hno2) as [-> ->]. done.
Qed.

(** C4: when the queue of a registered client A holds 256 pending messages,
    its capacity, at the moment the hub fans a message out, that iteration
    of [Run] closes A's queue and deletes A from [Hub.Clients].  The other
    clients are unaffected: each ends as it would have, had A not been
    registered at all; and each registered one whose own queue has room gets
    the message appended and stays registered.  This holds for every order
    the range over the map takes. *)
Theorem C4_slow_consumer_evicted st order message A cA :
  hub_inv st → bounded_queues st →
  range_order (Clients (hub st)) order →
  registered st A → heap st !! A = Some cA →
  List.length (Chan.buf (Send cA)) = 256%nat →
  ∃ st', Run_iteration order (RecvBroadcast message) st = Some st' ∧
    ¬ registered st' A ∧
    heap st' !! A = Some (after_close cA) ∧
    (∀ B cB, B ≠ A → registered st B → heap st !! B = Some cB →
       (List.length (Chan.buf (Send cB)) < 256)%nat →
       registered st' B ∧ heap st' !! B = Some (after_send message cB)) ∧
    (∀ order2 st2 B,
       range_order (Clients (hub (without A st))) order2 →
       Run_iteration order2 (RecvBroadcast message) (without A st) = Some st2 →
       B ≠ A →
       heap st' !! B = heap st2 !! B ∧
       Clients (hub st') !! B = Clients (hub st2) !! B).
Proof.
  intros Hinv Hb Hord HregA HheapA HlenA.
  destruct (Run_Broadcast_delivers st order message Hinv Hord) as (st' & Hrun & Hall).
  exists st'. split; [done|].
  destruct (Hall A cA HregA HheapA) as [_ HA].
  destruct HA as [HA1 HA2]; [by eapply full_iff_256|].
  split; [done|]. split; [done|]. split.
  - intros B cB _ HregB HheapB HlenB.
    destruct (Hall B cB HregB HheapB) as [HB _]. apply HB.
    destruct (Chan.full (Send cB)) eqn:Hfull; [|done].
    apply (full_iff_256 st B cB Hb HheapB) in Hfull. lia.
  - intros order2 st2 B Hord2 Hrun2 HBA.
    by eapply (Run_Broadcast_unaffected st order message A st' order2 st2 B).
Qed.

(** C4 at [room_P_full]: P holds 256 pending messages and Q none. *)
Lemma C4_witness :
  ∃ st', Run_iteration (default_order room_P_full) (RecvBroadcast "next") room_P_full
         = Some st' ∧
    ¬ registered st' 1 ∧
    heap st' !! 1%positive =
      Some (after_close (mkClient "" (Chan.mk (replicate 256 "m") 256 false) "P")) ∧
    (∀ B cB, B ≠ 1%positive → registered room_P_full B →
       heap room_P_full !! B = Some cB →
       (List.length (Chan.buf (Send cB)) < 256)%nat →
       registered st' B ∧ heap st' !! B = Some (after_send "next" cB)) ∧
    (∀ order2 st2 B,
       range_order (Clients (hub (without 1 room_P_full))) order2 →
       Run_iteration order2 (RecvBroadcast "next") (without 1 room_P_full) = Some st2 →
       B ≠ 1%positive →
       heap st' !! B = heap st2 !! B ∧
       Clients (hub st') !! B = Clients (hub st2) !! B).
Proof.
  apply (C4_slow_consumer_evicted room_P_full (default_order room_P_full) "next" 1).
  - apply hub_invb_sound. vm_compute. reflexivity.
  - apply bounded_queuesb_sound. vm_compute. reflexivity.
  - apply default_order_range.
  - unfold registered. vm_compute. by eexists.
  - vm_compute. reflexivity.
  - vm_compute. reflexivity.
Defined.

(** The claim C1 fails: P, registered beside Q, sends the frame
    [play_frame]; [readPump] hands its encoding to the hub; in every
    iteration of [Run] on it, the message is appended to the queue of P
    itself as well as to the queue of Q. *)
Lemma C1_sender_receives_own_broadcast :
  ∃ message,
    readPump_frame (F := literal_floats) 1000 play_frame = Some (RecvBroadcast message) ∧
    registered room_PQ 1 ∧
    ∀ st', Run_step room_PQ (RecvBroadcast message) st' →
      Chan.buf ∘ Send <$> heap st' !! 1%positive = Some [message] ∧
      Chan.buf ∘ Send <$> heap st' !! 2%positive = Some [message].
Proof.
  eexists. split; [vm_compute; reflexivity|]. split.
  { unfold registered. vm_compute. by eexists. }
  intros st' [order Hord Hrun].
  assert (hub_inv room_PQ) as Hinv by (apply hub_invb_sound; vm_compute; reflexivity).
  match type of Hrun with
  | Run_iteration _ (RecvBroadcast ?m) _ = _ =>
      destruct (Run_Broadcast_delivers room_PQ order m Hinv Hord) as (st1 & Hrun1 & Hall)
  end.
  rewrite Hrun in Hrun1. injection Hrun1 as <-.
  split.
  - destruct (Hall 1%positive (new_Client "P")) as [[_ ->] _];
      [unfold registered; vm_compute; by eexists|vm_compute; reflexivity|reflexivity|].
    reflexivity.
  - destruct (Hall 2%positive (new_Client "Q")) as [[_ ->] _];
      [unfold registered; vm_compute; by eexists|vm_compute; reflexivity|reflexivity|].
    reflexivity.
Qed.

(** C1, amended: when the frame P sends decodes to [msg], [readPump] hands
    the encoding of [msg] to the hub, and the iteration of [Run] that
    receives it appends it to the queue of every registered client whose
    queue has room, in whatever order the range takes them; the hub is not
    told the sender, and P's own queue is one of them. *)
Theorem C1_broadcast_reaches_sender_too {F : Float64} st order now frame
    (msg : WebSocketMessage) P cP :
  hub_inv st → range_order (Clients (hub st)) order →
  registered st P → heap st !! P = Some cP →
  decode now frame = Ok msg →
  readPump_frame now frame = Some (RecvBroadcast (encode msg)) ∧
  ∃ st', Run_iteration order (RecvBroadcast (encode msg)) st = Some st' ∧
    fanned_out (encode msg) st st' ∧
    (Chan.full (Send cP) = false →
       registered st' P ∧ heap st' !! P = Some (after_send (encode msg) cP)).
Proof.
  intros Hinv Hord HregP HheapP Hdec.
  split; [unfold readPump_frame; by rewrite Hdec|].
  destruct (Run_Broadcast_delivers st order (encode msg) Hinv Hord) as (st' & Hrun & Hall).
  exists st'. split; [done|]. split.
  - intros client c Hreg Hheap. by apply Hall.
  - by apply Hall.
Qed.

(** C1 at [room_PQ]: P sends [play_frame]. *)
Lemma C1_witness :
  readPump_frame (F := literal_floats) 1000 play_frame
    = Some (RecvBroadcast (encode play_msg)) ∧
  ∃ st', Run_iteration (default_order room_PQ)
           (RecvBroadcast (encode play_msg)) room_PQ = Some st' ∧
    fanned_out (encode play_msg) room_PQ st' ∧
    (Chan.full (Send (new_Client "P")) = false →
       registered st' 1 ∧
       heap st' !! 1%positive = Some (after_send (encode play_msg) (new_Client "P"))).
Proof.
  apply (C1_broadcast_reaches_sender_too (F := literal_floats)
           room_PQ (default_order room_PQ) 1000 play_frame play_msg 1 (new_Client "P")).
  - apply hub_invb_sound. vm_compute. reflexivity.
  - apply default_order_range.
  - unfold registered. vm_compute. by eexists.
  - vm_compute. reflexivity.
  - vm_compute. reflexivity.
Defined.

(** The claim C2 fails: the frame [stale_frame] carries the timestamp 970;
    [readPump] decodes it at time 1000 and hands its encoding to the hub;
    the hub, at any time from 1000 on, finds it more than 5 seconds old, and
    every iteration of [Run] on it appends it to the queue of the peer Q. *)
Lemma C2_stale_message_is_forwarded :
  ∃ msg,
    decode (F := literal_floats) 1000 stale_frame = Ok msg ∧
    readPump_frame (F := literal_floats) 1000 stale_frame = Some (RecvBroadcast (encode msg)) ∧
    (∀ hub_now, (1000 ≤ hub_now)%Z → (5 < age hub_now msg)%Z) ∧
    ∀ st', Run_step room_PQ (RecvBroadcast (encode msg)) st' →
      Chan.buf ∘ Send <$> heap st' !! 2%positive = Some [encode msg].
Proof.
  eexists. split; [vm_compute; reflexivity|]. split; [vm_compute; reflexivity|]. split.
  { intros hub_now Hnow. unfold age. cbn. lia. }
  intros st' [order Hord Hrun].
  assert (hub_inv room_PQ) as Hinv by (apply hub_invb_sound; vm_compute; reflexivity).
  match type of Hrun with
  | Run_iteration _ (RecvBroadcast ?m) _ = _ =>
      destruct (Run_Broadcast_delivers room_PQ order m Hinv Hord) as (st1 & Hrun1 & Hall)
  end.
  rewrite Hrun in Hrun1. injection Hrun1 as <-.
  destruct (Hall 2%positive (new_Client "Q")) as [[_ ->] _];
    [unfold registered; vm_compute; by eexists|vm_compute; reflexivity|reflexivity|].
  reflexivity.
Qed.

(** C2, amended: the hub applies no age check.  For every message and every
    time at which the hub handles it, the iteration of [Run] that receives
    its encoding appends it to the queue of every registered client whose
    queue has room: when the message is more than 5 seconds old, and when it
    is at most 5 seconds old. *)
Theorem C2_no_freshness_filter {F : Float64} st order hub_now (msg : WebSocketMessage) :
  hub_inv st → range_order (Clients (hub st)) order →
  ∃ st', Run_iteration order (RecvBroadcast (encode msg)) st = Some st' ∧
    ((5 < age hub_now msg)%Z → fanned_out (encode msg) st st') ∧
    ((age hub_now msg ≤ 5)%Z → fanned_out (encode msg) st st').
Proof.
  intros Hinv Hord.
  destruct (Run_Broadcast_delivers st order (encode msg) Hinv Hord) as (st' & Hrun & Hall).
  exists st'. split; [done|].
  assert (fanned_out (encode msg) st st') as Hfan.
  { intros client c Hreg Hheap. by apply Hall. }
  done.
Qed.

(** C2 at [room_PQ], for the message of [stale_frame] handled at time 1000. *)
Lemma C2_witness :
  ∃ st', Run_iteration (default_order room_PQ)
           (RecvBroadcast (encode stale_msg)) room_PQ = Some st' ∧
    ((5 < age 1000 stale_msg)%Z → fanned_out (encode stale_msg) room_PQ st') ∧
    ((age 1000 stale_msg ≤ 5)%Z → fanned_out (encode stale_msg) room_PQ st').
Proof.
  apply (C2_no_freshness_filter (F := literal_floats)
           room_PQ (default_order room_PQ) 1000 stale_msg).
  - apply hub_invb_sound. vm_compute. reflexivity.
  - apply default_order_range.
Defined.

(* ===================================================================== *)
(** * Part IV: the claims about the codec                                  *)
(* ===================================================================== *)

Section Codec.
Context {F : Float64}.

Lemma store_Ok_iff f v (m : WebSocketMessage) :
  (∃ m', store f v m = Ok m') ↔ value_ok f v = true.
Proof.
  unfold store, value_ok. destruct v, f; cbn;
    repeat match goal with
           | |- context [match ?x with Some _ => _ | None => _ end] => destruct x
           end;
    (split; [intros [m' H]|intros H]); try done; by eexists.
Qed.

Lemma store_Err f v (m : WebSocketMessage) e :
  store f v m = Err e → value_ok f v = false.
Proof.
  intros H. destruct (value_ok f v) eqn:E; [|done].
  apply store_Ok_iff with (m := m) in E as [m' E]. congruence.
Qed.

(** The decoder reports no error exactly when none was saved before and
    every member is fine. *)
Lemma decode_members_no_error ms : ∀ (m : WebSocketMessage) saved,
  (decode_members ms m saved).2 = None ↔
  saved = None ∧ forallb member_ok ms = true.
Proof.
  induction ms as [|[key v] ms IH]; intros m saved; cbn.
  { split; [done|by intros [? _]]. }
  unfold member_ok at 1; cbn. destruct (find_field key) as [f|]; cbn; [|apply IH].
  destruct (store f v m) as [m'|e] eqn:Hstore.
  - assert (value_ok f v = true) as -> by (apply (store_Ok_iff f v m); eauto).
    apply IH.
  - rewrite (store_Err _ _ _ _ Hstore). cbn. rewrite IH.
    split; [by intros [? _]|by intros [_ ?]].
Qed.

Lemma Unmarshal_Err_iff raw :
  (∃ e, Unmarshal raw = Err e) ↔ well_formed_payload raw = false.
Proof.
  unfold Unmarshal, well_formed_payload.
  destruct (parse_json raw) as [[| | | | |ms]|]; try (split; [done|by eexists]).
  { split; [by intros [? ?]|done]. }
  pose proof (decode_members_no_error ms zero_message None) as Hiff.
  destruct (decode_members ms zero_message None) as [m [e|]]; cbn in Hiff.
  - split; [|by eexists]. intros _.
    destruct (forallb member_ok ms); [|done].
    destruct Hiff as [_ Hiff]. by specialize (Hiff (conj eq_refl eq_refl)).
  - split; [by intros [? ?]|]. intros H. destruct Hiff as [Hiff _].
    destruct Hiff as [_ Hiff]; [done|congruence].
Qed.

Lemma decode_Err_iff now raw :
  (∃ e, decode now raw = Err e) ↔ (∃ e, Unmarshal raw = Err e).
Proof.
  unfold decode. destruct (Unmarshal raw); split; intros [e' He]; try done; by eexists.
Qed.

Lemma decode_members_app ms1 ms2 (m : WebSocketMessage) saved :
  decode_members (ms1 ++ ms2) m saved =
  decode_members ms2 (decode_members ms1 m saved).1 (decode_members ms1 m saved).2.
Proof.
  revert m saved. induction ms1 as [|[key v] ms1 IH]; intros m saved; cbn; [done|].
  destruct (find_field key) as [f|]; [|apply IH].
  destruct (store f v m); apply IH.
Qed.

(** C3, amended: [decode] fails exactly when the payload is not well-formed
    JSON, or is JSON other than an object or [null], or has a member that
    names a field of the message and holds a value that is neither [null]
    nor of the type of the field.  The kind is not checked: an object that
    is fine up to a last member ["type"] decodes, whatever string that
    member holds, to a message of that kind. *)
Theorem C3_decode_fails_iff_malformed now raw :
  ((∃ e, decode now raw = Err e) ↔ well_formed_payload raw = false) ∧
  (decode now raw = Err SyntaxError ↔ parse_json raw = None) ∧
  (∀ ms kind,
     parse_json raw = Some (JObject (ms ++ [("type", JString kind)])) →
     forallb member_ok ms = true →
     ∃ m, decode now raw = Ok m ∧ Msg.Type_ m = kind).
Proof.
  split; [|split].
  - rewrite decode_Err_iff. apply Unmarshal_Err_iff.
  - unfold decode, Unmarshal.
    destruct (parse_json raw) as [[| | | | |ms]|]; try (split; done).
    destruct (decode_members ms zero_message None) as [m [e|]] eqn:Hd; [|split; done].
    split; [|done]. intros [= ->]. exfalso.
    assert (∀ ms (m : WebSocketMessage) saved,
              saved ≠ Some SyntaxError →
              (decode_members ms m saved).2 ≠ Some SyntaxError) as Hno.
    { clear. induction ms as [|[key v] ms IH]; intros m saved Hs; cbn; [done|].
      destruct (find_field key) as [f|]; [|by apply IH].
      destruct (store f v m) as [m'|e] eqn:Hstore; [by apply IH|].
      apply IH. destruct saved as [e'|]; cbn; [congruence|].
      intros [= ->]. unfold store in Hstore.
      destruct v, f; cbn in Hstore;
        repeat match type of Hstore with
               | context [match ?x with Some _ => _ | None => _ end] => destruct x
               end; done. }
    apply (Hno ms zero_message None); [done|]. by rewrite Hd.
  - intros ms kind Hparse Hok. unfold decode, Unmarshal. rewrite Hparse.
    rewrite decode_members_app.
    pose proof (decode_members_no_error ms zero_message None) as [_ Hnone].
    destruct (decode_members ms zero_message None) as [m saved]; cbn in *.
    rewrite Hnone by done. cbn.
    eexists. split; [reflexivity|].
    by destruct (Msg.Timestamp m =? 0)%Z.
Qed.

Lemma store_keeps_Timestamp f v (m m' : WebSocketMessage) :
  f ≠ FTimestamp → store f v m = Ok m' → Msg.Timestamp m' = Msg.Timestamp m.
Proof.
  intros Hf. unfold store. destruct v, f; cbn; try done;
    repeat match goal with
           | |- context [match ?x with Some _ => _ | None => _ end] => destruct x
           end; try done; by intros [= <-].
Qed.

Lemma decode_members_keeps_Timestamp ms : ∀ (m : WebSocketMessage) saved,
  field_absent FTimestamp ms →
  Msg.Timestamp (decode_members ms m saved).1 = Msg.Timestamp m.
Proof.
  induction ms as [|[key v] ms IH]; intros m saved Habs; cbn; [done|].
  assert (field_absent FTimestamp ms) as Habs'.
  { intros k w Hin. apply (Habs k w). by right. }
  destruct (find_field key) as [f|] eqn:Hf; [|by apply IH].
  assert (f ≠ FTimestamp) as Hne.
  { intros ->. by apply (Habs key v); [left|]. }
  destruct (store f v m) as [m'|e] eqn:Hstore; rewrite IH by done; [|done].
  by eapply store_keeps_Timestamp.
Qed.

(** C6: when [decode] succeeds at a clock reading [now] after the epoch,
    the message it returns is the one [json.Unmarshal] produced, with
    [Timestamp] set to [now] when it was zero, and unchanged when it was
    not; its [Timestamp] is not zero, and it is the encoding of this message
    that [readPump] hands to the hub.  In particular an object with no
    member naming [timestamp] is stamped with [now]. *)
Theorem C6_timestamp_populated now raw m :
  (0 < now)%Z → decode now raw = Ok m →
  (∃ m0, Unmarshal raw = Ok m0 ∧
     (Msg.Timestamp m0 = 0%Z → m = set_Timestamp m0 now) ∧
     (Msg.Timestamp m0 ≠ 0%Z → m = m0)) ∧
  Msg.Timestamp m ≠ 0%Z ∧
  readPump_frame now raw = Some (RecvBroadcast (encode m)) ∧
  (∀ ms, parse_json raw = Some (JObject ms) →
         field_absent FTimestamp ms → Msg.Timestamp m = now).
Proof.
  intros Hnow Hdec. unfold decode in Hdec.
  destruct (Unmarshal raw) as [m0|e] eqn:Hun; [|done].
  injection Hdec as <-.
  split; [|split; [|split]].
  - exists m0. split; [done|]. split; intros H0.
    + by rewrite H0.
    + apply Z.eqb_neq in H0. by rewrite H0.
  - destruct (Msg.Timestamp m0 =? 0)%Z eqn:E; cbn; [lia|]. by apply Z.eqb_neq.
  - unfold readPump_frame, decode. by rewrite Hun.
  - intros ms Hparse Habs. unfold Unmarshal in Hun. rewrite Hparse in Hun.
    pose proof (decode_members_keeps_Timestamp ms zero_message None Habs) as Hts.
    destruct (decode_members ms zero_message None) as [m1 [e|]]; [done|].
    injection Hun as <-. cbn in Hts. by rewrite Hts.
Qed.

End Codec.

(** The claim C3 fails: the kind [bogus] is none of the six enumerated
    kinds, and the payload [bogus_frame] that carries it decodes, for any
    [float64] and at any time, to a message of kind [bogus]. *)
Lemma C3_unknown_kind_is_accepted :
  ("bogus" ∉ enumerated_kinds) ∧
  (∀ (F : Float64) (now : Z),
     ∃ m, decode now bogus_frame = Ok m ∧ Msg.Type_ m = "bogus").
Proof.
  split.
  - unfold enumerated_kinds. rewrite !elem_of_cons, elem_of_nil. intros H.
    repeat (destruct H as [H|H]; [discriminate H|]). done.
  - intros F now. eexists. split; [vm_compute; reflexivity|].
    cbn. by destruct (0 =? 0)%Z.
Qed.

(** C6 for [bogus_frame], which has no timestamp, read at time 1000. *)
Lemma C6_witness :
  (∃ m0, Unmarshal (F := literal_floats) bogus_frame = Ok m0 ∧
     (Msg.Timestamp m0 = 0%Z →
        @Msg.mk literal_floats "bogus" "" "" "0" "0" 1000 = set_Timestamp m0 1000) ∧
     (Msg.Timestamp m0 ≠ 0%Z → @Msg.mk literal_floats "bogus" "" "" "0" "0" 1000 = m0)) ∧
  (1000 ≠ 0)%Z ∧
  readPump_frame (F := literal_floats) 1000 bogus_frame =
    Some (RecvBroadcast (encode (@Msg.mk literal_floats "bogus" "" "" "0" "0" 1000))) ∧
  (∀ ms, parse_json bogus_frame = Some (JObject ms) →
         field_absent FTimestamp ms → 1000%Z = 1000%Z).
Proof.
  apply (C6_timestamp_populated (F := literal_floats) 1000 bogus_frame
           (@Msg.mk literal_floats "bogus" "" "" "0" "0" 1000)).
  - lia.
  - vm_compute. reflexivity.
Defined.

(** ** Strings and bytes *)

Lemma append_assoc (a b c : string) : (a +:+ b) +:+ c = a +:+ (b +:+ c).
Proof. induction a as [|x a IH]; cbn; [done|]. by rewrite IH. Qed.

Lemma append_nil_r (a : string) : a +:+ "" = a.
Proof. induction a as [|x a IH]; cbn; [done|]. by rewrite IH. Qed.

Lemma length_append (a b : string) :
  String.length (a +:+ b) = (String.length a + String.length b)%nat.
Proof. induction a as [|x a IH]; cbn; [done|]. by rewrite IH. Qed.

Lemma byte_chr n : (n < 256)%N → byte (chr n) = n.
Proof. apply N_ascii_embedding. Qed.

Lemma byte_lt_256 c : (byte c < 256)%N.
Proof. apply N_ascii_bounded. Qed.

Lemma between_spec lo hi c :
  between lo hi c = true ↔ (lo ≤ byte c ∧ byte c ≤ hi)%N.
Proof. unfold between. rewrite andb_true_iff, !N.leb_le. done. Qed.

(** [utf8_prefix] looks at the sequence it returns and at nothing else. *)
Lemma utf8_prefix_is_seq s seq after :
  utf8_prefix s = Some (seq, after) → is_seq seq ∧ s = seq +:+ after.
Proof.
  unfold utf8_prefix. destruct s as [|b0 [|b1 r1]]; try done.
  assert (utf8_lead b0 b1 ≠ 0%nat → (0x80 ≤ byte b0)%N) as Hlead.
  { unfold utf8_lead.
    repeat match goal with
           | |- context [between ?lo ?hi ?c] =>
               let E := fresh in destruct (between lo hi c) eqn:E;
               [apply between_spec in E|]
           | |- context [(?x =? ?y)%N] =>
               let E := fresh in destruct (N.eqb_spec x y) as [E|E]
           end; try done; intros _; lia. }
  destruct (utf8_lead b0 b1) as [|[|[|[|[|n]]]]] eqn:Hl; try done.
  - intros [= <- <-]. split; [|done]. split.
    + eexists _, _. split; [done|]. apply Hlead. lia.
    + intros t. cbn. by rewrite Hl.
  - destruct r1 as [|b2 r2]; [done|]. destruct (is_cont b2) eqn:H2; [|done].
    intros [= <- <-]. split; [|done]. split.
    + eexists _, _. split; [done|]. apply Hlead. lia.
    + intros t. cbn. by rewrite Hl, H2.
  - destruct r1 as [|b2 [|b3 r3]]; try done.
    destruct (is_cont b2) eqn:H2; [|done]. destruct (is_cont b3) eqn:H3; [|done].
    cbn. intros [= <- <-]. split; [|done]. split.
    + eexists _, _. split; [done|]. apply Hlead. lia.
    + intros t. cbn. by rewrite Hl, H2, H3.
Qed.

Lemma replacement_is_seq : is_seq replacement.
Proof.
  split; [by eexists _, _|]. intros t. reflexivity.
Qed.

(** Decide the byte tests of the goal by arithmetic. *)
Ltac byte_tests :=
  repeat match goal with
         | |- context [between ?lo ?hi ?c] =>
             let E := fresh "E" in
             destruct (between lo hi c) eqn:E;
             [apply between_spec in E
             |apply not_true_iff_false in E; rewrite between_spec in E]
         | |- context [(?x =? ?y)%N] =>
             let E := fresh "E" in destruct (N.eqb_spec x y) as [E|E]
         | |- context [(?x <=? ?y)%N] =>
             let E := fresh "E" in destruct (N.leb_spec x y) as [E|E]
         | |- context [(?x <? ?y)%N] =>
             let E := fresh "E" in destruct (N.ltb_spec x y) as [E|E]
         end.

Lemma utf8_lead_2 b0 b1 :
  (0xC2 ≤ byte b0 ≤ 0xDF)%N → (0x80 ≤ byte b1 ≤ 0xBF)%N → utf8_lead b0 b1 = 2%nat.
Proof. intros H0 H1. unfold utf8_lead. byte_tests; try done; lia. Qed.

Lemma utf8_lead_3 b0 b1 :
  (0xE0 ≤ byte b0 ≤ 0xEF)%N → (0x80 ≤ byte b1 ≤ 0xBF)%N →
  (byte b0 = 0xE0 → 0xA0 ≤ byte b1)%N → (byte b0 = 0xED → byte b1 ≤ 0x9F)%N →
  utf8_lead b0 b1 = 3%nat.
Proof. intros H0 H1 H2 H3. unfold utf8_lead. byte_tests; try done; lia. Qed.

Lemma utf8_lead_4 b0 b1 :
  (0xF0 ≤ byte b0 ≤ 0xF4)%N → (0x80 ≤ byte b1 ≤ 0xBF)%N →
  (byte b0 = 0xF0 → 0x90 ≤ byte b1)%N → (byte b0 = 0xF4 → byte b1 ≤ 0x8F)%N →
  utf8_lead b0 b1 = 4%nat.
Proof. intros H0 H1 H2 H3. unfold utf8_lead. byte_tests; try done; lia. Qed.

Lemma is_cont_chr n : (0x80 ≤ n ≤ 0xBF)%N → is_cont (chr n) = true.
Proof. intros H. unfold is_cont. apply between_spec. rewrite byte_chr; lia. Qed.

(** The encoding of a code point outside ASCII is one well-formed
    sequence. *)
Lemma utf8_encode_is_seq r : (0x80 ≤ r)%N → is_seq (utf8_encode r).
Proof.
  intros Hr. unfold utf8_encode.
  destruct (N.leb_spec r 0x7F) as [?|_]; [lia|].
  destruct (N.leb_spec r 0x7FF) as [H2|H2].
  { split.
    - eexists _, _. split; [done|]. rewrite byte_chr; lia.
    - intros t. cbn. rewrite utf8_lead_2; [done| |]; rewrite byte_chr; lia. }
  destruct ((0x10FFFF <? r)%N || ((0xD800 <=? r)%N && (r <=? 0xDFFF)%N)) eqn:Hbad.
  { apply replacement_is_seq. }
  apply orb_false_iff in Hbad as [Hmax Hsur].
  apply N.ltb_ge in Hmax.
  assert (r < 0xD800 ∨ 0xDFFF < r)%N as Hsur'.
  { apply andb_false_iff in Hsur as [H|H]; [apply N.leb_gt in H|apply N.leb_gt in H]; lia. }
  destruct (N.leb_spec r 0xFFFF) as [H3|H3].
  { split.
    - eexists _, _. split; [done|]. rewrite byte_chr; lia.
    - intros t. cbn. rewrite utf8_lead_3, is_cont_chr; [done|..];
        rewrite ?byte_chr; lia. }
  split.
  - eexists _, _. split; [done|]. rewrite byte_chr; lia.
  - intros t. cbn. rewrite utf8_lead_4, !is_cont_chr; [done|..];
      rewrite ?byte_chr; lia.
Qed.

Lemma valid_utf8_encode r t : valid_utf8 t → valid_utf8 (utf8_encode r +:+ t).
Proof.
  intros Ht. destruct (N.leb_spec 0x80 r) as [Hr|Hr].
  - apply valid_seq; [by apply utf8_encode_is_seq|done].
  - unfold utf8_encode. destruct (N.leb_spec r 0x7F) as [_|?]; [|lia].
    cbn. apply valid_ascii; [|done]. rewrite byte_chr; lia.
Qed.

Lemma prepend_Some p x t r :
  prepend p x = Some (t, r) → ∃ t', x = Some (t', r) ∧ t = p +:+ t'.
Proof.
  unfold prepend. destruct x as [[t' r']|]; cbn; [|done].
  intros [= <- <-]. by eexists.
Qed.

Lemma simple_escape_ascii e b : simple_escape e = Some b → (byte b < 0x80)%N.
Proof.
  unfold simple_escape. destruct (Ascii.eqb e DQ); [by intros [= <-]|].
  destruct e as [[] [] [] [] [] [] [] []]; cbn; try done; by intros [= <-].
Qed.

(** What [unquote] returns is well-formed UTF-8. *)
Lemma unquote_from_valid fuel : ∀ s t r,
  unquote_from fuel s = Some (t, r) → valid_utf8 t.
Proof.
  induction fuel as [|fuel IH]; intros s t r; cbn; [done|].
  destruct s as [|c rest]; [done|].
  destruct (Ascii.eqb c DQ). { intros [= <- <-]. constructor. }
  destruct (Ascii.eqb c "\"%char).
  { destruct rest as [|e rest']; [done|].
    destruct (simple_escape e) as [b|] eqn:Hesc.
    { intros H. apply prepend_Some in H as (t' & H & ->). cbn.
      apply valid_ascii; [by eapply simple_escape_ascii|by eapply IH]. }
    destruct (getu4 (String c (String e rest'))) as [[rr after]|]; [|done].
    destruct (is_surrogate rr).
    - destruct (getu4 after) as [[rr1 after1]|].
      + destruct (utf16_pair rr rr1) as [dec|];
          intros H; apply prepend_Some in H as (t' & H & ->).
        * apply valid_utf8_encode. by eapply IH.
        * apply valid_seq; [apply replacement_is_seq|by eapply IH].
      + intros H; apply prepend_Some in H as (t' & H & ->).
        apply valid_seq; [apply replacement_is_seq|by eapply IH].
    - intros H; apply prepend_Some in H as (t' & H & ->).
      apply valid_utf8_encode. by eapply IH. }
  destruct (N.ltb_spec (byte c) 0x20); [done|].
  destruct (N.ltb_spec (byte c) 0x80).
  { intros H'; apply prepend_Some in H' as (t' & H' & ->). cbn.
    apply valid_ascii; [done|by eapply IH]. }
  destruct (utf8_prefix (String c rest)) as [[seq after]|] eqn:Hp;
    intros H'; apply prepend_Some in H' as (t' & H' & ->).
  - apply valid_seq; [|by eapply IH]. by apply utf8_prefix_is_seq in Hp as [? _].
  - apply valid_seq; [apply replacement_is_seq|by eapply IH].
Qed.

Lemma unquote_valid s t r : unquote s = Some (t, r) → valid_utf8 t.
Proof. apply unquote_from_valid. Qed.

(** ** A string literal written by [Marshal] is read back by [unquote] *)

Lemma unquote_step_ascii c fuel E :
  (byte c < 0x80)%N →
  unquote_from (S fuel) (escape_ascii c +:+ E) =
  prepend (String c "") (unquote_from fuel E).
Proof.
  destruct c as [[] [] [] [] [] [] [] []]; intros H;
    try (vm_compute in H; discriminate H); reflexivity.
Qed.

Lemma escape_ascii_length c : (1 ≤ String.length (escape_ascii c))%nat.
Proof. destruct c as [[] [] [] [] [] [] [] []]; vm_compute; lia. Qed.

Lemma byte_ge_128_neq c d : (0x80 ≤ byte c)%N → (byte d < 0x80)%N → Ascii.eqb c d = false.
Proof. intros Hc Hd. apply Ascii.eqb_neq. intros ->. lia. Qed.

Lemma unquote_step_seq seq fuel E :
  is_seq seq →
  unquote_from (S fuel) (escape_seq seq +:+ E) = prepend seq (unquote_from fuel E).
Proof.
  intros [(c & r & -> & Hc) Hpre]. unfold escape_seq.
  destruct (String.eqb_spec (String c r) (utf8_encode 0x2028)) as [->|_]; [reflexivity|].
  destruct (String.eqb_spec (String c r) (utf8_encode 0x2029)) as [->|_]; [reflexivity|].
  specialize (Hpre E). cbn -[utf8_prefix] in Hpre. cbn -[utf8_prefix].
  rewrite !(byte_ge_128_neq c) by (done || (vm_compute; done)).
  destruct (N.ltb_spec (byte c) 0x20); [lia|].
  destruct (N.ltb_spec (byte c) 0x80); [lia|].
  by rewrite Hpre.
Qed.

Lemma escape_seq_length seq : is_seq seq → (1 ≤ String.length (escape_seq seq))%nat.
Proof.
  intros [(c & r & -> & _) _]. unfold escape_seq.
  repeat match goal with |- context [String.eqb ?a ?b] => destruct (String.eqb a b) end;
    cbn; lia.
Qed.

Lemma escape_from_ascii n c s :
  (byte c < 0x80)%N →
  escape_from (S n) (String c s) = escape_ascii c +:+ escape_from n s.
Proof. intros H. cbn. by destruct (N.ltb_spec (byte c) 0x80); [|lia]. Qed.

Lemma escape_from_seq n seq s :
  is_seq seq →
  escape_from (S n) (seq +:+ s) = escape_seq seq +:+ escape_from n s.
Proof.
  intros [(c & r & -> & Hc) Hpre]. specialize (Hpre s). cbn -[utf8_prefix] in Hpre.
  cbn -[utf8_prefix]. destruct (N.ltb_spec (byte c) 0x80); [lia|]. by rewrite Hpre.
Qed.

Lemma unquote_escape s :
  valid_utf8 s → ∀ n fuel rest,
  (String.length s ≤ n)%nat →
  (String.length (escape_from n s) < fuel)%nat →
  unquote_from fuel (escape_from n s +:+ String DQ rest) = Some (s, rest).
Proof.
  induction 1 as [|c s Hc Hs IH|seq s Hseq Hs IH]; intros n fuel rest Hn Hfuel.
  - assert (escape_from n "" = "") as -> by (by destruct n).
    destruct fuel; [cbn in Hfuel; lia|]. reflexivity.
  - destruct n as [|n]; [cbn in Hn; lia|]. cbn in Hn.
    rewrite escape_from_ascii in * by done.
    rewrite length_append in Hfuel. pose proof (escape_ascii_length c).
    destruct fuel as [|fuel]; [lia|].
    rewrite append_assoc, unquote_step_ascii by done.
    rewrite IH by lia. reflexivity.
  - assert (1 ≤ String.length seq)%nat as Hlen.
    { destruct Hseq as [(c & r & -> & _) _]. cbn. lia. }
    rewrite length_append in Hn.
    destruct n as [|n]; [lia|].
    rewrite escape_from_seq in * by done.
    rewrite length_append in Hfuel. pose proof (escape_seq_length seq Hseq).
    destruct fuel as [|fuel]; [lia|].
    rewrite append_assoc, unquote_step_seq by done.
    rewrite IH by lia. reflexivity.
Qed.

(** [quote s] followed by [rest], after its opening quote. *)
Lemma unquote_quote s rest :
  valid_utf8 s →
  unquote (escape_from (String.length s) s +:+ String DQ rest) = Some (s, rest).
Proof.
  intros Hs. unfold unquote. apply unquote_escape; [done|lia|].
  rewrite length_append. cbn. lia.
Qed.

(** ** Number literals *)

Lemma span_digits_app s d u : ∀ ds r,
  span_digits s = (ds, r) → is_digit d = false →
  span_digits (s +:+ String d u) = (ds, r +:+ String d u).
Proof.
  induction s as [|c s IH]; intros ds r H Hd; cbn in *.
  - injection H as <- <-. by rewrite Hd.
  - destruct (is_digit c).
    + destruct (span_digits s) as [ds' r'] eqn:Hs. injection H as <- <-.
      by rewrite (IH ds' r').
    + by injection H as <- <-.
Qed.

Lemma span_digits_prefix s : ∀ ds r, span_digits s = (ds, r) → s = ds +:+ r.
Proof.
  induction s as [|c s IH]; intros ds r H; cbn in *.
  - by injection H as <- <-.
  - destruct (is_digit c).
    + destruct (span_digits s) as [ds' r'] eqn:Hs. injection H as <- <-.
      cbn. by rewrite <- (IH ds' r').
    + by injection H as <- <-.
Qed.

Lemma digits1_app s d u ds r :
  digits1 s = Some (ds, r) → is_digit d = false →
  digits1 (s +:+ String d u) = Some (ds, r +:+ String d u).
Proof.
  unfold digits1. intros H Hd.
  destruct (span_digits s) as [ds' r'] eqn:Hs.
  rewrite (span_digits_app s d u ds' r') by done.
  destruct ds'; [done|]. by injection H as <- <-.
Qed.

Lemma digits1_prefix s ds r : digits1 s = Some (ds, r) → s = ds +:+ r.
Proof.
  unfold digits1. destruct (span_digits s) as [ds' r'] eqn:Hs.
  destruct ds'; [done|]. intros [= <- <-]. by apply span_digits_prefix.
Qed.

Lemma delimiter_not_digit d : delimiter d → is_digit d = false.
Proof. by intros [-> | ->]. Qed.

Lemma lex_int_app s d u t r :
  lex_int s = Some (t, r) → delimiter d →
  lex_int (s +:+ String d u) = Some (t, r +:+ String d u).
Proof.
  unfold lex_int. intros H Hd. destruct s as [|c s]; [done|]. cbn.
  destruct (Ascii.eqb c "0"); [by injection H as <- <-|].
  apply (digits1_app (String c s)); [done|by apply delimiter_not_digit].
Qed.

Lemma lex_frac_app s d u t r :
  lex_frac s = Some (t, r) → delimiter d →
  lex_frac (s +:+ String d u) = Some (t, r +:+ String d u).
Proof.
  unfold lex_frac. intros H Hd. destruct s as [|c s]; cbn.
  - injection H as <- <-. by destruct Hd as [-> | ->].
  - destruct (Ascii.eqb c "."); [|by injection H as <- <-].
    destruct (digits1 s) as [[ds r']|] eqn:Hs; [|done]. cbn in H. injection H as <- <-.
    rewrite (digits1_app s d u ds r'); [done|done|by apply delimiter_not_digit].
Qed.

Lemma lex_exp_app s d u t r :
  lex_exp s = Some (t, r) → delimiter d →
  lex_exp (s +:+ String d u) = Some (t, r +:+ String d u).
Proof.
  unfold lex_exp. intros H Hd. destruct s as [|e s]; cbn.
  - injection H as <- <-. by destruct Hd as [-> | ->].
  - destruct (Ascii.eqb e "e" || Ascii.eqb e "E"); [|by injection H as <- <-].
    destruct s as [|c s]; [done|]. cbn.
    destruct (Ascii.eqb c "+" || Ascii.eqb c "-").
    + destruct (digits1 s) as [[ds r']|] eqn:Hs; [|done]. cbn in H. injection H as <- <-.
      rewrite (digits1_app s d u ds r'); [done|done|by apply delimiter_not_digit].
    + destruct (digits1 (String c s)) as [[ds r']|] eqn:Hs; [|done].
      cbn in H. injection H as <- <-.
      pose proof (digits1_app (String c s) d u ds r' Hs (delimiter_not_digit d Hd)) as Happ.
      cbn in Happ. by rewrite Happ.
Qed.

Lemma lex_number_app s d u t r :
  lex_number s = Some (t, r) → delimiter d →
  lex_number (s +:+ String d u) = Some (t, r +:+ String d u).
Proof.
  unfold lex_number. intros H Hd.
  assert (∃ sign s1, lex_sign s = (sign, s1) ∧
            (s1 ≠ "" → lex_sign (s +:+ String d u) = (sign, s1 +:+ String d u))) 
    as (sign & s1 & Hsign & Hsign').
  { unfold lex_sign. destruct s as [|c s]; cbn.
    - exists "", "". split; [done|]. by intros [].
    - destruct (Ascii.eqb c "-").
      + exists "-", s. by split.
      + exists "", (String c s). by split. }
  rewrite Hsign in H.
  destruct (lex_int s1) as [[int s2]|] eqn:Hint; [|done]. cbn in H.
  destruct (lex_frac s2) as [[frac s3]|] eqn:Hfrac; [|done]. cbn in H.
  destruct (lex_exp s3) as [[exp s4]|] eqn:Hexp; [|done]. cbn in H.
  injection H as <- <-.
  rewrite Hsign' by (intros ->; done).
  rewrite (lex_int_app s1 d u int s2) by done. cbn.
  rewrite (lex_frac_app s2 d u frac s3) by done. cbn.
  by rewrite (lex_exp_app s3 d u exp s4).
Qed.

Lemma lex_number_prefix s t r : lex_number s = Some (t, r) → s = t +:+ r.
Proof.
  unfold lex_number. intros H.
  destruct (lex_sign s) as [sign s1] eqn:Hsign.
  destruct (lex_int s1) as [[int s2]|] eqn:Hint; [|done]. cbn in H.
  destruct (lex_frac s2) as [[frac s3]|] eqn:Hfrac; [|done]. cbn in H.
  destruct (lex_exp s3) as [[exp s4]|] eqn:Hexp; [|done]. cbn in H.
  injection H as <- <-.
  assert (s = sign +:+ s1) as ->.
  { unfold lex_sign in Hsign. destruct s as [|c s]; [by injection Hsign as <- <-|].
    destruct (Ascii.eqb_spec c "-") as [->|_]; by injection Hsign as <- <-. }
  assert (s1 = int +:+ s2) as ->.
  { unfold lex_int in Hint. destruct s1 as [|c s1]; [done|].
    destruct (Ascii.eqb_spec c "0") as [->|_]; [by injection Hint as <- <-|].
    by apply digits1_prefix. }
  assert (s2 = frac +:+ s3) as ->.
  { unfold lex_frac in Hfrac. destruct s2 as [|c s2]; [by injection Hfrac as <- <-|].
    destruct (Ascii.eqb c "."); [|by injection Hfrac as <- <-].
    destruct (digits1 s2) as [[ds r']|] eqn:Hs; [|done]. cbn in Hfrac.
    injection Hfrac as <- <-. cbn. by rewrite <- (digits1_prefix _ _ _ Hs). }
  assert (s3 = exp +:+ s4) as ->.
  { unfold lex_exp in Hexp. destruct s3 as [|e s3]; [by injection Hexp as <- <-|].
    destruct (Ascii.eqb e "e" || Ascii.eqb e "E"); [|by injection Hexp as <- <-].
    destruct s3 as [|c s3]; [done|].
    destruct (Ascii.eqb c "+" || Ascii.eqb c "-").
    - destruct (digits1 s3) as [[ds r']|] eqn:Hs; [|done]. cbn in Hexp.
      injection Hexp as <- <-. cbn. by rewrite <- (digits1_prefix _ _ _ Hs).
    - destruct (digits1 (String c s3)) as [[ds r']|] eqn:Hs; [|done]. cbn in Hexp.
      injection Hexp as <- <-. cbn. by rewrite <- (digits1_prefix _ _ _ Hs). }
  by rewrite !append_assoc.
Qed.

(** A number literal followed by a delimiter is read whole. *)
Lemma lex_number_literal t d u :
  is_number_literal t = true → delimiter d →
  lex_number (t +:+ String d u) = Some (t, String d u).
Proof.
  unfold is_number_literal. intros H Hd.
  destruct (lex_number t) as [[t' [|]]|] eqn:Hl; try done.
  pose proof (lex_number_prefix _ _ _ Hl) as Ht. rewrite append_nil_r in Ht. subst t'.
  by rewrite (lex_number_app t d u t "").
Qed.

(** A number literal begins with a minus or a digit. *)
Lemma number_literal_head t :
  is_number_literal t = true →
  ∃ c t', t = String c t' ∧ Ascii.eqb c DQ = false ∧ Ascii.eqb c "{" = false ∧
          Ascii.eqb c "[" = false ∧ (Ascii.eqb c "-" || is_digit c) = true.
Proof.
  unfold is_number_literal, lex_number, lex_sign. destruct t as [|c t']; [done|].
  intros H. exists c, t'. split; [done|].
  destruct (Ascii.eqb_spec c "-") as [->|Hm]; [done|].
  unfold lex_int in H. destruct (Ascii.eqb_spec c "0") as [->|H0]; [done|].
  unfold digits1 in H. cbn in H. destruct (is_digit c) eqn:Hdig; [|done].
  rewrite orb_true_r.
  unfold is_digit in Hdig. apply between_spec in Hdig.
  repeat split; apply Ascii.eqb_neq; intros ->; unfold byte in Hdig; simpl in Hdig; lia.
Qed.

(** ** [int64] fields *)

Lemma span_digits_uint u :
  span_digits (DecimalString.NilEmpty.string_of_uint u) =
  (DecimalString.NilEmpty.string_of_uint u, "").
Proof. induction u; cbn; [done|..]; by rewrite IHu. Qed.

Lemma to_uint_head p :
  Pos.to_uint p ≠ Decimal.Nil ∧ ∀ u, Pos.to_uint p ≠ Decimal.D0 u.
Proof.
  split; [apply DecimalPos.Unsigned.to_uint_nonnil|].
  intros u Hu.
  pose proof (DecimalPos.Unsigned.to_of (Pos.to_uint p)) as Hnorm.
  rewrite DecimalPos.Unsigned.of_to in Hnorm. cbn in Hnorm.
  pose proof (DecimalPos.Unsigned.to_uint_nonzero p) as Hnz.
  unfold Decimal.unorm in Hnorm.
  destruct (Decimal.nzhead (Pos.to_uint p)) eqn:Hhead;
    [done|by apply DecimalFacts.nzhead_nonzero in Hhead|congruence..].
Qed.

Lemma lex_number_uint u :
  u ≠ Decimal.Nil → (∀ u', u ≠ Decimal.D0 u') →
  lex_number (DecimalString.NilEmpty.string_of_uint u) =
  Some (DecimalString.NilEmpty.string_of_uint u, "").
Proof.
  intros Hnil H0. pose proof (span_digits_uint u) as Hspan.
  unfold lex_number, lex_sign, lex_int, digits1.
  destruct u; try done; try (by destruct (H0 u)); cbn in *;
    rewrite Hspan; cbn; by rewrite append_nil_r.
Qed.

Lemma string_of_uint_nonnil u :
  u ≠ Decimal.Nil →
  DecimalString.NilZero.string_of_uint u = DecimalString.NilEmpty.string_of_uint u.
Proof. by destruct u. Qed.

Lemma lex_number_minus s :
  lex_sign s = ("", s) → lex_number s = Some (s, "") →
  lex_number (String "-" s) = Some (String "-" s, "").
Proof.
  unfold lex_number. intros Hs. rewrite Hs. cbn [lex_sign Ascii.eqb Bool.eqb].
  cbn. intros H.
  destruct (lex_int s) as [[int s2]|]; [|done]. cbn in *.
  destruct (lex_frac s2) as [[frac s3]|]; [|done]. cbn in *.
  destruct (lex_exp s3) as [[exp s4]|]; [|done]. cbn in *.
  by injection H as -> ->.
Qed.

Lemma FormatInt_literal z : is_number_literal (FormatInt z) = true.
Proof.
  unfold is_number_literal, FormatInt. destruct z as [|p|p].
  - reflexivity.
  - destruct (to_uint_head p) as [Hnil H0].
    cbn [Z.to_int DecimalString.NilZero.string_of_int].
    rewrite string_of_uint_nonnil by done. by rewrite lex_number_uint.
  - destruct (to_uint_head p) as [Hnil H0].
    cbn [Z.to_int DecimalString.NilZero.string_of_int].
    rewrite string_of_uint_nonnil by done.
    rewrite lex_number_minus; [done| |by apply lex_number_uint].
    unfold lex_sign. destruct (Pos.to_uint p); try done.
Qed.

Lemma ParseInt64_FormatInt z : in_int64 z → ParseInt64 (FormatInt z) = Some z.
Proof.
  intros Hz. unfold ParseInt64, FormatInt.
  rewrite DecimalString.NilZero.isi.
  - cbn. rewrite DecimalZ.of_to.
    destruct (Z.leb_spec (- 2 ^ 63) z); [|unfold in_int64 in Hz; lia].
    destruct (Z.leb_spec z (2 ^ 63 - 1)); [done|unfold in_int64 in Hz; lia].
  - destruct z; cbn; try done. intros [= H]. by apply DecimalPos.Unsigned.to_uint_nonnil in H.
  - destruct z; cbn; try done. intros [= H]. by apply DecimalPos.Unsigned.to_uint_nonnil in H.
Qed.

Lemma ParseInt64_in_range lit z : ParseInt64 lit = Some z → in_int64 z.
Proof.
  unfold ParseInt64. destruct (DecimalString.NilZero.int_of_string lit) as [i|]; [|done]. cbn.
  destruct (Z.leb_spec (- 2 ^ 63) (Z.of_int i)); [|done].
  destruct (Z.leb_spec (Z.of_int i) (2 ^ 63 - 1)); [|done].
  intros [= <-]. by split.
Qed.

(** ** An object written by [Marshal] is read back by the scanner *)

Ltac norm_append :=
  repeat (progress cbn [String.append] || rewrite append_assoc).

Lemma quote_append s u :
  quote s +:+ u = String DQ (escape_from (String.length s) s +:+ String DQ u).
Proof. unfold quote. cbn. by rewrite append_assoc. Qed.

Lemma reads_string s : valid_utf8 s → reads (quote s) (JString s).
Proof.
  intros Hs fuel depth d u Hd. rewrite quote_append. split; [done|].
  cbn -[unquote]. by rewrite unquote_quote.
Qed.

Lemma reads_number t : is_number_literal t = true → reads t (JNumber t).
Proof.
  intros Ht fuel depth d u Hd.
  destruct (number_literal_head t Ht) as (c & t' & -> & Hq & Hb & Hk & Hnum).
  assert (is_space c = false) as Hsp.
  { destruct (is_space c) eqn:E; [|done]. exfalso.
    assert (c = " "%char ∨ c = "009"%char ∨ c = "010"%char ∨ c = "013"%char) as Hc.
    { destruct c as [[] [] [] [] [] [] [] []]; try done; auto. }
    destruct Hc as [->|[->|[->| ->]]]; done. }
  split.
  - cbn. by rewrite Hsp.
  - pose proof (lex_number_literal _ d u Ht Hd) as Hlex.
    cbn -[lex_number] in *. by rewrite Hq, Hb, Hk, Hnum, Hlex.
Qed.

Lemma delimiter_not_space d : delimiter d → is_space d = false.
Proof. by intros [-> | ->]. Qed.

Lemma members_text_single k v : members_text [(k, v)] = quote k +:+ ":" +:+ v.
Proof. cbn. by rewrite append_nil_r. Qed.

Lemma members_text_cons k v kv2 ms :
  members_text ((k, v) :: kv2 :: ms) =
  quote k +:+ ":" +:+ v +:+ "," +:+ members_text (kv2 :: ms).
Proof. reflexivity. Qed.

Lemma members_text_head kv ms u :
  skip_space (members_text (kv :: ms) +:+ u) = members_text (kv :: ms) +:+ u.
Proof. destruct kv as [k v]. cbn [members_text]. by rewrite quote_append. Qed.

(** The members [ms], as [Marshal] writes them, are read back as [js] when
    every key is well-formed UTF-8 and every value text is read as the
    value beside it. *)
Lemma parse_members_text ms : ∀ js fuel depth u,
  ms ≠ [] →
  Forall2 (λ kv kj, kj.1 = kv.1 ∧ valid_utf8 kv.1 ∧ reads kv.2 kj.2) ms js →
  (List.length ms + 1 ≤ fuel)%nat →
  parse_members fuel depth (members_text ms +:+ String "}" u) = Some (js, u).
Proof.
  induction ms as [|[k v] ms IH]; intros js fuel depth u Hne Hall Hfuel; [done|].
  apply Forall2_cons_inv_l in Hall as ([k' j] & js' & (Hk & Hvk & Hread) & Hall & ->).
  cbn in Hk, Hvk, Hread. subst k'.
  destruct fuel as [|[|fuel]]; [cbn in Hfuel; lia..|].
  remember (S fuel) as fuel1 eqn:Hfuel1.
  destruct ms as [|kv2 ms].
  - apply Forall2_nil_inv_l in Hall as ->.
    rewrite members_text_single, quote_append. norm_append.
    destruct (Hread fuel depth "}"%char u) as [Hsk Hpv]; [by right|].
    rewrite <- Hfuel1 in Hpv.
    cbn [parse_members after_char]. rewrite Ascii.eqb_refl. cbn [mbind option_bind].
    rewrite unquote_quote by done. cbn [mbind option_bind skip_space is_space after_char].
    cbn [Ascii.eqb Bool.eqb andb mbind option_bind].
    rewrite Hsk, Hpv. reflexivity.
  - rewrite members_text_cons, quote_append. norm_append.
    destruct (Hread fuel depth ","%char (members_text (kv2 :: ms) +:+ String "}" u))
      as [Hsk Hpv]; [by left|].
    rewrite <- Hfuel1 in Hpv.
    cbn [parse_members after_char]. rewrite Ascii.eqb_refl. cbn [mbind option_bind].
    rewrite unquote_quote by done. cbn [mbind option_bind skip_space is_space after_char].
    cbn [Ascii.eqb Bool.eqb andb mbind option_bind].
    rewrite Hsk, Hpv.
    cbn [mbind option_bind skip_space is_space after_char Ascii.eqb Bool.eqb andb].
    rewrite members_text_head.
    rewrite (IH js' fuel1 depth u); [done|done|done|cbn in *; lia].
Qed.

Lemma length_quote k : (2 ≤ String.length (quote k))%nat.
Proof. unfold quote. cbn. rewrite length_append. cbn. lia. Qed.

Lemma length_members_text ms :
  (List.length ms ≤ String.length (members_text ms))%nat.
Proof.
  induction ms as [|[k v] ms IH]; cbn [members_text List.length]; [lia|].
  pose proof (length_quote k).
  destruct ms as [|kv2 ms]; rewrite !length_append; cbn [List.length] in *; [lia|].
  cbn [String.length]. lia.
Qed.

Lemma maxNestingDepth_S : ∃ depth, maxNestingDepth = S depth.
Proof. by exists 9999%nat. Qed.

(** The object [Marshal] writes for the members [ms] is read as the object
    with the values [js]. *)
Lemma parse_json_object ms js :
  ms ≠ [] →
  Forall2 (λ kv kj, kj.1 = kv.1 ∧ valid_utf8 kv.1 ∧ reads kv.2 kj.2) ms js →
  parse_json ("{" +:+ members_text ms +:+ "}") = Some (JObject js).
Proof.
  intros Hne Hall. unfold parse_json.
  destruct maxNestingDepth_S as [depth ->].
  destruct ms as [|kv ms]; [done|].
  cbn [String.append skip_space is_space].
  remember (2 * String.length (String "{" (members_text (kv :: ms) +:+ "}")) + 1)%nat
    as fuel eqn:Hfuel.
  replace (2 * String.length (String "{" (members_text (kv :: ms) +:+ "}")) + 2)%nat
    with (S fuel) by lia.
  cbn [parse_value Ascii.eqb Bool.eqb andb DQ].
  rewrite members_text_head.
  assert (after_char "}" (members_text (kv :: ms) +:+ "}") = None) as ->.
  { destruct kv as [k v]. cbn [members_text]. by rewrite quote_append. }
  rewrite (parse_members_text (kv :: ms) js fuel depth ""); [done|done|done|].
  subst fuel. cbn [String.length]. rewrite length_append.
  pose proof (length_members_text (kv :: ms)). lia.
Qed.

(** ** What [decode] produces *)

Lemma parse_value_string_valid fuel depth s str r :
  parse_value fuel depth s = Some (JString str, r) → valid_utf8 str.
Proof.
  destruct fuel as [|fuel]; [done|]. cbn [parse_value].
  destruct s as [|c rest]; [done|].
  destruct (Ascii.eqb c DQ).
  { destruct (unquote rest) as [[str' r']|] eqn:Hu; [|done]. cbn [mbind option_bind].
    intros [= <- <-]. by eapply unquote_valid. }
  destruct (Ascii.eqb c "{").
  { destruct depth; [done|]. destruct (after_char _ _); [done|].
    by destruct (parse_members _ _ _) as [[? ?]|]. }
  destruct (Ascii.eqb c "[").
  { destruct depth; [done|]. destruct (after_char _ _); [done|].
    by destruct (parse_elements _ _ _) as [[? ?]|]. }
  destruct (Ascii.eqb c "-" || is_digit c).
  { by destruct (lex_number _) as [[? ?]|]. }
  destruct (Ascii.eqb c "t"). { by destruct (strip_prefix _ _). }
  destruct (Ascii.eqb c "f"). { by destruct (strip_prefix _ _). }
  destruct (Ascii.eqb c "n"). { by destruct (strip_prefix _ _). }
  done.
Qed.

Lemma parse_members_valid fuel : ∀ depth s ms r,
  parse_members fuel depth s = Some (ms, r) → Forall string_value_valid ms.
Proof.
  induction fuel as [|fuel IH]; intros depth s ms r; [done|]. cbn [parse_members].
  destruct (after_char DQ s) as [r0|]; [|done]. cbn.
  destruct (unquote r0) as [[key r1]|]; [|done]. cbn.
  destruct (after_char ":" (skip_space r1)) as [r2|]; [|done]. cbn.
  destruct (parse_value fuel depth (skip_space r2)) as [[v r3]|] eqn:Hv; [|done]. cbn.
  assert (string_value_valid (key, v)) as Hkv.
  { intros str Hstr. cbn in Hstr. subst v. by eapply parse_value_string_valid. }
  destruct (after_char "," (skip_space r3)) as [r4|].
  - destruct (parse_members fuel depth (skip_space r4)) as [[ms' r5]|] eqn:Hms; [|done].
    cbn. intros [= <- <-]. constructor; [done|by eapply IH].
  - destruct (after_char "}" (skip_space r3)); [|done]. cbn.
    intros [= <- <-]. by constructor.
Qed.

Lemma parse_json_object_valid raw ms :
  parse_json raw = Some (JObject ms) → Forall string_value_valid ms.
Proof.
  unfold parse_json.
  destruct (parse_value _ _ _) as [[v rest]|] eqn:Hv; [|done]. cbn [mbind option_bind].
  destruct (skip_space rest); [|done]. intros [= ->].
  revert Hv. generalize (2 * String.length raw + 2)%nat as fuel.
  generalize maxNestingDepth as depth. generalize (skip_space raw) as s.
  intros s depth fuel. destruct fuel as [|fuel]; [done|]. cbn [parse_value].
  destruct s as [|c rest']; [done|].
  destruct (Ascii.eqb c DQ).
  { by destruct (unquote rest') as [[? ?]|]. }
  destruct (Ascii.eqb c "{").
  { destruct depth as [|depth]; [done|].
    destruct (after_char "}" (skip_space rest')); [by intros [= <- <-]|].
    destruct (parse_members fuel depth (skip_space rest')) as [[ms' r]|] eqn:Hms; [|done].
    cbn [mbind option_bind]. intros [= <- <-]. by eapply parse_members_valid. }
  destruct (Ascii.eqb c "[").
  { destruct depth; [done|]. destruct (after_char _ _); [done|].
    by destruct (parse_elements _ _ _) as [[? ?]|]. }
  destruct (Ascii.eqb c "-" || is_digit c).
  { by destruct (lex_number _) as [[? ?]|]. }
  destruct (Ascii.eqb c "t"). { by destruct (strip_prefix _ _). }
  destruct (Ascii.eqb c "f"). { by destruct (strip_prefix _ _). }
  destruct (Ascii.eqb c "n"). { by destruct (strip_prefix _ _). }
  done.
Qed.

Section RoundTrip.
Context {F : Float64}.

Lemma zero_message_valid : msg_valid zero_message.
Proof. repeat split; try constructor; unfold in_int64; cbn; lia. Qed.

Lemma store_valid f v (m m' : WebSocketMessage) :
  msg_valid m → (∀ str, v = JString str → valid_utf8 str) →
  store f v m = Ok m' → msg_valid m'.
Proof.
  intros (HT & HU & HS & Hts) Hv. unfold store.
  destruct v as [| |lit|s| |], f; cbn; try done;
    repeat match goal with
           | |- context [match ?x with Some _ => _ | None => _ end] =>
               let E := fresh "E" in destruct x eqn:E
           end;
    try done; intros [= <-]; repeat split; cbn; auto;
    first [by apply Hv|by destruct Hts|by apply ParseInt64_in_range in E as [? ?]].
Qed.

Lemma decode_members_valid ms : ∀ (m : WebSocketMessage) saved,
  msg_valid m → Forall string_value_valid ms →
  msg_valid (decode_members ms m saved).1.
Proof.
  induction ms as [|[key v] ms IH]; intros m saved Hm Hall; cbn; [done|].
  apply Forall_cons in Hall as [Hkv Hall].
  destruct (find_field key) as [f|]; [|by apply IH].
  destruct (store f v m) as [m'|e] eqn:Hstore; apply IH; try done.
  eapply store_valid; eauto.
Qed.

Lemma Unmarshal_valid raw m : Unmarshal raw = Ok m → msg_valid m.
Proof.
  unfold Unmarshal.
  destruct (parse_json raw) as [[| | | | |ms]|] eqn:Hparse; try done.
  { intros [= <-]. apply zero_message_valid. }
  pose proof (decode_members_valid ms zero_message None zero_message_valid
                (parse_json_object_valid raw ms Hparse)) as Hvalid.
  destruct (decode_members ms zero_message None) as [m' [e|]]; [done|].
  by intros [= <-].
Qed.

Lemma decode_valid now raw m :
  in_int64 now → decode now raw = Ok m → msg_valid m.
Proof.
  intros Hnow. unfold decode.
  destruct (Unmarshal raw) as [m0|] eqn:Hun; [|done].
  apply Unmarshal_valid in Hun as (HT & HU & HS & Hts).
  intros [= <-]. by destruct (Msg.Timestamp m0 =? 0)%Z.
Qed.

End RoundTrip.

Section RoundTripTheorem.
Context {F : Float64}.

Ltac json_of ms :=
  lazymatch ms with
  | [] => constr:(@nil (string * json))
  | (?k, quote ?s) :: ?rest =>
      let r := json_of rest in constr:((k, JString s) :: r)
  | (?k, ?t) :: ?rest =>
      let r := json_of rest in constr:((k, JNumber t) :: r)
  end.

Ltac valid_key := repeat (apply valid_ascii; [reflexivity|]); apply valid_nil.

Ltac read_back :=
  lazymatch goal with
  | |- parse_json ("{" +:+ members_text ?ms +:+ "}") = Some (JObject ?js) =>
      apply (parse_json_object ms js); [done|];
      repeat first
        [ apply List.Forall2_nil
        | apply List.Forall2_cons;
          [split; [reflexivity|split; [valid_key|first [by apply reads_string
                                                       |by apply reads_number]]]|] ]
  end.

(** [Unmarshal] reads what [Marshal] writes. *)
Lemma Unmarshal_Marshal (m : WebSocketMessage) :
  msg_valid m →
  float_round_trips (Msg.Position m) → float_round_trips (Msg.Volume m) →
  ∃ text, Marshal m = Some text ∧ Unmarshal text = Ok m.
Proof.
  destruct m as [T U S P V ts]. intros (HT & HU & HS & Hts) HP HV. cbn in *.
  pose proof (FormatInt_literal ts) as Hlit.
  pose proof (ParseInt64_FormatInt ts Hts) as Hint.
  unfold float_round_trips in HP, HV.
  unfold Marshal, float_member, string_member. cbn [Msg.Type_ Msg.UserID Msg.SongID
    Msg.Position Msg.Volume Msg.Timestamp].
  destruct (float64_is_zero P);
    [subst P|destruct HP as (tP & -> & HlitP & HparseP)];
  (destruct (float64_is_zero V);
    [subst V|destruct HV as (tV & -> & HlitV & HparseV)]);
  (destruct (String.eqb_spec U "") as [->|_]);
  (destruct (String.eqb_spec S "") as [->|_]);
  cbn [mbind option_bind app field_name];
  (eexists; split; [reflexivity|]);
  unfold Unmarshal;
  lazymatch goal with
  | |- context [parse_json ("{" +:+ members_text ?ms +:+ "}")] =>
      let js := json_of ms in
      assert (parse_json ("{" +:+ members_text ms +:+ "}") = Some (JObject js)) as ->
        by read_back
  end;
  cbn -[ParseInt64 FormatInt]; rewrite ?HparseP, ?HparseV; cbn -[ParseInt64 FormatInt];
  rewrite ?HparseP, ?HparseV; cbn -[ParseInt64 FormatInt];
  rewrite Hint; reflexivity.
Qed.

End RoundTripTheorem.

(** The round trip of the codec, up to [strconv].  A message [m] that
    [decode] produced, at a clock reading after the epoch, is read back
    unchanged from its encoding, given that [strconv] reads back its two
    [float64] values.  What is proved here is the rest: the strings with
    whatever bytes they hold, the optional fields that are empty or zero
    (they are left out of the text and come back empty or zero), the
    timestamp, which is not stamped again.  Whether a [float64] comes back
    is a fact about the correctly rounded parser and the shortest
    formatting of an IEEE binary64 value in [strconv], which the interface
    [Float64] does not decide; it is a premise on the two values at hand. *)
Lemma decode_encode_of_decoded {F : Float64} now0 raw0 now (m : WebSocketMessage) :
  (0 < now0 < 2 ^ 63)%Z →
  decode now0 raw0 = Ok m →
  float_round_trips (Msg.Position m) → float_round_trips (Msg.Volume m) →
  decode now (encode m) = Ok m.
Proof.
  intros Hnow0 Hdec HP HV.
  assert (in_int64 now0) as Hrange by (unfold in_int64; lia).
  pose proof (decode_valid now0 raw0 m Hrange Hdec) as Hvalid.
  assert (Msg.Timestamp m ≠ 0%Z) as Hts.
  { unfold decode in Hdec. destruct (Unmarshal raw0) as [m0|]; [|done].
    injection Hdec as <-.
    destruct (Z.eqb_spec (Msg.Timestamp m0) 0); cbn; [lia|done]. }
  destruct (Unmarshal_Marshal m Hvalid HP HV) as (text & Hmar & Hun).
  unfold encode, decode. rewrite Hmar. simpl. rewrite Hun.
  by destruct (Z.eqb_spec (Msg.Timestamp m) 0).
Qed.

(* ===================================================================== *)
(** * Part V: the loops and the life of a connection                       *)
(* ===================================================================== *)
(** ** One fan-out, whatever the order of the range *)

Lemma State_eq st1 st2 :
  (∀ client, heap st1 !! client = heap st2 !! client) →
  (∀ client, Clients (hub st1) !! client = Clients (hub st2) !! client) →
  st1 = st2.
Proof.
  destruct st1 as [h1 [c1]], st2 as [h2 [c2]]; cbn. intros Hh Hc.
  f_equal; [|f_equal]; by apply map_eq.
Qed.

(** X1: the result of a fan-out does not depend on the order in which the
    range visits the map.  In a state where every registered client has an
    open queue, the iteration of [Run] on a broadcast does not panic, and
    any two orders of the keys give the same state. *)
Theorem Run_Broadcast_order_irrelevant st order1 order2 message :
  hub_inv st →
  range_order (Clients (hub st)) order1 →
  range_order (Clients (hub st)) order2 →
  is_Some (Run_iteration order1 (RecvBroadcast message) st) ∧
  Run_iteration order1 (RecvBroadcast message) st
    = Run_iteration order2 (RecvBroadcast message) st.
Proof.
  intros Hinv Hord1 Hord2. cbn [Run_iteration].
  destruct (Run_Broadcast_spec st order1 message Hinv Hord1) as (s1 & -> & Hout1 & Hin1).
  destruct (Run_Broadcast_spec st order2 message Hinv Hord2) as (s2 & -> & Hout2 & Hin2).
  split; [by eexists|]. f_equal.
  assert (∀ client, heap s1 !! client = heap s2 !! client ∧
                    Clients (hub s1) !! client = Clients (hub s2) !! client) as Hsame.
  { intros client. destruct (decide (registered st client)) as [Hreg|Hno].
    - destruct (open_at_Some _ _ (Hinv _ Hreg)) as (c & Hheap & _).
      specialize (Hin1 client c Hreg Hheap). specialize (Hin2 client c Hreg Hheap).
      destruct (Chan.full (Send c)); destruct Hin1 as [-> ->]; by destruct Hin2 as [-> ->].
    - destruct (Hout1 client Hno) as [-> ->]. by destruct (Hout2 client Hno) as [-> ->]. }
  apply State_eq; intros client; apply Hsame.
Qed.

(** X1 at [room_PQ], for the two orders of its two clients. *)
Lemma Run_Broadcast_order_irrelevant_witness :
  is_Some (Run_iteration [1; 2]%positive (RecvBroadcast "m") room_PQ) ∧
  Run_iteration [1; 2]%positive (RecvBroadcast "m") room_PQ
    = Run_iteration [2; 1]%positive (RecvBroadcast "m") room_PQ.
Proof.
  apply Run_Broadcast_order_irrelevant.
  - apply hub_invb_sound. vm_compute. reflexivity.
  - unfold range_order. vm_compute. apply Permutation_swap.
  - unfold range_order. vm_compute. reflexivity.
Defined.

(** ** A closed queue stays closed *)

Lemma closed_not_registered st client c :
  hub_inv st → heap st !! client = Some c → Chan.closed (Send c) = true →
  ¬ registered st client.
Proof.
  intros Hinv Hheap Hclosed Hreg. specialize (Hinv client Hreg).
  unfold open_at in Hinv. rewrite Hheap, Hclosed in Hinv. done.
Qed.

Lemma closed_sys_step st st1 client c :
  hub_inv st → heap st !! client = Some c → Chan.closed (Send c) = true →
  sys_step st st1 →
  ¬ registered st1 client ∧
  ∃ c1, heap st1 !! client = Some c1 ∧ Chan.closed (Send c1) = true ∧
        Chan.buf (Send c1) `suffix_of` Chan.buf (Send c) ∧
        Chan.cap (Send c1) = Chan.cap (Send c) ∧
        UserID c1 = UserID c ∧ ID c1 = ID c.
Proof.
  intros Hinv Hheap Hclosed Hstep.
  pose proof (closed_not_registered st client c Hinv Hheap Hclosed) as Hno.
  assert (Clients (hub st) !! client = None) as Hnone.
  { destruct (Clients (hub st) !! client) eqn:E; [|done]. destruct Hno. by eexists. }
  destruct Hstep as [client' user_id st1 Hserve|client' st1 [order Hord Hrun]
                    |message st1 [order Hord Hrun]|client' message st1 Hrecv].
  - unfold ServeWebSocket, Run_Register in Hserve.
    destruct (heap st !! client') eqn:Hfresh; [done|]. injection Hserve as <-.
    assert (client' ≠ client) as Hne by congruence.
    split.
    + unfold registered; cbn. rewrite lookup_insert_ne by done. by rewrite Hnone; intros [? ?].
    + exists c. cbn. by rewrite lookup_insert_ne.
  - cbn in Hrun. destruct (decide (client' = client)) as [->|Hne].
    + rewrite Run_Unregister_absent in Hrun by done. injection Hrun as <-.
      split; [done|]. by exists c.
    + unfold Run_Unregister in Hrun.
      destruct (Clients (hub st) !! client') eqn:Hreg'.
      * destruct (heap st !! client') as [c'|] eqn:Hheap'; [|done]. cbn in Hrun.
        destruct (Chan.close (Send c')) as [ch|]; [|done]. cbn in Hrun.
        injection Hrun as <-. split.
        -- unfold registered; cbn. rewrite lookup_delete_ne by done.
           by rewrite Hnone; intros [? ?].
        -- exists c. cbn. by rewrite lookup_insert_ne.
      * injection Hrun as <-. split; [done|]. by exists c.
  - cbn in Hrun.
    destruct (Run_Broadcast_spec st order message Hinv Hord) as (s1 & Hs1 & Hout & _).
    rewrite Hrun in Hs1. injection Hs1 as <-.
    destruct (Hout client Hno) as [Hh Hc]. split.
    + unfold registered. by rewrite Hc; intros [? ?].
    + exists c. by rewrite Hh.
  - unfold writePump_recv in Hrecv.
    destruct (heap st !! client') as [c'|] eqn:Hheap'; [|done]. cbn in Hrecv.
    destruct (Chan.recv (Send c')) as [m ch| |] eqn:Hr; [|done..].
    injection Hrecv as <- <-. split; [done|]. cbn.
    destruct (decide (client' = client)) as [->|Hne].
    + rewrite lookup_insert_eq.
      assert (c' = c) as -> by congruence.
      unfold Chan.recv in Hr. destruct (Chan.buf (Send c)) as [|m' rest] eqn:Hbuf.
      { by destruct (Chan.closed (Send c)). }
      injection Hr as <- <-. eexists. split; [done|]. cbn.
      repeat split; try done. by apply suffix_cons_r.
    + exists c. by rewrite lookup_insert_ne.
Qed.

(** X2: a closed queue stays closed.  Once the [Send] channel of a client
    object is closed, then after any number of steps of the program (new
    connections, unregistrations, broadcasts, receives of [writePump]) the
    client is not registered, its channel is still closed, nothing has been
    added to it (what it holds is what is left of what it held), and its
    capacity, [UserID] and [ID] are as they were. *)
Theorem closed_queue_stays_closed st st' client c :
  hub_inv st → heap st !! client = Some c → Chan.closed (Send c) = true →
  rtc sys_step st st' →
  ¬ registered st' client ∧
  ∃ c', heap st' !! client = Some c' ∧ Chan.closed (Send c') = true ∧
        Chan.buf (Send c') `suffix_of` Chan.buf (Send c) ∧
        Chan.cap (Send c') = Chan.cap (Send c) ∧
        UserID c' = UserID c ∧ ID c' = ID c.
Proof.
  intros Hinv Hheap Hclosed Hsteps. revert c Hinv Hheap Hclosed.
  induction Hsteps as [st|st st1 st' Hstep Hsteps IH]; intros c Hinv Hheap Hclosed.
  - split; [by eapply closed_not_registered|]. by exists c.
  - destruct (closed_sys_step st st1 client c Hinv Hheap Hclosed Hstep)
      as (_ & c1 & Hheap1 & Hclosed1 & Hsuf1 & Hcap1 & Hu1 & Hi1).
    destruct (IH c1 (hub_inv_sys_step _ _ Hinv Hstep) Hheap1 Hclosed1)
      as (Hno & c' & Hheap' & Hclosed' & Hsuf' & Hcap' & Hu' & Hi').
    split; [done|]. exists c'. repeat split; try congruence.
    by etrans.
Qed.

(** ** Runs of [Hub.Run] *)


Lemma Run_step_Broadcast st message st1 :
  hub_inv st → Run_step st (RecvBroadcast message) st1 →
  hub_inv st1 ∧
  (∀ client, ¬ registered st client →
     heap st1 !! client = heap st !! client ∧ ¬ registered st1 client) ∧
  (∀ client c, registered st client → heap st !! client = Some c →
     if Chan.full (Send c)
     then heap st1 !! client = Some (after_close c) ∧ ¬ registered st1 client
     else heap st1 !! client = Some (after_send message c) ∧ registered st1 client).
Proof.
  intros Hinv [order Hord Hrun]. cbn in Hrun.
  split; [by eapply hub_inv_Broadcast|].
  destruct (Run_Broadcast_spec st order message Hinv Hord) as (s1 & Hs1 & Hout & Hin).
  rewrite Hrun in Hs1. injection Hs1 as <-. split.
  - intros client Hno. destruct (Hout client Hno) as [-> Hc].
    split; [done|]. unfold registered. by rewrite Hc; intros [? ?].
  - intros client c Hreg Hheap. specialize (Hin client c Hreg Hheap).
    destruct (Chan.full (Send c)); destruct Hin as [-> Hc]; (split; [done|]);
      unfold registered; rewrite Hc; [by intros [? ?]|done].
Qed.

Lemma Run_step_Unregister st client st1 :
  hub_inv st → Run_step st (RecvUnregister client) st1 →
  hub_inv st1 ∧ ¬ registered st1 client ∧
  (∀ other, other ≠ client →
     heap st1 !! other = heap st !! other ∧
     (registered st1 other ↔ registered st other)) ∧
  (¬ registered st client → st1 = st) ∧
  (∀ c, registered st client → heap st !! client = Some c →
     heap st1 !! client = Some (after_close c)).
Proof.
  intros Hinv [order Hord Hrun]. cbn in Hrun.
  split; [by eapply hub_inv_Unregister|].
  destruct (decide (registered st client)) as [Hreg|Hno].
  - destruct (open_at_Some _ _ (Hinv _ Hreg)) as (c & Hheap & Hopen).
    rewrite (Run_Unregister_present st client c) in Hrun by auto.
    injection Hrun as <-. unfold registered; cbn.
    split; [rewrite lookup_delete_eq; by intros [? ?]|]. split; [|split].
    + intros other Hne. rewrite lookup_insert_ne by done.
      by rewrite lookup_delete_ne.
    + done.
    + intros c' _ Hheap'. rewrite lookup_insert_eq. congruence.
  - rewrite Run_Unregister_absent in Hrun by done. injection Hrun as <-.
    repeat split; done.
Qed.

Lemma Run_steps_app st evs1 evs2 st' :
  Run_steps st (evs1 ++ evs2) st' ↔
  ∃ st1, Run_steps st evs1 st1 ∧ Run_steps st1 evs2 st'.
Proof.
  revert st. induction evs1 as [|ev evs1 IH]; intros st; cbn.
  - split.
    + intros H. exists st. split; [constructor|done].
    + intros (st1 & H1 & H2). by inversion H1; subst.
  - split.
    + intros H. inversion H as [|? ? s1 ? ? Hstep Hrest]; subst.
      apply IH in Hrest as (st1 & H1 & H2). exists st1. split; [|done].
      by econstructor.
    + intros (st1 & H1 & H2). inversion H1 as [|? ? s1 ? ? Hstep Hrest]; subst.
      econstructor; [done|]. apply IH. by exists st1.
Qed.

Lemma Run_steps_exists st events :
  hub_inv st → no_Register events → ∃ st', Run_steps st events st'.
Proof.
  revert st. induction events as [|ev events IH]; intros st Hinv Hno.
  - exists st. constructor.
  - apply Forall_cons in Hno as [Hev Hno].
    destruct (Run_iteration_no_panic st (default_order st) ev Hinv
                (default_order_range st)) as [st1 Hrun].
    assert (Run_step st ev st1) as Hstep
      by (econstructor; [apply default_order_range|done]).
    assert (hub_inv st1) as Hinv1.
    { eapply hub_inv_Run_step; [done| |done]. intros client ->. by destruct (Hev client). }
    destruct (IH st1 Hinv1 Hno) as [st' Hrest]. exists st'. by econstructor.
Qed.

Lemma Run_steps_hub_inv st events st' :
  hub_inv st → no_Register events → Run_steps st events st' → hub_inv st'.
Proof.
  intros Hinv Hno Hrun. induction Hrun as [|st ev st1 events st' Hstep Hrest IH]; [done|].
  apply Forall_cons in Hno as [Hev Hno]. apply IH; [|done].
  eapply hub_inv_Run_step; [done| |done]. intros client ->. by destruct (Hev client).
Qed.

Lemma no_Register_broadcasts msgs : no_Register (RecvBroadcast <$> msgs).
Proof. apply Forall_fmap, Forall_forall. intros m _ client. cbn. done. Qed.

(** Broadcasts leave a client that is not registered as it is. *)
Lemma Run_steps_broadcasts_unregistered msgs : ∀ st st' client,
  hub_inv st → ¬ registered st client →
  Run_steps st (RecvBroadcast <$> msgs) st' →
  heap st' !! client = heap st !! client ∧ ¬ registered st' client.
Proof.
  induction msgs as [|m msgs IH]; intros st st' client Hinv Hno Hrun; cbn in Hrun.
  - by inversion Hrun; subst.
  - inversion Hrun as [|? ? st1 ? ? Hstep Hrest]; subst.
    destruct (Run_step_Broadcast st m st1 Hinv Hstep) as (Hinv1 & Hout & _).
    destruct (Hout client Hno) as [Hh Hno1].
    destruct (IH st1 st' client Hinv1 Hno1 Hrest) as [Hh' Hno']. split; [congruence|done].
Qed.

Lemma after_broadcasts_nil c : Chan.closed (Send c) = false → after_broadcasts [] c = c.
Proof.
  destruct c as [i [b n cl] u]. unfold after_broadcasts, room, with_Send; cbn.
  intros ->. rewrite take_nil, app_nil_r. done.
Qed.

(** Broadcasts that no [writePump] drains: the queue of a registered client
    takes them while it has room and is closed by the first one after. *)
Lemma Run_steps_broadcasts msgs : ∀ st st' client c,
  hub_inv st → registered st client → heap st !! client = Some c →
  Run_steps st (RecvBroadcast <$> msgs) st' →
  heap st' !! client = Some (after_broadcasts msgs c) ∧
  (registered st' client ↔ (List.length msgs ≤ room c)%nat).
Proof.
  induction msgs as [|m msgs IH]; intros st st' client c Hinv Hreg Hheap Hrun; cbn in Hrun.
  - inversion Hrun; subst. destruct (open_at_Some _ _ (Hinv _ Hreg)) as (c' & Hheap' & Hopen).
    assert (c' = c) as -> by congruence.
    rewrite after_broadcasts_nil by done. split; [done|]. split; [cbn; lia|done].
  - inversion Hrun as [|? ? st1 ? ? Hstep Hrest]; subst.
    destruct (Run_step_Broadcast st m st1 Hinv Hstep) as (Hinv1 & _ & Hin).
    specialize (Hin client c Hreg Hheap).
    destruct c as [i [b n cl] u]. unfold after_broadcasts, room in *.
    unfold Chan.full in Hin. cbn in *.
    destruct (n <=? List.length b)%nat eqn:Hfull.
    + apply Nat.leb_le in Hfull. destruct Hin as [Hheap1 Hno1].
      destruct (Run_steps_broadcasts_unregistered msgs st1 st' client Hinv1 Hno1 Hrest)
        as [Hh' Hno'].
      rewrite Hh', Hheap1. unfold after_close, with_Send; cbn.
      replace (n - List.length b)%nat with 0%nat by lia. cbn. rewrite app_nil_r.
      split; [|split; [done|lia]].
      solve [done | do 3 f_equal; try done; symmetry; apply bool_decide_eq_true; lia].
    + apply Nat.leb_gt in Hfull. destruct Hin as [Hheap1 Hreg1].
      destruct (IH st1 st' client _ Hinv1 Hreg1 Hheap1 Hrest) as [Hh' Hiff].
      unfold after_send, with_Send in *; cbn in *.
      rewrite Hh'. rewrite length_app in *; cbn in *.
      replace (n - List.length b)%nat with (S (n - (List.length b + 1)))%nat by lia.
      cbn. rewrite <- app_assoc. cbn. split.
      * do 3 f_equal. apply bool_decide_ext. lia.
      * rewrite Hiff. lia.
Qed.

(** X3: broadcasts that no [writePump] drains.  For a registered client
    whose queue has room for [room c] more messages, the iterations of
    [Run] on the broadcasts [msgs] never panic, and they leave in its queue
    what it held followed by the first [room c] of [msgs], in their order;
    the client is still registered exactly when all of [msgs] fitted, and
    its queue is closed exactly when they did not. *)
Theorem unread_queue_fills_then_closes st msgs client c :
  hub_inv st → registered st client → heap st !! client = Some c →
  (∃ st', Run_steps st (RecvBroadcast <$> msgs) st') ∧
  ∀ st', Run_steps st (RecvBroadcast <$> msgs) st' →
    heap st' !! client = Some (after_broadcasts msgs c) ∧
    (registered st' client ↔ (List.length msgs ≤ room c)%nat).
Proof.
  intros Hinv Hreg Hheap. split.
  - apply Run_steps_exists; [done|apply no_Register_broadcasts].
  - intros st' Hrun. by apply (Run_steps_broadcasts msgs st st' client c).
Qed.

(** ** A connection from [ServeWebSocket] to the end of [readPump] *)

Section Session.
Context {F : Float64}.

Lemma readPump_shape c frames :
  readPump c frames
    = ((RecvBroadcast <$> broadcasts (readPump c frames)) ++ [RecvUnregister c])%list ∧
  (List.length (broadcasts (readPump c frames)) ≤ List.length frames)%nat.
Proof.
  induction frames as [|[now message] frames [IH1 IH2]]; [done|].
  cbn [readPump]. unfold readPump_frame. destruct (decode now message) as [m|e].
  - change (broadcasts (RecvBroadcast (encode m) :: readPump c frames))
      with (encode m :: broadcasts (readPump c frames)).
    split; [|cbn [List.length]; lia].
    rewrite fmap_cons. cbn [app]. by f_equal.
  - split; [done|cbn [List.length]; lia].
Qed.

Lemma ServeWebSocket_registers st client user_id st1 :
  ServeWebSocket client user_id st = Some st1 →
  heap st !! client = None ∧
  registered st1 client ∧ heap st1 !! client = Some (new_Client user_id).
Proof.
  unfold ServeWebSocket, Run_Register.
  destruct (heap st !! client) eqn:Hfresh; [done|]. intros [= <-].
  split; [done|]. unfold registered; cbn. rewrite !lookup_insert_eq. by split; [eexists|].
Qed.

Lemma readPump_broadcasts c frames :
  broadcasts (readPump c frames) = omap forwarded frames.
Proof.
  induction frames as [|[now message] frames IH]; [done|].
  cbn [readPump omap list_omap]. unfold readPump_frame, forwarded at 1.
  cbn [fst snd]. destruct (decode now message) as [m|e]; [|exact IH].
  change (broadcasts (RecvBroadcast (encode m) :: readPump c frames))
    with (encode m :: broadcasts (readPump c frames)).
  by rewrite IH.
Qed.

(** X4: a connection from [ServeWebSocket] to the end of [readPump].
    [readPump] sends one broadcast for each frame that decodes, which is the
    encoding of the message the frame decodes to at the clock reading of
    its round, in the order of the frames and with nothing for a frame that
    does not decode, and then exactly one [Unregister], for its own client.
    When [Run] handles these events after the registration, it does not
    panic, whatever the frames were, and at the end the client is not
    registered and its queue is closed; with no [writePump] receiving, the
    queue holds the first 256 of the client's own broadcasts. *)
Theorem readPump_session st client user_id frames st1 :
  hub_inv st → ServeWebSocket client user_id st = Some st1 →
  broadcasts (readPump client frames) = omap forwarded frames ∧
  readPump client frames
    = ((RecvBroadcast <$> omap forwarded frames) ++ [RecvUnregister client])%list ∧
  readPump client frames
    = ((RecvBroadcast <$> broadcasts (readPump client frames))
       ++ [RecvUnregister client])%list ∧
  (List.length (broadcasts (readPump client frames)) ≤ List.length frames)%nat ∧
  (∃ st2, Run_steps st1 (readPump client frames) st2) ∧
  ∀ st2, Run_steps st1 (readPump client frames) st2 →
    hub_inv st2 ∧ ¬ registered st2 client ∧
    heap st2 !! client
      = Some (mkClient "" (Chan.mk (take 256 (omap forwarded frames)) 256 true) user_id) ∧
    heap st2 !! client
      = Some (mkClient "" (Chan.mk (take 256 (broadcasts (readPump client frames)))
                                   256 true) user_id).
Proof.
  intros Hinv Hserve.
  pose proof (readPump_broadcasts client frames) as Hsent.
  split; [done|]. rewrite <- Hsent. split; [apply readPump_shape|].
  set (sent := broadcasts (readPump client frames)).
  destruct (readPump_shape client frames) as [Hshape Hlen]. fold sent in Hshape, Hlen.
  assert (no_Register (readPump client frames)) as Hnoreg.
  { rewrite Hshape. apply Forall_app. split; [apply no_Register_broadcasts|].
    apply Forall_singleton. done. }
  pose proof (hub_inv_ServeWebSocket st client user_id st1 Hinv Hserve) as Hinv1.
  destruct (ServeWebSocket_registers st client user_id st1 Hserve) as (_ & Hreg1 & Hheap1).
  split; [done|]. split; [done|]. split; [by apply Run_steps_exists|].
  intros st2 Hrun. split; [by eapply Run_steps_hub_inv|].
  rewrite Hshape in Hrun. apply Run_steps_app in Hrun as (sa & Hbro & Hunreg).
  destruct (Run_steps_broadcasts sent st1 sa client _ Hinv1 Hreg1 Hheap1 Hbro) as [Hheapa Hrega].
  pose proof (Run_steps_hub_inv st1 _ sa Hinv1 (no_Register_broadcasts sent) Hbro) as Hinva.
  inversion Hunreg as [|? ? sb ? ? Hstep Hnil]; subst. inversion Hnil; subst.
  destruct (Run_step_Unregister sa client st2 Hinva Hstep) as (_ & Hno2 & _ & Habsent & Hpresent).
  split; [done|].
  assert (heap st2 !! client
          = Some (mkClient "" (Chan.mk (take 256 sent) 256 true) user_id)) as Hend; [|done].
  destruct (decide (registered sa client)) as [Hreg|Hno].
  - by rewrite (Hpresent _ Hreg Hheapa).
  - rewrite (Habsent Hno), Hheapa.
    unfold after_broadcasts, room, new_Client, with_Send; cbn.
    do 3 f_equal. apply bool_decide_eq_true.
    rewrite Hrega in Hno. unfold room in Hno; cbn in Hno. lia.
Qed.

End Session.

(** ** [writePump] *)

Lemma writePump_loop_ends b : ∀ fuel socket n cl,
  (List.length b < fuel)%nat →
  ∃ sent lost rest, b = (sent ++ lost ++ rest)%list ∧
    pump_ends socket (Chan.mk b n cl) sent lost rest
      (writePump_loop fuel socket (Chan.mk b n cl)).
Proof.
  induction b as [|m b IH]; intros fuel socket n cl Hfuel;
    (destruct fuel as [|fuel]; [cbn in Hfuel; lia|]); cbn [writePump_loop].
  - exists [], [], []. split; [done|]. unfold Chan.recv; cbn.
    destruct cl; [right; left|left]; done.
  - unfold Chan.recv; cbn [Chan.buf Chan.cap Chan.closed].
    assert (List.length b < fuel)%nat as Hfuel' by (cbn in Hfuel; lia).
    destruct socket as [|o socket]; cbn [next_write].
    + destruct (IH fuel [] n cl Hfuel') as (sent & lost & rest & -> & Hends).
      exists (m :: sent), lost, rest. split; [done|].
      destruct Hends as [(Hcl & -> & -> & ->)|[(Hcl & -> & -> & ->)|(m' & o & -> & Ho & _)]].
      * left. cbn in *. done.
      * right; left. cbn in *. done.
      * by rewrite lookup_nil in Ho.
    + destruct o.
      * destruct (IH fuel socket n cl Hfuel') as (sent & lost & rest & -> & Hends).
        exists (m :: sent), lost, rest. split; [done|].
        destruct Hends as [(Hcl & -> & -> & ->)|[(Hcl & -> & -> & ->)
                          |(m' & o & -> & Ho & Hne & ->)]].
        -- left. cbn in *. done.
        -- right; left. cbn in *. done.
        -- right; right. exists m', o. cbn in *. done.
      * exists [], [m], b. split; [done|]. right; right.
        exists m, NextWriterErr. done.
      * exists [], [m], b. split; [done|]. right; right.
        exists m, WriterCloseErr. done.
Qed.

(** X5: [writePump] neither reorders, nor repeats, nor invents a message.
    A run of the loop on a queue always ends, in one of three ways: it has
    written every pending message and waits, the queue being open; it has
    written every pending message and then the close message, the queue
    being closed; or the socket failed, and then the messages before the
    failure were written in their order, the one in hand is lost, and the
    rest is still in the queue. *)
Theorem writePump_conserves_messages socket ch :
  ∃ sent lost rest, Chan.buf ch = (sent ++ lost ++ rest)%list ∧
    pump_ends socket ch sent lost rest (writePump socket ch).
Proof.
  destruct ch as [b n cl]. unfold writePump. cbn [Chan.buf].
  apply writePump_loop_ends. lia.
Qed.

(** X6: on a socket that takes every write, [writePump] writes the pending
    messages in the order they were queued and empties the queue; on a
    closed queue it then writes the close message and returns, on an open
    one it waits. *)
Theorem writePump_healthy_socket socket ch :
  Forall (λ o, o = WriteOk) socket →
  writePump socket ch =
    (((TextMessage <$> Chan.buf ch) ++ (if Chan.closed ch then [CloseMessage] else []))%list,
     Chan.mk [] (Chan.cap ch) (Chan.closed ch),
     Some (if Chan.closed ch then Returned else Waiting)).
Proof.
  intros Hok.
  destruct (writePump_loop_ends (Chan.buf ch) (S (List.length (Chan.buf ch))) socket
              (Chan.cap ch) (Chan.closed ch) ltac:(lia))
    as (sent & lost & rest & Hbuf & Hends).
  destruct ch as [b n cl]. unfold writePump, pump_ends in *.
  cbn [Chan.buf Chan.cap Chan.closed] in *.
  destruct Hends as [(-> & -> & -> & ->)|[(-> & -> & -> & ->)|(m & o & -> & Ho & Hne & _)]].
  - rewrite !app_nil_r in Hbuf. subst b. by rewrite app_nil_r.
  - rewrite !app_nil_r in Hbuf. by subst b.
  - apply (Forall_lookup_1 _ _ _ _ Hok) in Ho. done.
Qed.

(** ** What stays true of every reachable state *)


Lemma ID_unset_sys_step st st' :
  hub_inv st → ID_unset st → sys_step st st' → ID_unset st'.
Proof.
  intros Hinv HID Hstep client c' Hheap'.
  destruct Hstep as [client' user_id st1 Hserve|client' st1 Hstep
                    |message st1 Hstep|client' message st1 Hrecv].
  - unfold ServeWebSocket, Run_Register in Hserve.
    destruct (heap st !! client') eqn:Hfresh; [done|]. injection Hserve as <-.
    cbn in Hheap'. apply lookup_insert_Some in Hheap' as [[_ <-]|[_ Hheap']]; [done|].
    by apply (HID client).
  - destruct (Run_step_Unregister st client' st1 Hinv Hstep) as (_ & _ & Hother & Habs & Hpres).
    destruct (decide (client = client')) as [->|Hne].
    + destruct (decide (registered st client')) as [Hreg|Hno].
      * destruct (open_at_Some _ _ (Hinv _ Hreg)) as (c & Hheap & _).
        rewrite (Hpres c Hreg Hheap) in Hheap'. injection Hheap' as <-.
        cbn. by apply (HID client').
      * rewrite (Habs Hno) in Hheap'. by apply (HID client').
    + destruct (Hother client Hne) as [Hh _]. rewrite Hh in Hheap'. by apply (HID client).
  - destruct (Run_step_Broadcast st message st1 Hinv Hstep) as (_ & Hout & Hin).
    destruct (decide (registered st client)) as [Hreg|Hno].
    + destruct (open_at_Some _ _ (Hinv _ Hreg)) as (c & Hheap & _).
      specialize (Hin client c Hreg Hheap).
      destruct (Chan.full (Send c)); destruct Hin as [Hh _]; rewrite Hh in Hheap';
        injection Hheap' as <-; cbn; by apply (HID client).
    + destruct (Hout client Hno) as [Hh _]. rewrite Hh in Hheap'. by apply (HID client).
  - unfold writePump_recv in Hrecv.
    destruct (heap st !! client') as [c|] eqn:Hheap; [|done]. cbn in Hrecv.
    destruct (Chan.recv (Send c)) as [m ch| |]; [|done..].
    injection Hrecv as <- <-. cbn in Hheap'.
    apply lookup_insert_Some in Hheap' as [[_ <-]|[_ Hheap']].
    + cbn. by apply (HID client').
    + by apply (HID client).
Qed.

Lemma reachable_ID_unset st : reachable st → ID_unset st.
Proof.
  intros Hreach. assert (hub_inv st ∧ ID_unset st) as [_ H]; [|done].
  revert st Hreach. apply (rtc_ind_r (λ st, hub_inv st ∧ ID_unset st) init).
  - split; [apply hub_inv_init|]. intros client c Hc. cbn in Hc.
    by rewrite lookup_empty in Hc.
  - intros st st' _ Hstep [Hinv HID]. split.
    + by eapply hub_inv_sys_step.
    + by eapply ID_unset_sys_step.
Qed.

(** X8: what holds of every reachable state.  Every client object has a
    queue of capacity 256 that holds at most 256 messages, and an empty
    [ID], which [ServeWebSocket] does not set; the value the registry holds
    for a registered client is [true]. *)
Theorem reachable_client_objects st :
  reachable st →
  (∀ client c, heap st !! client = Some c →
     Chan.cap (Send c) = 256%nat ∧ (List.length (Chan.buf (Send c)) ≤ 256)%nat ∧
     ID c = "") ∧
  (∀ client, registered st client → Clients (hub st) !! client = Some true).
Proof.
  intros Hreach. split.
  - intros client c Hheap.
    destruct (reachable_bounded_queues st Hreach client c Hheap) as [Hcap Hlen].
    split; [done|]. split; [done|]. by apply (reachable_ID_unset st Hreach client).
  - intros client [b Hb]. by rewrite (reachable_all_true st Hreach client b Hb) in Hb.
Qed.

(** ** [SendPlaySync] and [SendPauseSync] *)

Section Senders.
Context {F : Float64}.

Lemma decode_encode (m : WebSocketMessage) now :
  msg_valid m → Msg.Timestamp m ≠ 0%Z →
  float_round_trips (Msg.Position m) → float_round_trips (Msg.Volume m) →
  decode now (encode m) = Ok m.
Proof.
  intros Hvalid Hts HP HV.
  destruct (Unmarshal_Marshal m Hvalid HP HV) as (text & Hmar & Hun).
  unfold encode, decode. rewrite Hmar. simpl. rewrite Hun.
  by destruct (Z.eqb_spec (Msg.Timestamp m) 0).
Qed.

Ltac valid_literal :=
  repeat (apply valid_ascii; [by vm_compute|]); apply valid_nil.

(** X9: what [SendPlaySync] sends is read by [decode], at any later time,
    as the message of kind [play] with the user, the song, the position and
    the time of sending it was given, and no volume.  The identifiers are
    well-formed UTF-8, the clock reads after the epoch, and [strconv] reads
    the position back. *)
Theorem SendPlaySync_decodes now now' userID songID position :
  (0 < now < 2 ^ 63)%Z → valid_utf8 userID → valid_utf8 songID →
  float_round_trips position → float64_is_zero float64_zero = true →
  ∃ frame, SendPlaySync now userID songID position = RecvBroadcast frame ∧
    decode now' frame
      = Ok (Msg.mk PlayMessage userID songID position float64_zero now).
Proof.
  intros Hnow Hu Hs Hp Hz. eexists. split; [reflexivity|].
  apply decode_encode; cbn.
  - repeat split; try done; [unfold PlayMessage; valid_literal|cbn; lia..].
  - lia.
  - done.
  - unfold float_round_trips. by rewrite Hz.
Qed.

(** X10: what [SendPauseSync] sends is read by [decode], at any later
    time, as the message of kind [pause] with the user, the position and the
    time of sending it was given, and neither a song nor a volume.  As for
    [SendPlaySync], this is for a user identifier that is well-formed
    UTF-8, a clock that reads after the epoch and within [int64], a
    position that [strconv] reads back (one that is zero, or is written as
    a number literal that is read as the same value), and a zero of
    [float64] that passes the test behind [omitempty]. *)
Theorem SendPauseSync_decodes now now' userID position :
  (0 < now < 2 ^ 63)%Z → valid_utf8 userID →
  float_round_trips position → float64_is_zero float64_zero = true →
  ∃ frame, SendPauseSync now userID position = RecvBroadcast frame ∧
    decode now' frame
      = Ok (Msg.mk PauseMessage userID "" position float64_zero now).
Proof.
  intros Hnow Hu Hp Hz. eexists. split; [reflexivity|].
  apply decode_encode; cbn.
  - repeat split; try done; [unfold PauseMessage; valid_literal|constructor|cbn; lia..].
  - lia.
  - done.
  - unfold float_round_trips. by rewrite Hz.
Qed.

End Senders.

(** ** Which member sets a field *)

Section LastValue.
Context {F : Float64}.

Lemma last_value_snoc f ms kv :
  last_value f (ms ++ [kv]) =
    if names f kv && negb (is_null kv.2) then Some kv.2 else last_value f ms.
Proof.
  unfold last_value. rewrite List.filter_app. cbn [List.filter].
  destruct (names f kv && negb (is_null kv.2)).
  - by rewrite last_snoc.
  - by rewrite app_nil_r.
Qed.

Lemma decode_members_last ms : ∀ (m0 m : WebSocketMessage),
  decode_members ms m0 None = (m, None) →
  Msg.Type_ m = string_or (Msg.Type_ m0) (last_value FType ms) ∧
  Msg.UserID m = string_or (Msg.UserID m0) (last_value FUserID ms) ∧
  Msg.SongID m = string_or (Msg.SongID m0) (last_value FSongID ms) ∧
  Msg.Position m = float_or (Msg.Position m0) (last_value FPosition ms) ∧
  Msg.Volume m = float_or (Msg.Volume m0) (last_value FVolume ms) ∧
  Msg.Timestamp m = int_or (Msg.Timestamp m0) (last_value FTimestamp ms).
Proof.
  induction ms as [|[key v] ms IH] using rev_ind; intros m0 m Hdec.
  { cbn in Hdec. injection Hdec as <-. done. }
  rewrite decode_members_app in Hdec.
  destruct (decode_members ms m0 None) as [m1 saved] eqn:Hms. cbn [fst snd] in Hdec.
  assert (saved = None) as ->.
  { pose proof (decode_members_no_error [(key, v)] m1 saved) as [Hiff _].
    rewrite Hdec in Hiff. by destruct Hiff. }
  specialize (IH m0 m1 Hms) as (HT & HU & HS & HP & HV & Hts).
  rewrite !last_value_snoc. unfold names. cbn [fst snd decode_members] in *.
  destruct (find_field key) as [f|]; [|by injection Hdec as <-].
  destruct (store f v m1) as [m'|e] eqn:Hstore; [|done]. injection Hdec as <-.
  destruct m1 as [T1 U1 S1 P1 V1 ts1]. cbn in *. subst.
  destruct f, v; cbn in Hstore |- *; try done;
    repeat match type of Hstore with
           | context [match ?x with Some _ => _ | None => _ end] => destruct x eqn:?
           end;
    try done; injection Hstore as <-; cbn; done.
Qed.

(** X11: which member sets a field.  When a payload that is a JSON object
    decodes, each field of the message is what the last member that names
    the field, in any letter case, and is not [null] gives it, and the
    empty string or zero when there is no such member: members that name no
    field are ignored, and a later member overrides an earlier one.  The
    timestamp is then stamped when it is zero. *)
Theorem decode_takes_last_values now raw ms (m : WebSocketMessage) :
  parse_json raw = Some (JObject ms) → decode now raw = Ok m →
  Msg.Type_ m = string_or "" (last_value FType ms) ∧
  Msg.UserID m = string_or "" (last_value FUserID ms) ∧
  Msg.SongID m = string_or "" (last_value FSongID ms) ∧
  Msg.Position m = float_or float64_zero (last_value FPosition ms) ∧
  Msg.Volume m = float_or float64_zero (last_value FVolume ms) ∧
  Msg.Timestamp m =
    (if (int_or 0 (last_value FTimestamp ms) =? 0)%Z then now
     else int_or 0 (last_value FTimestamp ms)).
Proof.
  intros Hparse. unfold decode, Unmarshal. rewrite Hparse.
  destruct (decode_members ms zero_message None) as [m0 [e|]] eqn:Hdec; [done|].
  intros [= <-].
  destruct (decode_members_last ms zero_message m0 Hdec) as (HT & HU & HS & HP & HV & Hts).
  cbn in *. rewrite <- Hts.
  by destruct (Msg.Timestamp m0 =? 0)%Z.
Qed.

End LastValue.

(** ** From the hub to the socket *)

(** X7: from the hub to the socket.  After the iterations of [Run] on the
    broadcasts [msgs], the [writePump] of a client that was registered, on a
    socket that takes every write, writes what the queue held and then the
    broadcasts, each once and in their order: all of them when they fitted
    in the queue, after which it waits for more; the first [room c] of them
    followed by the close message when they did not. *)
Theorem broadcasts_delivered_in_order st msgs st' client c socket :
  hub_inv st → registered st client → heap st !! client = Some c →
  Run_steps st (RecvBroadcast <$> msgs) st' →
  Forall (λ o, o = WriteOk) socket →
  ∃ c', heap st' !! client = Some c' ∧
    writePump socket (Send c') =
      if bool_decide (List.length msgs ≤ room c)%nat
      then (TextMessage <$> (Chan.buf (Send c) ++ msgs)%list,
            Chan.mk [] (Chan.cap (Send c)) false, Some Waiting)
      else (((TextMessage <$> (Chan.buf (Send c) ++ take (room c) msgs)%list)
              ++ [CloseMessage])%list,
            Chan.mk [] (Chan.cap (Send c)) true, Some Returned).
Proof.
  intros Hinv Hreg Hheap Hrun Hok.
  destruct (Run_steps_broadcasts msgs st st' client c Hinv Hreg Hheap Hrun) as [Hheap' _].
  exists (after_broadcasts msgs c). split; [done|].
  unfold after_broadcasts, with_Send. cbn [Send].
  set (b := (Chan.buf (Send c) ++ take (room c) msgs)%list).
  destruct (writePump_loop_ends b (S (List.length b)) socket (Chan.cap (Send c))
              (bool_decide (room c < List.length msgs)%nat) ltac:(lia))
    as (sent & lost & rest & Hbuf & Hends).
  unfold writePump. cbn [Chan.buf]. fold b.
  unfold pump_ends in Hends. cbn [Chan.cap Chan.closed] in Hends.
  destruct Hends as [(Hcl & -> & -> & ->)|[(Hcl & -> & -> & ->)|(m & o & -> & Ho & Hne & _)]].
  - rewrite !app_nil_r in Hbuf. subst sent.
    apply bool_decide_eq_false in Hcl. rewrite bool_decide_eq_true_2 by lia.
    unfold b. rewrite take_ge by lia. done.
  - rewrite !app_nil_r in Hbuf. subst sent.
    apply bool_decide_eq_true in Hcl. rewrite bool_decide_eq_false_2 by lia. done.
  - apply (Forall_lookup_1 _ _ _ _ Hok) in Ho. done.
Qed.

(** X7 at [room_PQ], for P and one broadcast. *)
Lemma broadcasts_delivered_in_order_witness :
  ∃ c', heap (default room_PQ
                (Run_iteration [2; 1]%positive (RecvBroadcast "a") room_PQ))
          !! 1%positive = Some c' ∧
    writePump [] (Send c') =
      if bool_decide (List.length ["a"] ≤ room (new_Client "P"))%nat
      then (TextMessage <$> (Chan.buf (Send (new_Client "P")) ++ ["a"])%list,
            Chan.mk [] (Chan.cap (Send (new_Client "P"))) false, Some Waiting)
      else (((TextMessage <$> (Chan.buf (Send (new_Client "P"))
                                 ++ take (room (new_Client "P")) ["a"])%list)
              ++ [CloseMessage])%list,
            Chan.mk [] (Chan.cap (Send (new_Client "P"))) true, Some Returned).
Proof.
  apply (broadcasts_delivered_in_order room_PQ ["a"]).
  - apply hub_invb_sound. vm_compute. reflexivity.
  - unfold registered. vm_compute. by eexists.
  - vm_compute. reflexivity.
  - apply (Run_steps_cons _ _ (default room_PQ
             (Run_iteration [2; 1]%positive (RecvBroadcast "a") room_PQ))).
    + apply (Run_step_intro _ _ _ [2; 1]%positive).
      * unfold range_order. vm_compute. reflexivity.
      * vm_compute. reflexivity.
    + constructor.
  - constructor.
Defined.

(** ** What [readPump] forwards *)

(** X19: what [readPump] forwards.  Every frame [readPump] hands to the
    hub is the encoding of the message the frame decoded to; the three
    strings of that message are well-formed UTF-8, whatever bytes the frame
    held, and its timestamp is in the range of [int64] and, with a clock
    that does not read zero, not zero. *)
Theorem readPump_forwards_valid_messages {F : Float64} now raw ev :
  in_int64 now → readPump_frame now raw = Some ev →
  ∃ m : WebSocketMessage,
    decode now raw = Ok m ∧ ev = RecvBroadcast (encode m) ∧
    valid_utf8 (Msg.Type_ m) ∧ valid_utf8 (Msg.UserID m) ∧ valid_utf8 (Msg.SongID m) ∧
    in_int64 (Msg.Timestamp m) ∧ (now ≠ 0%Z → Msg.Timestamp m ≠ 0%Z).
Proof.
  intros Hnow. unfold readPump_frame.
  destruct (decode now raw) as [m|e] eqn:Hdec; [|done]. intros [= <-].
  exists m. split; [done|]. split; [done|].
  destruct (decode_valid now raw m Hnow Hdec) as (HT & HU & HS & Hts).
  do 4 (split; [done|]).
  intros Hne. unfold decode in Hdec. destruct (Unmarshal raw) as [m0|]; [|done].
  injection Hdec as <-. destruct (Z.eqb_spec (Msg.Timestamp m0) 0); cbn; [exact Hne|assumption].
Qed.

(** X19 for [play_frame], read at time 1000. *)
Lemma readPump_forwards_valid_messages_witness :
  ∃ m : @Msg.t literal_floats,
    decode 1000 play_frame = Ok m ∧
    RecvBroadcast (encode play_msg) = RecvBroadcast (encode m) ∧
    valid_utf8 (Msg.Type_ m) ∧ valid_utf8 (Msg.UserID m) ∧ valid_utf8 (Msg.SongID m) ∧
    in_int64 (Msg.Timestamp m) ∧ (1000%Z ≠ 0%Z → Msg.Timestamp m ≠ 0%Z).
Proof.
  apply (readPump_forwards_valid_messages (F := literal_floats) 1000 play_frame
           (RecvBroadcast (encode play_msg))).
  - unfold in_int64. lia.
  - vm_compute. reflexivity.
Defined.

(** X2 at [room_Q], where the queue of P is closed, and one broadcast later. *)
Lemma closed_queue_stays_closed_witness :
  ¬ registered (default room_Q (Run_iteration [2%positive] (RecvBroadcast "m") room_Q)) 1 ∧
  ∃ c', heap (default room_Q (Run_iteration [2%positive] (RecvBroadcast "m") room_Q))
          !! 1%positive = Some c' ∧
        Chan.closed (Send c') = true ∧
        Chan.buf (Send c') `suffix_of` Chan.buf (Send (after_close (new_Client "P"))) ∧
        Chan.cap (Send c') = Chan.cap (Send (after_close (new_Client "P"))) ∧
        UserID c' = UserID (after_close (new_Client "P")) ∧
        ID c' = ID (after_close (new_Client "P")).
Proof.
  apply (closed_queue_stays_closed room_Q).
  - apply hub_invb_sound. vm_compute. reflexivity.
  - vm_compute. reflexivity.
  - reflexivity.
  - apply rtc_once. apply (step_Broadcast _ "m"). apply (Run_step_intro _ _ _ [2%positive]).
    + unfold range_order. vm_compute. reflexivity.
    + vm_compute. reflexivity.
Defined.

(** X3 at [room_PQ], for P and two broadcasts. *)
Lemma unread_queue_fills_then_closes_witness :
  (∃ st', Run_steps room_PQ (RecvBroadcast <$> ["a"; "b"]) st') ∧
  ∀ st', Run_steps room_PQ (RecvBroadcast <$> ["a"; "b"]) st' →
    heap st' !! 1%positive = Some (after_broadcasts ["a"; "b"] (new_Client "P")) ∧
    (registered st' 1 ↔ (List.length ["a"; "b"] ≤ room (new_Client "P"))%nat).
Proof.
  apply (unread_queue_fills_then_closes room_PQ ["a"; "b"] 1 (new_Client "P")).
  - apply hub_invb_sound. vm_compute. reflexivity.
  - unfold registered. vm_compute. by eexists.
  - vm_compute. reflexivity.
Defined.

(** X4 for the connection of P to the empty hub and [session_frames]. *)
Lemma readPump_session_witness :
  broadcasts (readPump (F := literal_floats) 1 session_frames)
    = omap (forwarded (F := literal_floats)) session_frames ∧
  readPump (F := literal_floats) 1 session_frames
    = ((RecvBroadcast <$> omap (forwarded (F := literal_floats)) session_frames)
       ++ [RecvUnregister 1])%list ∧
  readPump (F := literal_floats) 1 session_frames
    = ((RecvBroadcast <$> broadcasts (readPump (F := literal_floats) 1 session_frames))
       ++ [RecvUnregister 1])%list ∧
  (List.length (broadcasts (readPump (F := literal_floats) 1 session_frames))
     ≤ List.length session_frames)%nat ∧
  (∃ st2, Run_steps (connect 1 "P" init)
            (readPump (F := literal_floats) 1 session_frames) st2) ∧
  ∀ st2, Run_steps (connect 1 "P" init)
           (readPump (F := literal_floats) 1 session_frames) st2 →
    hub_inv st2 ∧ ¬ registered st2 1 ∧
    heap st2 !! 1%positive
      = Some (mkClient ""
                (Chan.mk (take 256 (omap (forwarded (F := literal_floats)) session_frames))
                         256 true) "P") ∧
    heap st2 !! 1%positive
      = Some (mkClient ""
                (Chan.mk (take 256 (broadcasts
                                      (readPump (F := literal_floats) 1 session_frames)))
                         256 true) "P").
Proof.
  apply (readPump_session (F := literal_floats) init 1 "P" session_frames
           (connect 1 "P" init)).
  - apply hub_inv_init.
  - vm_compute. reflexivity.
Defined.

(** X6 on a closed queue that holds two messages. *)
Lemma writePump_healthy_socket_witness :
  writePump [WriteOk] (Chan.mk ["a"; "b"] 256 true) =
    ([TextMessage "a"; TextMessage "b"; CloseMessage],
     Chan.mk [] 256 true, Some Returned).
Proof.
  apply (writePump_healthy_socket [WriteOk] (Chan.mk ["a"; "b"] 256 true)).
  repeat constructor.
Defined.

(** X8 at [room_PQ]. *)
Lemma reachable_client_objects_witness :
  (∀ client c, heap room_PQ !! client = Some c →
     Chan.cap (Send c) = 256%nat ∧ (List.length (Chan.buf (Send c)) ≤ 256)%nat ∧
     ID c = "") ∧
  (∀ client, registered room_PQ client → Clients (hub room_PQ) !! client = Some true).
Proof. apply (reachable_client_objects room_PQ). apply reachable_room_PQ. Defined.

(** X9 for a message sent at time 1000 and read at time 2000. *)
Lemma SendPlaySync_decodes_witness :
  ∃ frame, SendPlaySync (F := literal_floats) 1000 "u1" "s1" "12.5" = RecvBroadcast frame ∧
    decode 2000 frame
      = Ok (@Msg.mk literal_floats PlayMessage "u1" "s1" "12.5" "0" 1000).
Proof.
  apply (SendPlaySync_decodes (F := literal_floats) 1000 2000 "u1" "s1" "12.5").
  - lia.
  - repeat (apply valid_ascii; [by vm_compute|]); apply valid_nil.
  - repeat (apply valid_ascii; [by vm_compute|]); apply valid_nil.
  - exists "12.5". repeat split; vm_compute; reflexivity.
  - reflexivity.
Defined.

(** X10 for a message sent at time 1000 and read at time 2000. *)
Lemma SendPauseSync_decodes_witness :
  ∃ frame, SendPauseSync (F := literal_floats) 1000 "u1" "12.5" = RecvBroadcast frame ∧
    decode 2000 frame
      = Ok (@Msg.mk literal_floats PauseMessage "u1" "" "12.5" "0" 1000).
Proof.
  apply (SendPauseSync_decodes (F := literal_floats) 1000 2000 "u1" "12.5").
  - lia.
  - repeat (apply valid_ascii; [by vm_compute|]); apply valid_nil.
  - exists "12.5". repeat split; vm_compute; reflexivity.
  - reflexivity.
Defined.

(** X11 for [twice_frame], read at time 1000. *)
Lemma decode_takes_last_values_witness :
  Msg.Type_ twice_msg = string_or "" (last_value FType twice_members) ∧
  Msg.UserID twice_msg = string_or "" (last_value FUserID twice_members) ∧
  Msg.SongID twice_msg = string_or "" (last_value FSongID twice_members) ∧
  Msg.Position twice_msg = float_or float64_zero (last_value FPosition twice_members) ∧
  Msg.Volume twice_msg = float_or float64_zero (last_value FVolume twice_members) ∧
  Msg.Timestamp twice_msg =
    (if (int_or 0 (last_value FTimestamp twice_members) =? 0)%Z then 1000%Z
     else int_or 0 (last_value FTimestamp twice_members)).
Proof.
  apply (decode_takes_last_values (F := literal_floats) 1000 twice_frame
           twice_members twice_msg).
  - vm_compute. reflexivity.
  - vm_compute. reflexivity.
Defined.

(* ===================================================================== *)
(** * Part VI: the file server of the basic player                         *)
(* ===================================================================== *)

(** ** The path functions on the cases their documentation gives *)

Example Clean_removes_dotdot : Clean "a/b/../c" = "a/c".
Proof. reflexivity. Qed.

Example Clean_rooted : Clean "/../a//b/./c/" = "/a/b/c".
Proof. reflexivity. Qed.

Example Clean_keeps_leading_dotdot : Clean "abc/../../././../def" = "../../def".
Proof. reflexivity. Qed.

Example Clean_empty : Clean "" = ".".
Proof. reflexivity. Qed.

Example Clean_names_with_dots : Clean "a.b/..c/..." = "a.b/..c/...".
Proof. reflexivity. Qed.

Example Join_absolute_second : Join "songs" "/etc/passwd" = "songs/etc/passwd".
Proof. reflexivity. Qed.

Example Ext_last_dot : Ext "songs/a.b/c.tar.gz" = ".gz".
Proof. reflexivity. Qed.

Example Ext_none : Ext "songs/a.b/c" = "".
Proof. reflexivity. Qed.

Example Rel_below : Rel "songs" "songs/a/b.mp3" = Some "a/b.mp3".
Proof. reflexivity. Qed.

Example Rel_up : Rel "a/b/../c" "a/b" = Some "../b".
Proof. reflexivity. Qed.

Example Rel_same : Rel "a/b/." "a/b" = Some ".".
Proof. reflexivity. Qed.

Example Rel_rooted_and_not : Rel "/a" "b" = None.
Proof. reflexivity. Qed.

Example Rel_from_dotdot : Rel ".." "a" = None.
Proof. reflexivity. Qed.

(** * The file server *)

(** ** Strings *)

Lemma HasPrefix_app s t prefix :
  HasPrefix s prefix = true → HasPrefix (s +:+ t) prefix = true.
Proof.
  revert s. induction prefix as [|p prefix IH]; intros s; [intros _; reflexivity|].
  destruct s as [|c s]; cbn; [done|].
  intros [Hc Hs]%andb_true_iff. rewrite Hc. cbn. by apply IH.
Qed.

Lemma Contains_app_l s t sub :
  Contains s sub = true → Contains (s +:+ t) sub = true.
Proof.
  induction s as [|c s IH]; cbn.
  - rewrite orb_false_r. intros H. destruct sub; [|by cbn in H]. destruct t; reflexivity.
  - intros [H|H]%orb_true_iff.
    + change (String c (s +:+ t)) with (String c s +:+ t).
      by rewrite (HasPrefix_app _ t _ H).
    + rewrite (IH H). apply orb_true_r.
Qed.

Lemma Contains_app_r s t sub :
  Contains t sub = true → Contains (s +:+ t) sub = true.
Proof.
  induction s as [|c s IH]; cbn; [done|]. intros H. rewrite (IH H). apply orb_true_r.
Qed.

Lemma Contains_app_false s t sub :
  Contains (s +:+ t) sub = false → Contains s sub = false ∧ Contains t sub = false.
Proof.
  intros H. split.
  - destruct (Contains s sub) eqn:E; [|done]. by rewrite (Contains_app_l _ t _ E) in H.
  - destruct (Contains t sub) eqn:E; [|done]. by rewrite (Contains_app_r s _ _ E) in H.
Qed.

(** ** Elements *)

Lemma span_element_spec s :
  ∀ elem rest, span_element s = (elem, rest) →
    s = elem +:+ rest ∧ Contains elem "/" = false ∧
    (rest = "" ∨ ∃ r, rest = String "/" r).
Proof.
  induction s as [|c s IH]; intros elem rest; cbn.
  - intros [= <- <-]. auto.
  - unfold IsPathSeparator. destruct (Ascii.eqb_spec c "/") as [->|Hc].
    + intros [= <- <-]. split; [done|]. split; [done|]. right. by eexists.
    + destruct (span_element s) as [e r]. intros [= <- <-].
      destruct (IH e r eq_refl) as (-> & He & Hr). split; [done|]. split; [|done].
      cbn. rewrite He. destruct (Ascii.eqb_spec c "/"); [done|]. by destruct e.
Qed.

Lemma path_elements_nonempty s : path_elements s ≠ [].
Proof.
  destruct s as [|c s]; cbn; [done|].
  destruct (IsPathSeparator c); [done|]. by destruct (path_elements s).
Qed.

Lemma path_elements_span s elem rest :
  span_element s = (elem, rest) →
  path_elements s =
    elem :: match rest with
            | EmptyString => []
            | String _ r => path_elements r
            end.
Proof.
  revert elem rest. induction s as [|c s IH]; intros elem rest; cbn.
  - by intros [= <- <-].
  - destruct (IsPathSeparator c) eqn:Hc.
    + by intros [= <- <-].
    + destruct (span_element s) as [e r]. intros [= <- <-].
      by rewrite (IH e r eq_refl).
Qed.

Lemma span_element_length s elem rest :
  span_element s = (elem, rest) →
  String.length s = (String.length elem + String.length rest)%nat.
Proof.
  intros H. destruct (span_element_spec s elem rest H) as (-> & _ & _).
  apply length_append.
Qed.

Lemma push_app a b rout : push (a +:+ b) rout = push b (push a rout).
Proof. revert rout. induction a as [|c a IH]; intros rout; cbn; [done|]. apply IH. Qed.

Lemma string_of_list_ascii_app l1 l2 :
  String.string_of_list_ascii (l1 ++ l2) =
  String.string_of_list_ascii l1 +:+ String.string_of_list_ascii l2.
Proof. induction l1 as [|c l1 IH]; cbn; [done|]. by rewrite IH. Qed.

Lemma string_of_rev_cons c rout :
  string_of_rev (c :: rout) = string_of_rev rout +:+ String c "".
Proof. unfold string_of_rev. cbn [rev]. by rewrite string_of_list_ascii_app. Qed.

Lemma string_of_rev_push s rout :
  string_of_rev (push s rout) = string_of_rev rout +:+ s.
Proof.
  revert rout. induction s as [|c s IH]; intros rout; cbn [push].
  - by rewrite append_nil_r.
  - by rewrite IH, string_of_rev_cons, append_assoc.
Qed.

Lemma string_of_rev_push_names elems rout :
  string_of_rev (push_names elems rout) = descend (string_of_rev rout) elems.
Proof.
  revert rout. induction elems as [|elem elems IH]; intros rout;
    cbn [push_names descend]; [done|].
  by rewrite IH, string_of_rev_push, string_of_rev_cons, !append_assoc.
Qed.

Lemma push_nonempty s rout : rout ≠ [] → push s rout ≠ [].
Proof. revert rout. induction s as [|c s IH]; intros rout H; cbn; [done|]. by apply IH. Qed.

(** One round of the loop of [Clean] on an element that is not [..]: a
    name is copied to the buffer, an empty element or a dot is skipped. *)
Lemma Clean_loop_S fuel rooted c0 r0 rout dotdot elem rest' :
  span_element (String c0 r0) = (elem, rest') → elem ≠ ".." →
  Clean_loop (S fuel) rooted (String c0 r0) rout dotdot =
    if is_name elem
    then Clean_loop fuel rooted rest' (push elem (with_separator rooted rout)) dotdot
    else Clean_loop fuel rooted r0 rout dotdot.
Proof.
  intros Hspan Hdd. cbn [Clean_loop]. fold (with_separator rooted rout).
  rewrite Hspan. cbn [span_element] in Hspan.
  destruct (IsPathSeparator c0) eqn:Hsep.
  { by injection Hspan as <- <-. }
  destruct (span_element r0) as [e0 rest0] eqn:Hspan0. injection Hspan as <- <-.
  destruct (Ascii.eqb_spec c0 ".") as [->|Hdot]; cbn [andb].
  - destruct r0 as [|c1 r1].
    { cbn in Hspan0. by injection Hspan0 as <- <-. }
    cbn [span_element] in Hspan0.
    destruct (IsPathSeparator c1) eqn:Hsep1.
    { by injection Hspan0 as <- <-. }
    destruct (span_element r1) as [e1 rest1] eqn:Hspan1. injection Hspan0 as <- <-.
    destruct (Ascii.eqb_spec c1 ".") as [->|Hdot1]; cbn [andb]; [|done].
    destruct r1 as [|c2 r2].
    { cbn in Hspan1. by injection Hspan1 as <- <-. }
    cbn [span_element] in Hspan1.
    destruct (IsPathSeparator c2) eqn:Hsep2.
    { by injection Hspan1 as <- <-. }
    destruct (span_element r2) as [e2 rest2]. by injection Hspan1 as <- <-.
  - unfold is_name. cbn. destruct (Ascii.eqb_spec c0 "."); [done|].
    by destruct e0.
Qed.

(** The loop of [Clean] on a path that has no [..] element, once something
    is in the buffer: every name is appended after a separator, and the
    empty elements and the dots are dropped. *)
Lemma Clean_loop_names fuel : ∀ rest rout,
  (String.length rest ≤ fuel)%nat → rout ≠ [] →
  Forall (λ elem, elem ≠ "..") (path_elements rest) →
  Clean_loop fuel false rest rout 0 =
    push_names (List.filter is_name (path_elements rest)) rout.
Proof.
  induction fuel as [|fuel IH]; intros rest rout Hlen Hrout Hdd.
  { destruct rest; [done|cbn in Hlen; lia]. }
  destruct rest as [|c0 r0]; [done|].
  destruct (span_element (String c0 r0)) as [elem rest'] eqn:Hspan.
  pose proof (path_elements_span _ _ _ Hspan) as Helems.
  pose proof (span_element_length _ _ _ Hspan) as Hlens.
  rewrite Helems in Hdd |- *. apply Forall_cons in Hdd as [Hne Hdd].
  rewrite (Clean_loop_S fuel false c0 r0 rout 0 elem rest' Hspan Hne).
  cbn [List.filter]. cbn [String.length] in Hlen, Hlens.
  destruct (is_name elem) eqn:Hname.
  - assert (with_separator false rout = "/"%char :: rout) as ->.
    { unfold with_separator. by destruct rout. }
    cbn [push_names].
    assert (0 < String.length elem)%nat as Hpos.
    { destruct elem; [done|cbn; lia]. }
    rewrite IH; [|lia|by apply push_nonempty|].
    + destruct rest' as [|c r]; [done|].
      destruct (span_element_spec _ _ _ Hspan) as (_ & _ & [?|[r' [= -> ->]]]); [done|].
      done.
    + destruct rest' as [|c r]; [repeat constructor; done|].
      destruct (span_element_spec _ _ _ Hspan) as (_ & _ & [?|[r' [= -> ->]]]); [done|].
      cbn. by apply Forall_cons.
  - (* the element is empty or a dot: the rest begins at [r0] *)
    rewrite IH; [|lia|done|].
    + cbn [span_element] in Hspan. destruct (IsPathSeparator c0) eqn:Hsep.
      * injection Hspan as <- <-. done.
      * destruct (span_element r0) as [e0 rest0] eqn:Hspan0. injection Hspan as <- <-.
        unfold is_name in Hname. cbn in Hname.
        destruct (Ascii.eqb_spec c0 ".") as [->|]; [|by destruct e0].
        destruct e0; [|done].
        rewrite (path_elements_span _ _ _ Hspan0). cbn. done.
    + cbn [span_element] in Hspan. destruct (IsPathSeparator c0) eqn:Hsep.
      * injection Hspan as <- <-. done.
      * destruct (span_element r0) as [e0 rest0] eqn:Hspan0. injection Hspan as <- <-.
        rewrite (path_elements_span _ _ _ Hspan0). apply Forall_cons. split; [|done].
        unfold is_name in Hname. cbn in Hname.
        destruct (Ascii.eqb_spec c0 ".") as [->|]; [|by destruct e0].
        by destruct e0.
Qed.

Lemma path_elements_prefix s elem elems :
  path_elements s = elem :: elems → ∃ t, s = elem +:+ t.
Proof.
  destruct (span_element s) as [e rest] eqn:Hspan.
  rewrite (path_elements_span _ _ _ Hspan). intros [= <- _].
  destruct (span_element_spec _ _ _ Hspan) as (-> & _). by eexists.
Qed.

Lemma path_elements_no_separator s :
  Forall (λ elem, Contains elem "/" = false) (path_elements s).
Proof.
  induction s as [|c s IH]; cbn [path_elements]; [by repeat constructor|].
  destruct (IsPathSeparator c) eqn:Hsep; [by constructor|].
  unfold IsPathSeparator in Hsep.
  destruct (path_elements s) as [|e es].
  { constructor; [|constructor]. cbn. by rewrite Hsep. }
  apply Forall_cons in IH as [He Hes]. constructor; [|done].
  cbn. cbn in He. rewrite Hsep. cbn.
  destruct e; cbn in *; done.
Qed.

Lemma path_elements_no_dotdot s :
  Contains s ".." = false →
  Forall (λ elem, Contains elem ".." = false) (path_elements s).
Proof.
  induction s as [|c s IH]; cbn [path_elements]; [by repeat constructor|].
  intros H. change (String c s) with (String c "" +:+ s) in H.
  pose proof H as Hall.
  apply Contains_app_false in H as [_ Hs]. specialize (IH Hs).
  destruct (IsPathSeparator c) eqn:Hsep; [by constructor|].
  destruct (path_elements s) as [|e es] eqn:Hes; [by destruct (path_elements_nonempty s)|].
  apply Forall_cons in IH as [He Hrest]. constructor; [|done].
  destruct (path_elements_prefix _ _ _ Hes) as [t ->].
  change (String c "" +:+ (e +:+ t)) with (String c e +:+ t) in Hall.
  by apply Contains_app_false in Hall as [Hall _].
Qed.

Lemma Contains_false_neq elem : Contains elem ".." = false → elem ≠ "..".
Proof. by intros H ->. Qed.

(** [filepath.Join("songs", path)] for a path with no [..] element: the
    names of the path, one after the other, below [songs]. *)
Lemma Join_songs path :
  Forall (λ elem, elem ≠ "..") (path_elements path) →
  Join "songs" path = descend "songs" (List.filter is_name (path_elements path)).
Proof.
  intros Hdd. unfold Join. cbn [String.eqb Ascii.eqb negb].
  change ("songs" +:+ "/" +:+ path) with (String "s" ("ongs/" +:+ path)).
  unfold Clean. cbn [IsPathSeparator Ascii.eqb String.length].
  assert (span_element (String "s" ("ongs/" +:+ path)) = ("songs", String "/" path))
    as Hspan by reflexivity.
  rewrite (Clean_loop_S _ false _ _ [] 0 _ _ Hspan) by done.
  cbn [is_name String.eqb Ascii.eqb negb andb with_separator List.length Nat.eqb orb push].
  rewrite Clean_loop_names; [|cbn; lia|done|].
  - cbn [path_elements IsPathSeparator Ascii.eqb List.filter is_name String.eqb negb andb].
    pose proof (string_of_rev_push_names (List.filter is_name (path_elements path))
                  ["s"; "g"; "n"; "o"; "s"]%char) as Hstr.
    destruct (push_names _ _) eqn:Hpush.
    + exfalso. revert Hpush. generalize (List.filter is_name (path_elements path)).
      intros l. assert (∀ rout, rout ≠ [] → push_names l rout ≠ []) as Hne.
      { induction l as [|e l IHl]; intros rout Hrout; cbn; [done|].
        apply IHl. by apply push_nonempty. }
      by apply Hne.
    + exact Hstr.
  - cbn [path_elements IsPathSeparator Ascii.eqb]. by constructor.
Qed.

(** ** Extensions *)

Lemma Ext_from_plain x : plain x = true → Ext_from x = None.
Proof.
  induction x as [|c x IH]; cbn; [done|].
  intros [[Hs Hd]%andb_true_iff Hx]%andb_true_iff. rewrite (IH Hx).
  apply negb_true_iff in Hs, Hd. by rewrite Hs, Hd.
Qed.

Lemma Ext_dot s x : plain x = true → Ext (s +:+ "." +:+ x) = "." +:+ x.
Proof.
  intros Hx. unfold Ext.
  assert (Ext_from (s +:+ "." +:+ x) = Some ("." +:+ x)) as ->; [|done].
  induction s as [|c s IH]; cbn.
  - by rewrite (Ext_from_plain x Hx).
  - cbn in IH. by rewrite IH.
Qed.

Lemma path_elements_single t : Contains t "/" = false → path_elements t = [t].
Proof.
  induction t as [|c t IH]; cbn; [done|].
  unfold IsPathSeparator. destruct (Ascii.eqb c "/"); cbn; [by destruct t|].
  intros H. rewrite IH; [done|]. by destruct t.
Qed.

Lemma path_elements_app s t :
  Contains t "/" = false →
  ∃ l e, path_elements s = (l ++ [e])%list ∧
         path_elements (s +:+ t) = (l ++ [e +:+ t])%list.
Proof.
  intros Ht. induction s as [|c s (l & e & Hs & Hst)].
  - exists [], "". cbn [String.append]. by rewrite (path_elements_single t Ht).
  - cbn [String.append path_elements]. rewrite Hs, Hst.
    destruct (IsPathSeparator c).
    + by exists ("" :: l), e.
    + destruct l as [|e0 l]; cbn.
      * by exists [], (String c e).
      * by exists (String c e0 :: l), e.
Qed.

Lemma descend_snoc dir l z :
  descend dir (l ++ [z])%list = descend dir l +:+ "/" +:+ z.
Proof. revert dir. induction l as [|e l IH]; intros dir; cbn; [done|]. apply IH. Qed.

Lemma is_name_dot e x : x ≠ "" → is_name (e +:+ "." +:+ x) = true.
Proof.
  intros Hx. unfold is_name. destruct e as [|c e]; cbn.
  - by destruct x.
  - destruct (Ascii.eqb c "."); [|done]. by destruct e.
Qed.

(** ** Letter case *)

Lemma lower_cases c :
  lower c = c ∨ ((65 ≤ byte c ≤ 90)%N ∧ byte (lower c) = (byte c + 32)%N).
Proof.
  unfold lower. destruct (between 65 90 c) eqn:Hb; [|by left]. right.
  apply between_spec in Hb. split; [done|]. apply byte_chr. lia.
Qed.

Lemma lower_ascii_is_ascii x : is_ascii (lower_ascii x) = is_ascii x.
Proof.
  induction x as [|c x IH]; cbn; [done|]. rewrite IH. f_equal.
  destruct (lower_cases c) as [->|[Hc Hl]]; [done|]. rewrite Hl.
  apply eq_true_iff_eq. rewrite !N.ltb_lt. lia.
Qed.

Lemma byte_inj c d : byte c = byte d → c = d.
Proof.
  unfold byte. intros H. rewrite <- (ascii_N_embedding c), <- (ascii_N_embedding d).
  by rewrite H.
Qed.

Lemma lower_ascii_plain x : plain (lower_ascii x) = plain x.
Proof.
  induction x as [|c x IH]; cbn; [done|]. rewrite IH. f_equal.
  destruct (lower_cases c) as [->|[Hc Hl]]; [done|].
  unfold IsPathSeparator.
  destruct (Ascii.eqb_spec (lower c) "/") as [E|_]; [rewrite E in Hl; cbn in Hl; lia|].
  destruct (Ascii.eqb_spec (lower c) ".") as [E|_]; [rewrite E in Hl; cbn in Hl; lia|].
  destruct (Ascii.eqb_spec c "/") as [E|_]; [rewrite E in Hc; cbn in Hc; lia|].
  destruct (Ascii.eqb_spec c ".") as [E|_]; [rewrite E in Hc; cbn in Hc; lia|].
  done.
Qed.

Lemma plain_no_separator x : plain x = true → Contains x "/" = false.
Proof.
  induction x as [|c x IH]; cbn; [done|].
  intros [[Hs _]%andb_true_iff Hx]%andb_true_iff.
  unfold IsPathSeparator in Hs. apply negb_true_iff in Hs. rewrite Hs. cbn.
  rewrite (IH Hx). by destruct x.
Qed.

(** What holds of an extension that one of the four audio types is
    chosen for, whatever the case of its letters. *)
Lemma audio_ext_plain x :
  is_audio_ext ("." +:+ lower_ascii x) = true →
  x ≠ "" ∧ is_ascii x = true ∧ plain x = true.
Proof.
  intros H. rewrite <- lower_ascii_is_ascii, <- lower_ascii_plain.
  assert (x = "" → lower_ascii x = "") as Hnil by (by intros ->).
  unfold is_audio_ext in H. cbn in H.
  repeat (apply orb_true_iff in H as [H|H]);
    apply String.eqb_eq in H; rewrite H; (split; [intros E; by rewrite (Hnil E) in H|done]).
Qed.

(** ** [streamSongHandler] *)

(** X12: [streamSongHandler] serves no file outside [songs].  Whatever the
    request path is, when the handler calls [http.ServeFile] the name it
    passes is [songs] followed by the names of the request path, each after
    a separator; none of these names is empty, is a dot, or has a separator
    or two dots in a row in it; and [os.Stat] did not report the file
    missing. *)
Theorem streamSongHandler_stays_in_songs Map_ToLower stat url_path content_type name :
  streamSongHandler Map_ToLower stat url_path = ServeFile content_type name →
  stat name ≠ StatNotExist ∧
  ∃ names,
    names = List.filter is_name (path_elements (TrimPrefix url_path "/song/")) ∧
    name = descend "songs" names ∧
    Forall is_safe_name names.
Proof.
  unfold streamSongHandler.
  destruct (Contains (TrimPrefix url_path "/song/") "..") eqn:Hdd; [done|].
  pose proof (path_elements_no_dotdot _ Hdd) as Hno.
  pose proof (path_elements_no_separator (TrimPrefix url_path "/song/")) as Hsep.
  rewrite Join_songs by (eapply Forall_impl; [exact Hno|apply Contains_false_neq]).
  intros Hserve. split.
  - destruct (stat _) eqn:Hstat; [|done|]; injection Hserve as _ <-; by rewrite Hstat.
  - eexists. split; [done|]. split.
    + destruct (stat _); [|done|]; by injection Hserve as _ <-.
    + apply Forall_forall. intros elem Hin.
      apply list_elem_of_In, List.filter_In in Hin as [Hin Hname].
      apply list_elem_of_In in Hin.
      rewrite Forall_forall in Hno, Hsep. repeat split; [done|by apply Hsep|by apply Hno].
Qed.

Lemma Join_songs_dot stem x :
  Contains (stem +:+ "." +:+ x) ".." = false → x ≠ "" → plain x = true →
  ∃ dir, Join "songs" (stem +:+ "." +:+ x) = dir +:+ "." +:+ x.
Proof.
  intros Hdd Hx Hplain.
  rewrite Join_songs
    by (eapply Forall_impl; [by apply path_elements_no_dotdot|apply Contains_false_neq]).
  assert (Contains ("." +:+ x) "/" = false) as Hsep.
  { cbn. by apply plain_no_separator. }
  destruct (path_elements_app stem ("." +:+ x) Hsep) as (l & e & _ & ->).
  rewrite List.filter_app. cbn [List.filter]. rewrite is_name_dot by done.
  rewrite descend_snoc. exists (descend "songs" (List.filter is_name l) +:+ "/" +:+ e).
  by rewrite !append_assoc.
Qed.

(** X13: the content type is chosen by the extension, in any letter case.
    For a request path under [/song/] that has no two dots in a row and ends
    in a dot and [mp3], [wav], [ogg] or [flac] written in upper or lower
    case, at any depth below [songs], a file that [os.Stat] does not report
    missing is served with the audio type of that extension, not as
    [application/octet-stream]. *)
Theorem streamSongHandler_content_type Map_ToLower stat url_path stem x :
  TrimPrefix url_path "/song/" = stem +:+ "." +:+ x →
  Contains (stem +:+ "." +:+ x) ".." = false →
  is_audio_ext ("." +:+ lower_ascii x) = true →
  stat (Join "songs" (stem +:+ "." +:+ x)) ≠ StatNotExist →
  streamSongHandler Map_ToLower stat url_path =
    ServeFile (content_type_of ("." +:+ lower_ascii x))
              (Join "songs" (stem +:+ "." +:+ x)) ∧
  content_type_of ("." +:+ lower_ascii x) ≠ "application/octet-stream".
Proof.
  intros Hpath Hdd Haudio Hstat.
  destruct (audio_ext_plain x Haudio) as (Hx & Hascii & Hplain).
  split.
  - unfold streamSongHandler. rewrite Hpath, Hdd.
    destruct (Join_songs_dot stem x Hdd Hx Hplain) as [dir Hjoin].
    assert (ToLower Map_ToLower (Ext (Join "songs" (stem +:+ "." +:+ x)))
            = "." +:+ lower_ascii x) as ->.
    { rewrite Hjoin, Ext_dot by done. unfold ToLower. cbn [is_ascii String.append].
      rewrite Hascii. done. }
    by destruct (stat _).
  - unfold is_audio_ext in Haudio. unfold content_type_of.
    repeat (apply orb_true_iff in Haudio as [Haudio|Haudio]);
      repeat match goal with
             | |- context [String.eqb ?a ?b] => destruct (String.eqb a b); try done
             end.
Qed.

(** X12 for the request path [/song/a/./b.mp3]. *)
Lemma streamSongHandler_stays_in_songs_witness :
  (λ _, StatOk) "songs/a/b.mp3" ≠ StatNotExist ∧
  ∃ names,
    names = List.filter is_name (path_elements (TrimPrefix "/song/a/./b.mp3" "/song/")) ∧
    "songs/a/b.mp3" = descend "songs" names ∧
    Forall is_safe_name names.
Proof.
  apply (streamSongHandler_stays_in_songs (λ s, s) (λ _, StatOk) "/song/a/./b.mp3"
           "audio/mpeg" "songs/a/b.mp3").
  vm_compute. reflexivity.
Defined.

(** X13 for the request path [/song/a/Song.Mp3]. *)
Lemma streamSongHandler_content_type_witness :
  streamSongHandler (λ s, s) (λ _, StatOk) "/song/a/Song.Mp3" =
    ServeFile (content_type_of ("." +:+ lower_ascii "Mp3"))
              (Join "songs" ("a/Song" +:+ "." +:+ "Mp3")) ∧
  content_type_of ("." +:+ lower_ascii "Mp3") ≠ "application/octet-stream".
Proof.
  apply (streamSongHandler_content_type (λ s, s) (λ _, StatOk) "/song/a/Song.Mp3"
           "a/Song" "Mp3").
  - vm_compute. reflexivity.
  - vm_compute. reflexivity.
  - vm_compute. reflexivity.
  - done.
Defined.

(** ** [listSongsHandler] *)

Lemma descend_first dir elem elems rest :
  path_elements rest = elem :: elems → descend (dir +:+ elem) elems = dir +:+ rest.
Proof.
  revert dir elem elems. induction rest as [|c rest IH]; intros dir elem elems; cbn.
  - by intros [= <- <-].
  - unfold IsPathSeparator. destruct (Ascii.eqb_spec c "/") as [->|Hc].
    + intros [= <- <-]. rewrite append_nil_r.
      destruct (path_elements rest) as [|e es] eqn:Hes;
        [by destruct (path_elements_nonempty rest)|].
      cbn [descend]. rewrite <- (append_assoc dir "/" e).
      rewrite (IH (dir +:+ "/") e es eq_refl). by rewrite append_assoc.
    + destruct (path_elements rest) as [|e es] eqn:Hes;
        [by destruct (path_elements_nonempty rest)|].
      intros [= <- <-].
      change (String c e) with (String c "" +:+ e). rewrite <- append_assoc.
      rewrite (IH (dir +:+ String c "") e es eq_refl). by rewrite append_assoc.
Qed.

Lemma descend_path_elements dir rel :
  descend dir (path_elements rel) = dir +:+ "/" +:+ rel.
Proof.
  destruct (path_elements rel) as [|e es] eqn:Hes;
    [by destruct (path_elements_nonempty rel)|].
  cbn [descend]. rewrite <- (append_assoc dir "/" e), <- (append_assoc dir "/" rel).
  by apply descend_first.
Qed.

Lemma filter_all {A} (f : A → bool) l :
  Forall (λ x, f x = true) l → List.filter f l = l.
Proof. induction 1 as [|x l Hx _ IH]; cbn; [done|]. by rewrite Hx, IH. Qed.

Lemma Join_songs_clean rel : is_clean_rel rel → Join "songs" rel = "songs/" +:+ rel.
Proof.
  intros Hclean. rewrite Join_songs.
  - rewrite filter_all; [by rewrite descend_path_elements|].
    eapply Forall_impl; [exact Hclean|]. by intros e [? _].
  - eapply Forall_impl; [exact Hclean|]. by intros e [_ ?].
Qed.

Lemma Rel_songs rel : is_clean_rel rel → Rel "songs" ("songs/" +:+ rel) = Some rel.
Proof.
  intros Hclean. unfold Rel.
  assert (Clean ("songs/" +:+ rel) = "songs/" +:+ rel) as ->.
  { transitivity (Join "songs" rel); [reflexivity|by apply Join_songs_clean]. }
  change (Clean "songs") with "songs". cbn. 
  destruct rel as [|c rel]; [|done].
  unfold is_clean_rel in Hclean. cbn in Hclean. apply Forall_cons in Hclean as [[? _] _]. done.
Qed.

Lemma HasPrefix_self_app p s : HasPrefix (p +:+ s) p = true.
Proof. induction p as [|c p IH]; cbn; [done|]. by rewrite Ascii.eqb_refl. Qed.

Lemma string_drop_app p s : string_drop (String.length p) (p +:+ s) = s.
Proof. induction p as [|c p IH]; cbn; [done|]. apply IH. Qed.

Lemma string_take_app p s : string_take (String.length p) (p +:+ s) = p.
Proof. induction p as [|c p IH]; cbn; [done|]. by rewrite IH. Qed.

Lemma TrimPrefix_app p s : TrimPrefix (p +:+ s) p = s.
Proof. unfold TrimPrefix. by rewrite HasPrefix_self_app, string_drop_app. Qed.

Lemma HasSuffix_app s suffix u :
  String.length u = String.length suffix →
  HasSuffix (s +:+ u) suffix = String.eqb u suffix.
Proof.
  intros Hlen. unfold HasSuffix. rewrite length_append, Hlen.
  replace (String.length s + String.length suffix - String.length suffix)%nat
    with (String.length s) by lia.
  rewrite string_drop_app.
  assert ((String.length suffix <=? String.length s + String.length suffix)%nat = true)
    as -> by (apply Nat.leb_le; lia).
  done.
Qed.

Lemma TrimSuffix_app s suffix : TrimSuffix (s +:+ suffix) suffix = s.
Proof.
  unfold TrimSuffix. rewrite HasSuffix_app by done. rewrite String.eqb_refl.
  rewrite length_append.
  replace (String.length s + String.length suffix - String.length suffix)%nat
    with (String.length s) by lia.
  apply string_take_app.
Qed.

Lemma lower_ascii_length x : String.length (lower_ascii x) = String.length x.
Proof. induction x as [|c x IH]; cbn; [done|]. by rewrite IH. Qed.

Section Listing.
Variable Map_ToLower : string → string.

(** X14: what the walk lists for an audio file.  A file below [songs] whose
    name ends in a dot and one of the four extensions, in any letter case,
    is appended to the list with its path relative to [songs] as [File].
    Its [Name] is that path without the extension when the extension is in
    lower case; when the extension has an upper-case letter, the extension
    is not removed and [Name] is the same as [File]. *)
Theorem walk_songs_lists_file visits songs stem x :
  is_clean_rel (stem +:+ "." +:+ x) →
  is_audio_ext ("." +:+ lower_ascii x) = true →
  walk_songs Map_ToLower (Entry ("songs/" +:+ stem +:+ "." +:+ x) false :: visits) songs =
  walk_songs Map_ToLower visits
    (songs ++ [mkSong (if String.eqb (lower_ascii x) x then stem
                       else stem +:+ "." +:+ x)
                      (stem +:+ "." +:+ x)]).
Proof.
  intros Hclean Haudio.
  destruct (audio_ext_plain x Haudio) as (Hx & Hascii & Hplain).
  cbn [walk_songs].
  assert (Ext ("songs/" +:+ stem +:+ "." +:+ x) = "." +:+ x) as ->.
  { rewrite <- append_assoc. by apply Ext_dot. }
  assert (ToLower Map_ToLower ("." +:+ x) = "." +:+ lower_ascii x) as ->.
  { unfold ToLower. cbn [is_ascii String.append]. by rewrite Hascii. }
  rewrite Haudio, (Rel_songs _ Hclean). unfold default. cbn [from_option id].
  assert (TrimSuffix (stem +:+ "." +:+ x) ("." +:+ lower_ascii x)
          = if String.eqb (lower_ascii x) x then stem else stem +:+ "." +:+ x) as ->; [|done].
  destruct (String.eqb_spec (lower_ascii x) x) as [->|Hne].
  - apply TrimSuffix_app.
  - unfold TrimSuffix.
    rewrite HasSuffix_app by (cbn; by rewrite lower_ascii_length).
    cbn. by destruct (String.eqb_spec x (lower_ascii x)) as [E|_]; [rewrite <- E in Hne|].
Qed.

End Listing.

Lemma audio_content_type ext :
  is_audio_ext ext = true → content_type_of ext ≠ "application/octet-stream".
Proof.
  unfold is_audio_ext, content_type_of. intros H.
  repeat (apply orb_true_iff in H as [H|H]);
    repeat match goal with
           | |- context [String.eqb ?a ?b] => destruct (String.eqb a b); try done
           end.
Qed.

Section Library.
Variable Map_ToLower : string → string.

Lemma walk_songs_from visits : ∀ songs0 songs song,
  Forall walked visits →
  walk_songs Map_ToLower visits songs0 = inr songs → song ∈ songs →
  song ∈ songs0 ∨
  (is_clean_rel (File song) ∧
   Entry ("songs/" +:+ File song) false ∈ visits ∧
   is_audio_ext (ToLower Map_ToLower (Ext ("songs/" +:+ File song))) = true).
Proof.
  induction visits as [|v visits IH]; intros songs0 songs song Hwalked Hwalk Hin.
  { cbn in Hwalk. injection Hwalk as <-. by left. }
  apply Forall_cons in Hwalked as [Hv Hwalked].
  destruct v as [path is_dir|path err]; cbn [walk_songs] in Hwalk; [|done].
  assert (∀ s0, walk_songs Map_ToLower visits s0 = inr songs →
            song ∈ s0 ∨
            (is_clean_rel (File song) ∧
             Entry ("songs/" +:+ File song) false ∈ Entry path is_dir :: visits ∧
             is_audio_ext (ToLower Map_ToLower (Ext ("songs/" +:+ File song))) = true))
    as Hrest.
  { intros s0 Hs0. destruct (IH s0 songs song Hwalked Hs0 Hin) as [?|(? & ? & ?)]; [by left|].
    right. repeat split; [done| |done]. apply elem_of_cons; by right. }
  destruct is_dir; [by apply Hrest|].
  destruct (is_audio_ext (ToLower Map_ToLower (Ext path))) eqn:Haudio; [|by apply Hrest].
  destruct Hv as [?|(rel & -> & Hclean)]; [done|].
  rewrite (Rel_songs rel Hclean) in Hwalk. unfold default in Hwalk. cbn [from_option id] in Hwalk.
  destruct (Hrest _ Hwalk) as [Hs|?]; [|by right].
  apply elem_of_app in Hs as [?|Hs]; [by left|]. right.
  apply list_elem_of_singleton in Hs as ->. cbn [File].
  repeat split; [done| |done]. apply elem_of_cons; by left.
Qed.

(** X15: from the listing to the stream.  For every song of the listing,
    the request for [/song/] followed by its [File] is answered as follows:
    with 400 when the path has two dots in a row somewhere (a file named
    [a..b.mp3] is listed and cannot be streamed); else with 404 when
    [os.Stat] reports the file missing; else by serving the very path the
    walk visited, with an audio content type. *)
Theorem listed_song_streams visits songs song stat :
  Forall walked visits →
  walk_songs Map_ToLower visits [] = inr songs → song ∈ songs →
  is_clean_rel (File song) ∧
  Entry ("songs/" +:+ File song) false ∈ visits ∧
  content_type_of (ToLower Map_ToLower (Ext ("songs/" +:+ File song)))
    ≠ "application/octet-stream" ∧
  streamSongHandler Map_ToLower stat ("/song/" +:+ File song) =
    if Contains (File song) ".." then http_Error "Invalid file path" 400
    else match stat ("songs/" +:+ File song) with
         | StatNotExist => http_Error "File not found" 404
         | _ => ServeFile
                  (content_type_of (ToLower Map_ToLower (Ext ("songs/" +:+ File song))))
                  ("songs/" +:+ File song)
         end.
Proof.
  intros Hwalked Hwalk Hin.
  destruct (walk_songs_from visits [] songs song Hwalked Hwalk Hin)
    as [Hnil|(Hclean & Hentry & Haudio)]; [by apply elem_of_nil in Hnil|].
  split; [done|]. split; [done|]. split; [by apply audio_content_type|].
  unfold streamSongHandler. rewrite TrimPrefix_app.
  destruct (Contains (File song) ".."); [done|].
  by rewrite (Join_songs_clean _ Hclean).
Qed.

Lemma walk_songs_grows visits : ∀ songs0 songs,
  walk_songs Map_ToLower visits songs0 = inr songs → ∃ more, songs = (songs0 ++ more)%list.
Proof.
  induction visits as [|v visits IH]; intros songs0 songs Hwalk; cbn in Hwalk.
  { injection Hwalk as <-. exists []. by rewrite app_nil_r. }
  destruct v as [path is_dir|path err]; [|done].
  destruct is_dir; [by apply IH|].
  destruct (is_audio_ext _); [|by apply IH].
  destruct (IH _ _ Hwalk) as [more ->]. eexists. by rewrite <- app_assoc.
Qed.

Lemma walk_songs_skipped visits songs0 :
  walk_songs Map_ToLower visits songs0 = inr songs0 ↔
  Forall (skipped Map_ToLower) visits.
Proof.
  revert songs0. induction visits as [|v visits IH]; intros songs0.
  { split; [constructor|done]. }
  destruct v as [path is_dir|path err]; cbn [walk_songs].
  - destruct is_dir.
    { rewrite IH. split; [intros H; constructor; [by left|done]|by intros [_ H]%Forall_cons]. }
    destruct (is_audio_ext (ToLower Map_ToLower (Ext path))) eqn:Haudio.
    + split.
      * intros Hwalk. destruct (walk_songs_grows _ _ _ Hwalk) as [more Hmore].
        apply (f_equal List.length) in Hmore. rewrite !length_app in Hmore. cbn in Hmore. lia.
      * intros [[?|Hs] _]%Forall_cons; [done|]. cbn in Hs. congruence.
    + rewrite IH. split; [intros H; constructor; [by right|done]|by intros [_ H]%Forall_cons].
  - split; [done|]. by intros [[] _]%Forall_cons.
Qed.

(** X16: the body of the listing is [null], not an empty array, exactly
    when the walk met no error and no file with one of the four extensions:
    the slice of songs is then still nil when it is encoded. *)
Theorem empty_listing_is_null visits :
  listSongsHandler Map_ToLower visits = list_Body ("null" +:+ String "010" "") ↔
  Forall (skipped Map_ToLower) visits.
Proof.
  rewrite <- (walk_songs_skipped visits []). unfold listSongsHandler.
  destruct (walk_songs Map_ToLower visits []) as [err|[|song songs]]; [done|done|].
  split; [|done]. unfold Encode. cbn. done.
Qed.

End Library.

(** ** The body of the listing, read back *)

Lemma valid_utf8_name : valid_utf8 "name".
Proof. repeat (apply valid_ascii; [by vm_compute|]). apply valid_nil. Qed.

Lemma valid_utf8_file : valid_utf8 "file".
Proof. repeat (apply valid_ascii; [by vm_compute|]). apply valid_nil. Qed.

Lemma parse_value_Song song fuel depth u :
  valid_utf8 (Name song) → valid_utf8 (File song) → (3 ≤ fuel)%nat →
  parse_value (S fuel) (S depth) (Song_text song +:+ u) = Some (Song_json song, u).
Proof.
  intros Hn Hf Hfuel. unfold Song_text, Song_json.
  set (ms := [("name", quote (Name song)); ("file", quote (File song))]).
  assert (parse_members fuel depth (members_text ms +:+ String "}" u)
          = Some ([("name", JString (Name song)); ("file", JString (File song))], u)) as Hms.
  { apply parse_members_text; [done| |cbn; lia].
    apply List.Forall2_cons;
      [split; [done|split; [apply valid_utf8_name|by apply reads_string]]|].
    apply List.Forall2_cons;
      [split; [done|split; [apply valid_utf8_file|by apply reads_string]]|].
    apply List.Forall2_nil. }
  norm_append. cbn [parse_value Ascii.eqb Bool.eqb andb].
  revert Hms. unfold ms. rewrite members_text_cons, quote_append. norm_append.
  intros Hms. cbn [skip_space is_space Ascii.eqb Bool.eqb andb orb after_char DQ].
  rewrite Hms. done.
Qed.

Lemma Song_text_head song : ∃ t, Song_text song = String "{" t.
Proof. unfold Song_text. eexists. reflexivity. Qed.

Lemma Songs_text_head song songs : ∃ t, Songs_text (song :: songs) = String "{" t.
Proof.
  destruct (Song_text_head song) as [t Ht]. cbn [Songs_text].
  destruct songs; rewrite Ht; eexists; reflexivity.
Qed.

Lemma skip_space_Songs song songs u :
  skip_space (Songs_text (song :: songs) +:+ u) = Songs_text (song :: songs) +:+ u.
Proof. destruct (Songs_text_head song songs) as [t ->]. reflexivity. Qed.

Lemma after_char_Songs c song songs u :
  c ≠ "{"%char → after_char c (Songs_text (song :: songs) +:+ u) = None.
Proof.
  intros Hc. destruct (Songs_text_head song songs) as [t ->].
  cbn [String.append after_char].
  destruct (Ascii.eqb_spec "{" c) as [E|]; [by destruct Hc|done].
Qed.

Lemma Songs_text_cons song song2 songs :
  Songs_text (song :: song2 :: songs)
    = Song_text song +:+ "," +:+ Songs_text (song2 :: songs).
Proof. reflexivity. Qed.

Lemma parse_elements_Songs songs : ∀ fuel depth u,
  songs ≠ [] →
  Forall (λ song, valid_utf8 (Name song) ∧ valid_utf8 (File song)) songs →
  (List.length songs + 4 ≤ fuel)%nat →
  parse_elements fuel (S depth) (Songs_text songs +:+ String "]" u)
    = Some (Song_json <$> songs, u).
Proof.
  induction songs as [|song songs IH]; intros fuel depth u Hne Hvalid Hfuel; [done|].
  apply Forall_cons in Hvalid as [[Hn Hf] Hvalid].
  destruct fuel as [|[|fuel]]; [cbn in Hfuel; lia..|].
  remember (S fuel) as fuel1 eqn:Hfuel1. cbn [List.length] in Hfuel.
  assert (∀ u', parse_value fuel1 (S depth) (Song_text song +:+ u')
                 = Some (Song_json song, u')) as Hpv.
  { intros u'. rewrite Hfuel1. apply parse_value_Song; [done|done|lia]. }
  destruct songs as [|song2 songs].
  - cbn [Songs_text parse_elements]. rewrite Hpv. cbn. done.
  - rewrite Songs_text_cons. norm_append. cbn [parse_elements]. rewrite Hpv.
    cbn [mbind option_bind skip_space is_space Ascii.eqb Bool.eqb andb orb after_char].
    rewrite skip_space_Songs.
    rewrite IH; [done|done|done|cbn [List.length] in *; lia].
Qed.

Lemma length_Song_text song : (1 ≤ String.length (Song_text song))%nat.
Proof. unfold Song_text. cbn. lia. Qed.

Lemma length_Songs_text songs : (List.length songs ≤ String.length (Songs_text songs))%nat.
Proof.
  induction songs as [|song songs IH]; [done|].
  pose proof (length_Song_text song).
  destruct songs as [|song2 songs]; [cbn [Songs_text List.length]; lia|].
  rewrite Songs_text_cons, !length_append. cbn [List.length String.length] in *. lia.
Qed.

(** X17: the body of the listing is well-formed JSON.  For songs whose
    names are well-formed UTF-8, what [Encode] writes is read back as
    [null] for no song, and else as the array of the songs in their order,
    each an object whose members [name] and [file] are the strings of the
    song. *)
Theorem Encode_reads_back songs :
  Forall (λ song, valid_utf8 (Name song) ∧ valid_utf8 (File song)) songs →
  parse_json (Encode songs)
    = Some (match songs with [] => JNull | _ => JArray (Song_json <$> songs) end).
Proof.
  intros Hvalid. destruct songs as [|song songs]; [reflexivity|].
  unfold Encode, parse_json.
  assert (∃ depth, maxNestingDepth = S (S depth)) as [depth ->] by (by exists 9998%nat).
  set (body := Songs_text (song :: songs)).
  pose proof (length_Songs_text (song :: songs)) as Hlen. fold body in Hlen.
  cbn [List.length] in Hlen.
  remember (2 * String.length (("[" +:+ body +:+ "]") +:+ String "010" "") + 1)%nat
    as fuel eqn:Hfuel.
  replace (2 * String.length (("[" +:+ body +:+ "]") +:+ String "010" "") + 2)%nat
    with (S fuel) by lia.
  assert (List.length (song :: songs) + 4 ≤ fuel)%nat as Henough.
  { rewrite Hfuel. rewrite !length_append. cbn [List.length String.length]. lia. }
  norm_append. cbn [skip_space is_space Ascii.eqb Bool.eqb andb orb parse_value].
  unfold body. rewrite skip_space_Songs, after_char_Songs by done.
  rewrite parse_elements_Songs; [|done|done|done].
  reflexivity.
Qed.

(** ** Errors of the walk *)

Section WalkErrors.
Variable Map_ToLower : string → string.

Lemma walk_songs_error visits : ∀ songs err,
  walk_songs Map_ToLower visits songs = inl err ↔
  ∃ before path after,
    visits = (before ++ Failed path err :: after)%list ∧
    Forall (λ v, ∀ p e, v ≠ Failed p e) before.
Proof.
  induction visits as [|v visits IH]; intros songs err.
  { split; [done|]. intros (before & path & after & Hv & _). by destruct before. }
  assert (∀ p d songs',
            walk_songs Map_ToLower visits songs' = inl err ↔
            ∃ before path after,
              Entry p d :: visits = (before ++ Failed path err :: after)%list ∧
              Forall (λ v, ∀ p e, v ≠ Failed p e) before) as Hentry.
  { intros p d songs'. rewrite IH. split.
    - intros (before & path & after & -> & Hbefore).
      exists (Entry p d :: before), path, after. split; [done|].
      by apply Forall_cons.
    - intros (before & path & after & Hv & Hbefore).
      destruct before as [|v' before]; [done|]. injection Hv as <- ->.
      apply Forall_cons in Hbefore as [_ Hbefore]. by exists before, path, after. }
  destruct v as [path is_dir|path e]; cbn [walk_songs].
  - destruct is_dir; [apply Hentry|].
    destruct (is_audio_ext _); apply Hentry.
  - split.
    + intros [= ->]. by exists [], path, visits.
    + intros (before & path' & after & Hv & Hbefore).
      destruct before as [|v' before]; [by injection Hv as -> ->|].
      injection Hv as <- _. apply Forall_cons in Hbefore as [Hne _].
      by destruct (Hne path e).
Qed.

(** X18: the listing fails exactly on an error of the walk.  The handler
    answers with an error exactly when the walk reports one; the answer is
    then 500 with the message of the first error, and the songs found
    before it are not sent. *)
Theorem listing_fails_on_first_error visits err code :
  listSongsHandler Map_ToLower visits = list_Error err code ↔
  code = 500%nat ∧
  ∃ before path after,
    visits = (before ++ Failed path err :: after)%list ∧
    Forall (λ v, ∀ p e, v ≠ Failed p e) before.
Proof.
  rewrite <- (walk_songs_error visits [] err). unfold listSongsHandler.
  destruct (walk_songs Map_ToLower visits []) as [e|songs].
  - split; [by intros [= -> <-]|by intros [-> [= ->]]].
  - split; [done|by intros [_ ?]].
Qed.

End WalkErrors.

(** X14 for the file [songs/a/Song.MP3]. *)
Lemma walk_songs_lists_file_witness :
  walk_songs (λ s, s) (Entry ("songs/" +:+ "a/Song" +:+ "." +:+ "MP3") false :: []) [] =
  walk_songs (λ s, s) []
    ([] ++ [mkSong (if String.eqb (lower_ascii "MP3") "MP3" then "a/Song"
                    else "a/Song" +:+ "." +:+ "MP3")
                   ("a/Song" +:+ "." +:+ "MP3")]).
Proof.
  apply (walk_songs_lists_file (λ s, s) [] [] "a/Song" "MP3").
  - unfold is_clean_rel. cbn. repeat constructor; done.
  - reflexivity.
Defined.

(** X15 for a walk that visits the file [songs/a..b.mp3]. *)
Lemma listed_song_streams_witness :
  is_clean_rel (File (mkSong "a..b" "a..b.mp3")) ∧
  Entry ("songs/" +:+ File (mkSong "a..b" "a..b.mp3")) false
    ∈ [Entry "songs" true; Entry "songs/a..b.mp3" false] ∧
  content_type_of (ToLower (λ s, s) (Ext ("songs/" +:+ File (mkSong "a..b" "a..b.mp3"))))
    ≠ "application/octet-stream" ∧
  streamSongHandler (λ s, s) (λ _, StatOk) ("/song/" +:+ File (mkSong "a..b" "a..b.mp3")) =
    if Contains (File (mkSong "a..b" "a..b.mp3")) ".."
    then http_Error "Invalid file path" 400
    else match (λ _, StatOk) ("songs/" +:+ File (mkSong "a..b" "a..b.mp3")) with
         | StatNotExist => http_Error "File not found" 404
         | _ => ServeFile
                  (content_type_of
                     (ToLower (λ s, s) (Ext ("songs/" +:+ File (mkSong "a..b" "a..b.mp3")))))
                  ("songs/" +:+ File (mkSong "a..b" "a..b.mp3"))
         end.
Proof.
  apply (listed_song_streams (λ s, s) [Entry "songs" true; Entry "songs/a..b.mp3" false]
           [mkSong "a..b" "a..b.mp3"]).
  - apply Forall_cons. split; [by left|]. apply Forall_cons. split; [|done].
    right. exists "a..b.mp3". split; [done|].
    unfold is_clean_rel. cbn. repeat constructor; done.
  - reflexivity.
  - apply elem_of_cons. by left.
Defined.

(** X17 for two songs. *)
Lemma Encode_reads_back_witness :
  parse_json (Encode [mkSong "a" "a.mp3"; mkSong "b" "b.WAV"])
    = Some (JArray (Song_json <$> [mkSong "a" "a.mp3"; mkSong "b" "b.WAV"])).
Proof.
  apply (Encode_reads_back [mkSong "a" "a.mp3"; mkSong "b" "b.WAV"]).
  repeat (apply Forall_cons; split;
          [split; repeat (apply valid_ascii; [by vm_compute|]); apply valid_nil|]).
  apply Forall_nil_2.
Defined.
